(** * ExcalidrawAgent: the diagram layout and serialisation core

    A shallow embedding of [src/test/excalidraw_agent.py].

    - Numbers.  Python [int] and [float] coordinates are embedded as exact
      canonical rationals ([Qc]); [==] on numbers is then Leibniz equality.
      Binary64 rounding is not modelled, and [math.pi], [math.cos] and
      [math.sin] are taken as an interface ([MathLib]).
    - Strings.  A Python [str] is embedded as the bytes of its UTF-8
      encoding: [==] and concatenation are those of the bytes, and [len]
      counts code points.
    - Objects.  Every dict the agent builds has the fixed key set of
      [_create_base_element] plus the keys of its kind, so an element is a
      record.  Dicts are mutable and shared between [self.elements], the lists
      the layouts return and the caller: they live in a store ([objects]), and
      lists hold addresses.  [None] entries of a list are [None : option addr].
    - Effects.  Methods are state transformers over the agent that either
      return a value or raise; what was mutated before a [raise] stays
      mutated. *)

From Stdlib Require Import QArith Qcanon Qcabs.
From stdpp Require Import base numbers list strings pretty.

(* [[ q ]] is kept for lists. *)
Disable Notation "[ q ]" : Qc_scope.
Local Open Scope Qc_scope.

(** ** Numbers *)

Definition num := Qc.

Definition int (z : Z) : num := Qc_of_Z z.

(** The float literals of the source. *)
Definition float_0_6 : num := Q2Qc (6 # 10).
Definition float_1_2 : num := Q2Qc (12 # 10).
Definition float_0_3 : num := Q2Qc (3 # 10).
Definition float_1_5 : num := Q2Qc (15 # 10).
Definition float_1_25 : num := Q2Qc (125 # 100).

(** [len(text)] as a number.  A Python [str] is embedded as the bytes of its
    UTF-8 encoding, and [len] counts its code points: the bytes that do not
    continue a character (those not of the form [10xxxxxx]). *)
Definition is_continuation (c : Ascii.ascii) : bool :=
  Nat.leb 128 (Ascii.nat_of_ascii c) && Nat.ltb (Ascii.nat_of_ascii c) 192.

Fixpoint code_points (s : string) : nat :=
  match s with
  | EmptyString => 0
  | String c s' => (if is_continuation c then 0 else 1) + code_points s'
  end.

Definition len (s : string) : num := int (Z.of_nat (code_points s)).

(** The part of Python's [math] module the routing layout calls. *)
Class MathLib := {
  math_pi : num;
  math_cos : num → num;
  math_sin : num → num
}.

(** A rational stand-in for [math], to run the routing layout on examples:
    [355/113] and the Taylor polynomials of degree 4 and 5. *)
Definition rational_math : MathLib := {|
  math_pi := Q2Qc (355 # 113);
  math_cos a := 1 - a * a / int 2 + a * a * a * a / int 24;
  math_sin a := a - a * a * a / int 6 + a * a * a * a * a / int 120
|}.

(** ** Enumerations *)

Inductive ElementType := TEXT | RECTANGLE | ELLIPSE | ARROW.

Definition ElementType_value (t : ElementType) : string :=
  match t with
  | TEXT => "text"
  | RECTANGLE => "rectangle"
  | ELLIPSE => "ellipse"
  | ARROW => "arrow"
  end.

Module ColorScheme.
Definition LLM : string := "#ffec99".
Definition CODE : string := "#a5d8ff".
Definition PROCESS : string := "#c2f0c2".
Definition TRANSPARENT : string := "transparent".
Definition DEFAULT_STROKE : string := "#1e1e1e".
End ColorScheme.

(** ** Data model *)

(** [Position] dataclass. *)
Record Position := mkPosition { pos_x : num; pos_y : num }.

(** An entry of a [boundElements] list: [{"id": ..., "type": ...}]. *)
Module Ref.
Record t := mk { id : string; type : string }.
#[global] Instance eq_dec : EqDecision t.
Proof. solve_decision. Defined.
End Ref.

(** [startBinding] / [endBinding] of an arrow. *)
Module Binding.
Record t := mk { elementId : string; focus : Z; gap : Z }.
#[global] Instance eq_dec : EqDecision t.
Proof. solve_decision. Defined.
End Binding.

(** The keys [create_text_element] adds to a base element. *)
Module Text.
Record t := mk {
  text : string;
  fontSize : num;
  fontFamily : Z;
  textAlign : string;
  verticalAlign : string;
  containerId : option string;
  originalText : string;
  autoResize : bool;
  lineHeight : num
}.
#[global] Instance eq_dec : EqDecision t.
Proof. solve_decision. Defined.
End Text.

(** The keys [create_arrow] adds to a base element. *)
Module Arrow.
Record t := mk {
  startBinding : Binding.t;
  endBinding : Binding.t;
  lastCommittedPoint : option unit;
  startArrowhead : option string;
  endArrowhead : option string;
  points : list (list num)
}.
#[global] Instance eq_dec : EqDecision t.
Proof. solve_decision. Defined.
End Arrow.

Inductive kind_keys :=
| NoKeys
| TextKeys (t : Text.t)
| ArrowKeys (a : Arrow.t).

#[global] Instance kind_keys_eq_dec : EqDecision kind_keys.
Proof. solve_decision. Defined.

(** An element dict: the keys of [_create_base_element], then the keys of
    its kind. *)
Module El.
Record t := mk {
  id : string;
  type : string;
  x : num;
  y : num;
  width : num;
  height : num;
  angle : Z;
  strokeColor : string;
  backgroundColor : string;
  fillStyle : string;
  strokeWidth : Z;
  strokeStyle : string;
  roughness : Z;
  opacity : Z;
  groupIds : list string;
  frameId : option string;
  index : string;
  roundness : option Z;
  seed : Z;
  version : Z;
  versionNonce : Z;
  isDeleted : bool;
  boundElements : list Ref.t;
  updated : Z;
  link : option string;
  locked : bool;
  keys : kind_keys
}.

#[global] Instance eq_dec : EqDecision t.
Proof. solve_decision. Defined.

(** [rect_element.update({"backgroundColor": ..., "roundness": {"type": n}})] *)
Definition update_shape (bg : string) (r : Z) (e : t) : t :=
  mk (id e) (type e) (x e) (y e) (width e) (height e) (angle e)
     (strokeColor e) bg (fillStyle e) (strokeWidth e) (strokeStyle e)
     (roughness e) (opacity e) (groupIds e) (frameId e) (index e) (Some r)
     (seed e) (version e) (versionNonce e) (isDeleted e) (boundElements e)
     (updated e) (link e) (locked e) (keys e).

(** [element.update({"text": ..., ...})] *)
Definition update_text (k : Text.t) (e : t) : t :=
  mk (id e) (type e) (x e) (y e) (width e) (height e) (angle e)
     (strokeColor e) (backgroundColor e) (fillStyle e) (strokeWidth e)
     (strokeStyle e) (roughness e) (opacity e) (groupIds e) (frameId e)
     (index e) (roundness e) (seed e) (version e) (versionNonce e)
     (isDeleted e) (boundElements e) (updated e) (link e) (locked e)
     (TextKeys k).

(** [arrow_element.update({"strokeStyle": ..., "strokeWidth": ...,
    "roundness": {"type": 2}, "startBinding": ..., ...})] *)
Definition update_arrow (style : string) (w : Z) (k : Arrow.t) (e : t) : t :=
  mk (id e) (type e) (x e) (y e) (width e) (height e) (angle e)
     (strokeColor e) (backgroundColor e) (fillStyle e) w style
     (roughness e) (opacity e) (groupIds e) (frameId e) (index e) (Some 2%Z)
     (seed e) (version e) (versionNonce e) (isDeleted e) (boundElements e)
     (updated e) (link e) (locked e) (ArrowKeys k).

(** [element["boundElements"].append(r)] *)
Definition bind (r : Ref.t) (e : t) : t :=
  mk (id e) (type e) (x e) (y e) (width e) (height e) (angle e)
     (strokeColor e) (backgroundColor e) (fillStyle e) (strokeWidth e)
     (strokeStyle e) (roughness e) (opacity e) (groupIds e) (frameId e)
     (index e) (roundness e) (seed e) (version e) (versionNonce e)
     (isDeleted e) (boundElements e ++ [r]) (updated e) (link e) (locked e)
     (keys e).
End El.

(** ** The agent and its store *)

Abbreviation addr := nat.

(** A Python variable holding a dict or [None]. *)
Abbreviation ref := (option addr).

Record ExcalidrawAgent := mkAgent {
  objects : list El.t;
  elements : list ref;
  element_counter : N;
  group_counter : N;
  current_group_id : option string;
  default_spacing_x : num;
  default_spacing_y : num;
  default_text_size : num;
  default_element_width : num;
  default_element_height : num
}.

(** [ExcalidrawAgent.__init__] *)
Definition init : ExcalidrawAgent :=
  mkAgent [] [] 0 0 None (int 150) (int 100) (int 16) (int 120) (int 60).

Definition set_objects (h : list El.t) (s : ExcalidrawAgent) : ExcalidrawAgent :=
  mkAgent h (elements s) (element_counter s) (group_counter s)
          (current_group_id s) (default_spacing_x s) (default_spacing_y s)
          (default_text_size s) (default_element_width s)
          (default_element_height s).

Definition set_elements (l : list ref) (s : ExcalidrawAgent) : ExcalidrawAgent :=
  mkAgent (objects s) l (element_counter s) (group_counter s)
          (current_group_id s) (default_spacing_x s) (default_spacing_y s)
          (default_text_size s) (default_element_width s)
          (default_element_height s).

Definition set_element_counter (c : N) (s : ExcalidrawAgent) : ExcalidrawAgent :=
  mkAgent (objects s) (elements s) c (group_counter s)
          (current_group_id s) (default_spacing_x s) (default_spacing_y s)
          (default_text_size s) (default_element_width s)
          (default_element_height s).

Definition set_group_counter (c : N) (s : ExcalidrawAgent) : ExcalidrawAgent :=
  mkAgent (objects s) (elements s) (element_counter s) c
          (current_group_id s) (default_spacing_x s) (default_spacing_y s)
          (default_text_size s) (default_element_width s)
          (default_element_height s).

Definition set_current_group_id (g : option string) (s : ExcalidrawAgent) : ExcalidrawAgent :=
  mkAgent (objects s) (elements s) (element_counter s) (group_counter s)
          g (default_spacing_x s) (default_spacing_y s)
          (default_text_size s) (default_element_width s)
          (default_element_height s).

(** ** Outcomes and the method monad *)

Inductive exn :=
| ValueError (msg : string)
| TypeError
| ZeroDivisionError
| IndexError.

(** [Stuck] is not a Python outcome: it marks a read through an address that
    is not in the store, which no reachable agent contains (see [wf]). *)
Inductive result (A : Type) :=
| Ok (a : A)
| Raise (e : exn)
| Stuck.
Arguments Ok {A} a.
Arguments Raise {A} e.
Arguments Stuck {A}.

Definition M (A : Type) : Type := ExcalidrawAgent → result A * ExcalidrawAgent.

Definition ret {A} (a : A) : M A := λ s, (Ok a, s).

Definition bind {A B} (m : M A) (k : A → M B) : M B :=
  λ s, match m s with
       | (Ok a, s') => k a s'
       | (Raise e, s') => (Raise e, s')
       | (Stuck, s') => (Stuck, s')
       end.

Definition raise {A} (e : exn) : M A := λ s, (Raise e, s).
Definition stuck {A} : M A := λ s, (Stuck, s).
Definition gets {A} (f : ExcalidrawAgent → A) : M A := λ s, (Ok (f s), s).
Definition modify (f : ExcalidrawAgent → ExcalidrawAgent) : M unit := λ s, (Ok tt, f s).

Notation "'let*' p ':=' m 'in' k" := (bind m (λ p, k))
  (at level 10, p pattern, m at level 100, k at level 200).

(** [for x in xs: acc = body(acc, x)]: a [for] loop whose local variables
    are [acc]. *)
Fixpoint for_each {A B} (xs : list A) (body : B → A → M B) (acc : B) : M B :=
  match xs with
  | [] => ret acc
  | x :: xs' => let* acc' := body acc x in for_each xs' body acc'
  end.

(** [enumerate(xs)] *)
Definition enumerate {A} (xs : list A) : list (nat * A) := imap pair xs.

(** *** Store access *)

(** A new dict. *)
Definition alloc (e : El.t) : M addr :=
  λ s, (Ok (length (objects s)), set_objects (objects s ++ [e]) s).

(** Reading a dict through a variable. *)
Definition load (a : addr) : M El.t :=
  λ s, match objects s !! a with
       | Some e => (Ok e, s)
       | None => (Stuck, s)
       end.

(** In-place mutation of a dict. *)
Definition mutate (a : addr) (f : El.t → El.t) : M unit :=
  λ s, match objects s !! a with
       | Some e => (Ok tt, set_objects (<[a := f e]> (objects s)) s)
       | None => (Stuck, s)
       end.

(** Python truthiness of an optional string: [None] and [""] are falsy. *)
Definition truthy (o : option string) : bool :=
  match o with
  | Some (String _ _) => true
  | _ => false
  end.

(** ** Id/Group allocator *)

(** [_generate_id] *)
Definition _generate_id (prefix : string) : M string :=
  let* _ := modify (λ s, set_element_counter (element_counter s + 1) s) in
  let* c := gets element_counter in
  ret (prefix +:+ "-" +:+ pretty c).

(** [_generate_group_id] *)
Definition _generate_group_id : M string :=
  let* _ := modify (λ s, set_group_counter (group_counter s + 1) s) in
  let* c := gets group_counter in
  ret ("group-" +:+ pretty c).

(** ** Shape factory *)

(** [_create_base_element] *)
Definition _create_base_element (element_type : ElementType) (x y width height : num)
    (element_id : option string) : M addr :=
  let* element_id :=
    match element_id with
    | None => _generate_id "element"
    | Some i => ret i
    end in
  let* g := gets current_group_id in
  let* c := gets element_counter in
  alloc (El.mk element_id (ElementType_value element_type) x y width height 0
           ColorScheme.DEFAULT_STROKE ColorScheme.TRANSPARENT "solid" 2 "solid"
           1 100
           (if truthy g then option_list g else [])
           None ("a" +:+ pretty c) None (Z.of_N c) 1 (Z.of_N c * 1000) false []
           (1757460000000 + Z.of_N c) None false NoKeys).

(** [create_text_element] *)
Definition create_text_element (text : string) (x y : num)
    (container_id : option string) (font_size : option num) : M addr :=
  let* font_size :=
    match font_size with
    | None => gets default_text_size
    | Some f => ret f
    end in
  let char_width := font_size * float_0_6 in
  let text_width := len text * char_width in
  let text_height := font_size * float_1_2 in
  let* element := _create_base_element TEXT x y text_width text_height None in
  let* _ := mutate element (El.update_text
    (Text.mk text font_size 5
       (if truthy container_id then "center" else "left")
       (if truthy container_id then "middle" else "top")
       container_id text true float_1_25)) in
  ret element.

(** The common body of [create_rectangle] and [create_ellipse], which differ
    in the id prefix, the element type and the roundness tag only. *)
Definition create_shape (prefix : string) (ty : ElementType) (round : Z)
    (x y : num) (width height : option num) (text : option string)
    (background_color : option string) : M (addr * ref) :=
  let* width :=
    match width with None => gets default_element_width | Some w => ret w end in
  let* height :=
    match height with None => gets default_element_height | Some h => ret h end in
  let background_color := default ColorScheme.TRANSPARENT background_color in
  let* shape_id := _generate_id prefix in
  let* shape_element := _create_base_element ty x y width height (Some shape_id) in
  let* _ := mutate shape_element (El.update_shape background_color round) in
  let* text_element :=
    match text with
    | Some (String _ _ as text) =>
        let* ts := gets default_text_size in
        let text_x := x + width / int 2 - len text * ts * float_0_3 in
        let text_y := y + height / int 2 - ts / int 2 in
        let* text_element := create_text_element text text_x text_y (Some shape_id) None in
        let* te := load text_element in
        let* _ := mutate shape_element (El.bind (Ref.mk (El.id te) "text")) in
        ret (Some text_element)
    | _ => ret None
    end in
  ret (shape_element, text_element).

(** [create_rectangle] *)
Definition create_rectangle : num → num → option num → option num → option string
    → option string → M (addr * ref) :=
  create_shape "rect" RECTANGLE 3.

(** [create_ellipse] *)
Definition create_ellipse : num → num → option num → option num → option string
    → option string → M (addr * ref) :=
  create_shape "ellipse" ELLIPSE 2.

(** ** Arrow binder *)

(** The scan of [self.elements] at the head of [create_arrow]:
    [element["id"]] on a [None] entry is a [TypeError]; a later match
    overwrites an earlier one; an entry matching [start_element_id] is never
    tried against [end_element_id] ([elif]). *)
Definition find_endpoints (start_element_id end_element_id : string) : M (ref * ref) :=
  let* els := gets elements in
  for_each els (λ '(start_element, end_element) element,
    match element with
    | None => raise TypeError
    | Some a =>
        let* e := load a in
        if decide (El.id e = start_element_id) then ret (Some a, end_element)
        else if decide (El.id e = end_element_id) then ret (start_element, Some a)
        else ret (start_element, end_element)
    end) (None, None).

(** [create_arrow] *)
Definition create_arrow (start_element_id end_element_id : string)
    (start_pos end_pos : option Position) (style : string) (width : Z) : M addr :=
  let* (start_element, end_element) := find_endpoints start_element_id end_element_id in
  match start_element, end_element with
  | Some start_element, Some end_element =>
      let* start_pos :=
        match start_pos with
        | Some p => ret p
        | None =>
            let* e := load start_element in
            ret (mkPosition (El.x e + El.width e) (El.y e + El.height e / int 2))
        end in
      let* end_pos :=
        match end_pos with
        | Some p => ret p
        | None =>
            let* e := load end_element in
            ret (mkPosition (El.x e) (El.y e + El.height e / int 2))
        end in
      let arrow_width := pos_x end_pos - pos_x start_pos in
      let arrow_height := pos_y end_pos - pos_y start_pos in
      let* arrow_id := _generate_id "arrow" in
      let* arrow_element :=
        _create_base_element ARROW (pos_x start_pos) (pos_y start_pos)
          (Qcabs arrow_width) (Qcabs arrow_height) (Some arrow_id) in
      let* _ := mutate arrow_element (El.update_arrow style width
        (Arrow.mk (Binding.mk start_element_id 0 1) (Binding.mk end_element_id 0 1)
           None None (Some "arrow")
           [[int 0; int 0]; [arrow_width; arrow_height]])) in
      let* _ := mutate start_element (El.bind (Ref.mk arrow_id "arrow")) in
      let* _ := mutate end_element (El.bind (Ref.mk arrow_id "arrow")) in
      ret arrow_element
  | _, _ => raise (ValueError "Start or end element not found")
  end.


(** ** Groups and the element list *)

(** [start_group] *)
Definition start_group (group_name : option string) : M string :=
  let* group_id := _generate_group_id in
  let group_id :=
    match group_name with
    | Some (String _ _ as n) => n +:+ "-" +:+ group_id
    | _ => group_id
    end in
  let* _ := modify (set_current_group_id (Some group_id)) in
  ret group_id.

(** [end_group] *)
Definition end_group : M unit := modify (set_current_group_id None).

(** [add_element] *)
Definition add_element (element : ref) : M unit :=
  modify (λ s, set_elements (elements s ++ [element]) s).

(** [clear] *)
Definition clear : M unit :=
  modify (λ s, set_current_group_id None
                 (set_group_counter 0 (set_element_counter 0 (set_elements [] s)))).

(** [entry == x] for a list entry and a dict [x]: identity or equal keys and
    values; [None] equals no dict. *)
Definition same_dict (h : list El.t) (x : addr) (entry : ref) : bool :=
  match entry with
  | Some a => bool_decide (a = x) || bool_decide (h !! a = h !! x)
  | None => false
  end.

(** [x in self.elements] *)
Definition contains (x : addr) : M bool :=
  gets (λ s, existsb (same_dict (objects s) x) (elements s)).

Fixpoint remove_first (p : ref → bool) (l : list ref) : list ref :=
  match l with
  | [] => []
  | r :: l' => if p r then l' else r :: remove_first p l'
  end.

(** [self.elements.remove(x)] *)
Definition remove (x : addr) : M unit :=
  let* present := contains x in
  if present
  then modify (λ s, set_elements (remove_first (same_dict (objects s) x) (elements s)) s)
  else raise (ValueError "list.remove(x): x not in list").

(** ** Layout engine *)

(** [colors[i % len(colors)]] *)
Definition pick (colors : list string) (i : nat) : M string :=
  match length colors with
  | 0 => raise ZeroDivisionError
  | n =>
      match colors !! (i mod n) with
      | Some c => ret c
      | None => raise IndexError
      end
  end.

(** [xs[i]] *)
Definition item {A} (xs : list A) (i : nat) : M A :=
  match xs !! i with
  | Some x => ret x
  | None => raise IndexError
  end.

(** [a / b] *)
Definition truediv (a b : num) : M num :=
  if decide (b = 0) then raise ZeroDivisionError else ret (a / b).

(** [element["id"]] *)
Definition id_of (a : addr) : M string :=
  let* e := load a in ret (El.id e).

(** The body of the first loop of [create_sequential_layout]
    ("First pass: create all shapes"); the loop's variables are [elements],
    [shapes] and [current_x]. *)
Definition sequential_shape (colors : list string) (item_type : string)
    (current_y : num) : list ref * list addr * num → nat * string
    → M (list ref * list addr * num) :=
  λ '(elements, shapes, current_x) '(i, item),
    let* color := pick colors i in
    let* (shape, text) :=
      if decide (item_type = "rectangle")
      then create_rectangle current_x current_y None None (Some item) (Some color)
      else create_ellipse current_x current_y None None (Some item) (Some color) in
    let elements := elements ++ [Some shape] in
    let elements :=
      match text with
      | Some _ => elements ++ [text]
      | None => elements
      end in
    let shapes := shapes ++ [shape] in
    let* w := gets default_element_width in
    let* sx := gets default_spacing_x in
    ret (elements, shapes, current_x + (w + sx)).

(** The body of its second loop ("Second pass: create arrows between
    consecutive shapes"): the two shapes are put into [self.elements] for the
    time of the [create_arrow] call and taken out again. *)
Definition sequential_arrow (shapes : list addr) : list ref → nat → M (list ref) :=
  λ elements i,
    let* shape_i := item shapes i in
    let* shape_i1 := item shapes (i + 1) in
    let* present := contains shape_i in
    let* _ := if present then ret tt else add_element (Some shape_i) in
    let* present := contains shape_i1 in
    let* _ := if present then ret tt else add_element (Some shape_i1) in
    let* id_i := id_of shape_i in
    let* id_i1 := id_of shape_i1 in
    let* arrow := create_arrow id_i id_i1 None None "solid" 2 in
    let elements := elements ++ [Some arrow] in
    let* present := contains shape_i in
    let* _ := if present then remove shape_i else ret tt in
    let* present := contains shape_i1 in
    let* _ := if present then remove shape_i1 else ret tt in
    ret elements.

(** [create_sequential_layout] *)
Definition create_sequential_layout (items : list string) (start_x start_y : num)
    (item_type : string) (colors : option (list string)) : M (list ref) :=
  let colors := default [ColorScheme.LLM] colors in
  let current_y := start_y in
  let* (elements, shapes, current_x) :=
    for_each (enumerate items) (sequential_shape colors item_type current_y)
      ([], [], start_x) in
  for_each (seq 0 (length shapes - 1)) (sequential_arrow shapes) elements.

(** The body of the loop of [create_routing_layout]: one destination and the
    arrow from the router to it. *)
Definition routing_destination `{MathLib} (dest_colors : list string)
    (start_x start_y radius angle_step : num) (router : addr)
    : list ref → nat * string → M (list ref) :=
  λ elements '(i, dest_name),
    let angle := int (Z.of_nat i) * angle_step in
    let dest_x := start_x + radius * math_cos angle in
    let dest_y := start_y + radius * math_sin angle in
    let* color := pick dest_colors i in
    let* (dest, dest_text) :=
      create_rectangle dest_x dest_y None None (Some dest_name) (Some color) in
    let elements := elements ++ [Some dest; dest_text] in
    let* _ := add_element (Some dest) in
    let* _ := add_element dest_text in
    let* router_id := id_of router in
    let* dest_id := id_of dest in
    let* arrow := create_arrow router_id dest_id None None "solid" 2 in
    ret (elements ++ [Some arrow]).

(** [create_routing_layout] *)
Definition create_routing_layout `{MathLib} (router_name : string)
    (destinations : list string) (start_x start_y : num)
    (router_color : option string) (dest_colors : option (list string)) : M (list ref) :=
  let router_color := default ColorScheme.CODE router_color in
  let dest_colors := default [ColorScheme.LLM] dest_colors in
  let* (router, router_text) :=
    create_rectangle start_x start_y None None (Some router_name) (Some router_color) in
  let elements := [Some router; router_text] in
  let* _ := add_element (Some router) in
  let* _ := add_element router_text in
  let* angle_step := truediv (int 2 * math_pi) (int (Z.of_nat (length destinations))) in
  let* sx := gets default_spacing_x in
  let radius := sx * float_1_5 in
  for_each (enumerate destinations)
    (routing_destination dest_colors start_x start_y radius angle_step router)
    elements.

(** The body of the first loop of [create_parallel_layout]: one parallel
    element and the arrow from the input to it; the loop's variables are
    [elements] and [parallel_elements]. *)
Definition parallel_item (colors : list string) (count : nat)
    (parallel_x start_y : num) (input_elem : addr)
    : list ref * list addr → nat * string → M (list ref * list addr) :=
  λ '(elements, parallel_elements) '(i, item_name),
    let* sy := gets default_spacing_y in
    let item_y :=
      start_y + (int (Z.of_nat i) - int (Z.of_nat count) / int 2) * sy in
    let* color := pick colors i in
    let* (item, item_text) :=
      create_rectangle parallel_x item_y None None (Some item_name) (Some color) in
    let elements := elements ++ [Some item; item_text] in
    let* _ := add_element (Some item) in
    let* _ := add_element item_text in
    let parallel_elements := parallel_elements ++ [item] in
    let* input_id := id_of input_elem in
    let* item_id := id_of item in
    let* arrow := create_arrow input_id item_id None None "solid" 2 in
    ret (elements ++ [Some arrow], parallel_elements).

(** The body of its second loop: the arrow from one parallel element to the
    output. *)
Definition parallel_output_arrow (output_elem : addr) : list ref → addr → M (list ref) :=
  λ elements parallel_elem,
    let* parallel_id := id_of parallel_elem in
    let* output_id := id_of output_elem in
    let* arrow := create_arrow parallel_id output_id None None "solid" 2 in
    ret (elements ++ [Some arrow]).

(** [create_parallel_layout] *)
Definition create_parallel_layout (input_name : string) (parallel_items : list string)
    (output_name : string) (start_x start_y : num)
    (colors : option (list string)) : M (list ref) :=
  let colors := default [ColorScheme.LLM; ColorScheme.CODE] colors in
  let* (input_elem, input_text) :=
    create_ellipse start_x start_y None None (Some input_name)
      (Some ColorScheme.TRANSPARENT) in
  let elements := [Some input_elem; input_text] in
  let* _ := add_element (Some input_elem) in
  let* _ := add_element input_text in
  let* sx := gets default_spacing_x in
  let parallel_x := start_x + sx * int 2 in
  let* (elements, parallel_elements) :=
    for_each (enumerate parallel_items)
      (parallel_item colors (length parallel_items) parallel_x start_y input_elem)
      (elements, []) in
  let* sx := gets default_spacing_x in
  let output_x := parallel_x + sx * int 2 in
  let* (output_elem, output_text) :=
    create_ellipse output_x start_y None None (Some output_name)
      (Some ColorScheme.TRANSPARENT) in
  let elements := elements ++ [Some output_elem; output_text] in
  let* _ := add_element (Some output_elem) in
  let* _ := add_element output_text in
  for_each parallel_elements (parallel_output_arrow output_elem) elements.

Local Close Scope Qc_scope.

(** ** Document assembler *)

Record AppState := mkAppState {
  gridSize : Z;
  viewBackgroundColor : string;
  currentItemFontFamily : Z;
  currentItemFontSize : Z;
  currentItemStrokeColor : string;
  currentItemBackgroundColor : string;
  currentItemFillStyle : string;
  currentItemStrokeWidth : Z;
  currentItemStrokeStyle : string;
  currentItemRoughness : Z;
  currentItemOpacity : Z;
  currentItemTextAlign : string;
  currentItemStartArrowhead : option string;
  currentItemEndArrowhead : option string
}.

(** The dict [generate_excalidraw_json] returns, as [json.dump] traverses it:
    the entries of [self.elements] are followed to the dicts they refer to
    ([None] is JSON [null]); a dict that is listed twice is written twice. *)
Module Doc.
Record t := mk {
  type : string;
  version : Z;
  source : string;
  elements : list (option El.t);
  appState : AppState;
  files : list (string * string)
}.
End Doc.

Fixpoint resolve (l : list ref) : M (list (option El.t)) :=
  match l with
  | [] => ret []
  | None :: l' => let* r := resolve l' in ret (None :: r)
  | Some a :: l' => let* e := load a in let* r := resolve l' in ret (Some e :: r)
  end.

(** [generate_excalidraw_json] *)
Definition generate_excalidraw_json (diagram_title : string) : M Doc.t :=
  let* els := gets elements in
  let* els := resolve els in
  ret (Doc.mk "excalidraw" 2 "https://github.com/your-username/excalidraw-agent"
         els
         (mkAppState 20 "#ffffff" 5 16 "#1e1e1e" "transparent" "solid" 2 "solid"
            1 100 "left" None (Some "arrow"))
         []).

(** [save_diagram]: the result is what is handed to [open] and [json.dump],
    the file name and the document. *)
Definition save_diagram (filename : string) (diagram_title : string) : M (string * Doc.t) :=
  let* excalidraw_json := generate_excalidraw_json diagram_title in
  ret (filename, excalidraw_json).

(** ** Sequences of calls on one agent *)

(** A call of the shape factory or of the arrow binder, or [add_element] on
    what an earlier call returned. *)
Inductive call :=
| CreateText (text : string) (x y : num) (container_id : option string)
    (font_size : option num)
| CreateRectangle (x y : num) (width height : option num) (text : option string)
    (background_color : option string)
| CreateEllipse (x y : num) (width height : option num) (text : option string)
    (background_color : option string)
| CreateArrow (start_element_id end_element_id : string)
    (start_pos end_pos : option Position) (style : string) (width : Z)
| AddElement (element : ref)
| StartGroup (group_name : option string)
| EndGroup.

(** The agent after the call, whatever the call returned or raised. *)
Definition after (c : call) (s : ExcalidrawAgent) : ExcalidrawAgent :=
  match c with
  | CreateText t x y cid fs => (create_text_element t x y cid fs s).2
  | CreateRectangle x y w h t bg => (create_rectangle x y w h t bg s).2
  | CreateEllipse x y w h t bg => (create_ellipse x y w h t bg s).2
  | CreateArrow a b sp ep st w => (create_arrow a b sp ep st w s).2
  | AddElement r => (add_element r s).2
  | StartGroup n => (start_group n s).2
  | EndGroup => (end_group s).2
  end.

Definition after_all (cs : list call) (s : ExcalidrawAgent) : ExcalidrawAgent :=
  foldl (λ s c, after c s) s cs.

(** ** Predicates on agents *)

(** The dict a list entry refers to. *)
Definition dict_at (s : ExcalidrawAgent) (r : ref) : option El.t :=
  match r with
  | Some a => objects s !! a
  | None => None
  end.

(** Every entry of [self.elements] that is not [None] refers to a dict. *)
Definition wf (s : ExcalidrawAgent) : Prop :=
  Forall (λ r, r = None ∨ is_Some (dict_at s r)) (elements s).

(** [self.elements] is a [List[Dict]]: it holds no [None]. *)
Definition all_dicts (s : ExcalidrawAgent) : Prop := None ∉ elements s.

(** Some dict of [self.elements] has id [i]. *)
Definition present (i : string) (s : ExcalidrawAgent) : Prop :=
  Exists (λ r, El.id <$> dict_at s r = Some i) (elements s).

#[global] Instance wf_dec s : Decision (wf s).
Proof. unfold wf. apply _. Defined.

#[global] Instance all_dicts_dec s : Decision (all_dicts s).
Proof. unfold all_dicts. apply _. Defined.

#[global] Instance present_dec i s : Decision (present i s).
Proof. unfold present. apply _. Defined.

(** [a] is an entry of the list [xs] and refers to a dict that satisfies [P]. *)
Definition entry_with (s : ExcalidrawAgent) (xs : list ref) (P : El.t → Prop)
    (a : addr) : Prop :=
  Some a ∈ xs ∧ ∃ e, objects s !! a = Some e ∧ P e.

(** Two rectangles labelled [A] and [B], both in [self.elements] with their
    texts. *)
Definition two_rects : ExcalidrawAgent :=
  after_all [CreateRectangle (int 50) (int 50) None None (Some "A") None;
             AddElement (Some 0); AddElement (Some 1);
             CreateRectangle (int 320) (int 50) None None (Some "B") None;
             AddElement (Some 2); AddElement (Some 3)] init.

(** The agent a routing layout with an empty router label leaves behind: the
    router, the [None] that stands for its text, and the first destination
    with its text are in [self.elements]. *)
Definition null_entry : ExcalidrawAgent :=
  (create_routing_layout (H:=rational_math) "" ["LLM1"] (int 50) (int 150)
     None None init).2.

(** The prefixes the agent passes to [_generate_id]. *)
Definition prefixes : list string := ["element"; "rect"; "ellipse"; "arrow"].

(** [f"{prefix}-{n}"] *)
Definition fmt (prefix : string) (n : N) : string := prefix +:+ "-" +:+ pretty n.

(** [i] is an id the counter has given out by the time it reads [c]. *)
Definition issued (c : N) (i : string) : Prop :=
  ∃ p k, p ∈ prefixes ∧ (k ≤ c)%N ∧ i = fmt p k.

(** Every dict carries an id the agent's counter gave out. *)
Definition ids_issued (s : ExcalidrawAgent) : Prop :=
  Forall (λ e, issued (element_counter s) (El.id e)) (objects s).

(** No two dicts share an id, and every id is one the counter gave out. *)
Definition unique_ids (s : ExcalidrawAgent) : Prop :=
  NoDup (El.id <$> objects s) ∧ ids_issued s.

(** [s'] is [s] after [k] ids were generated and the dicts [new] were made. *)
Definition extends (new : list El.t) (k : N) (s s' : ExcalidrawAgent) : Prop :=
  objects s' = objects s ++ new ∧ elements s' = elements s
  ∧ element_counter s' = (element_counter s + k)%N.

(** What a call of [create_arrow] that returns [arrow] has done: the two
    endpoints were entries of [self.elements], each got the reference to the
    arrow appended to its [boundElements], and the arrow dict is new. *)
Definition arrow_made (start_element_id end_element_id : string)
    (s : ExcalidrawAgent) (arrow : addr) (s' : ExcalidrawAgent) : Prop :=
  ∃ a_s a_e e_s e_e e_a k,
    let r := Ref.mk (fmt "arrow" (element_counter s + 1)) "arrow" in
    arrow = length (objects s)
    ∧ Some a_s ∈ elements s ∧ objects s !! a_s = Some e_s
    ∧ El.id e_s = start_element_id
    ∧ Some a_e ∈ elements s ∧ objects s !! a_e = Some e_e
    ∧ El.id e_e = end_element_id
    ∧ start_element_id ≠ end_element_id
    ∧ objects s' = <[a_e := El.bind r e_e]> (<[a_s := El.bind r e_s]> (objects s ++ [e_a]))
    ∧ elements s' = elements s
    ∧ element_counter s' = (element_counter s + 1)%N
    ∧ El.id e_a = fmt "arrow" (element_counter s + 1)
    ∧ El.type e_a = "arrow"
    ∧ El.boundElements e_a = []
    ∧ El.keys e_a = ArrowKeys k
    ∧ Binding.elementId (Arrow.startBinding k) = start_element_id
    ∧ Binding.elementId (Arrow.endBinding k) = end_element_id.

(** The [ValueError] of [create_arrow]. *)
Definition not_found : exn := ValueError "Start or end element not found".

(** A dict with its [boundElements] emptied: the keys that are never written
    after the dict is made. *)
Definition frozen (e : El.t) : El.t :=
  El.mk (El.id e) (El.type e) (El.x e) (El.y e) (El.width e) (El.height e)
        (El.angle e) (El.strokeColor e) (El.backgroundColor e) (El.fillStyle e)
        (El.strokeWidth e) (El.strokeStyle e) (El.roughness e) (El.opacity e)
        (El.groupIds e) (El.frameId e) (El.index e) (El.roundness e) (El.seed e)
        (El.version e) (El.versionNonce e) (El.isDeleted e) [] (El.updated e)
        (El.link e) (El.locked e) (El.keys e).

(** The store without the [boundElements]: calls only ever append to it. *)
Definition view (s : ExcalidrawAgent) : list El.t := frozen <$> objects s.

(** The dicts made between [s] and [s'], in the order they were made (without
    their [boundElements]). *)
Definition created (s s' : ExcalidrawAgent) : list El.t :=
  drop (length (objects s)) (view s').

(** The ["type"] and the ["id"] of what a variable refers to. *)
Definition type_at (s : ExcalidrawAgent) (r : ref) : option string :=
  El.type <$> dict_at s r.
Definition id_at (s : ExcalidrawAgent) (a : addr) : option string :=
  El.id <$> objects s !! a.

(** The ids of the dicts of type [ty], in order. *)
Definition shape_ids (ty : string) (ds : list El.t) : list string :=
  El.id <$> filter (λ e, El.type e = ty) ds.

(** The pairs [(startBinding.elementId, endBinding.elementId)] of the arrows,
    in order. *)
Definition arrow_links (ds : list El.t) : list (string * string) :=
  omap (λ e, match El.keys e with
             | ArrowKeys k =>
                 Some (Binding.elementId (Arrow.startBinding k),
                       Binding.elementId (Arrow.endBinding k))
             | _ => None
             end)
       (filter (λ e, El.type e = "arrow") ds).

(** The type of the shapes of a sequential layout. *)
Definition shape_type (item_type : string) : string :=
  if decide (item_type = "rectangle") then "rectangle" else "ellipse".

(** The types of the dicts made for one label: the shape, then its text
    unless the label is empty. *)
Definition item_kinds (ty : string) (item : string) : list string :=
  ty :: if truthy (Some item) then ["text"] else [].

(** The id prefix of the shapes of a sequential layout. *)
Definition shape_prefix (item_type : string) : string :=
  if decide (item_type = "rectangle") then "rect" else "ellipse".

(** The first loop of the sequential layout after [i] labels, started from
    [s]: [new] are the dicts made so far and [ks] the counter values in the
    ids of the shapes. *)
Definition sequential_shapes_made (items : list string) (item_type : string)
    (s : ExcalidrawAgent) (i : nat) (acc : list ref * list addr * num)
    (t : ExcalidrawAgent) : Prop :=
  let '(els, shapes, _) := acc in
  ∃ new ks,
    view t = view s ++ new
    ∧ elements t = elements s
    ∧ (element_counter s ≤ element_counter t)%N
    ∧ els = Some <$> seq (length (objects s)) (length new)
    ∧ El.type <$> new = concat (item_kinds (shape_type item_type) <$> take i items)
    ∧ Forall (λ e, El.type e ≠ "arrow") new
    ∧ shape_ids (shape_type item_type) new = fmt (shape_prefix item_type) <$> ks
    ∧ length ks = i
    ∧ Forall (λ k, (element_counter s < k ≤ element_counter t)%N) ks
    ∧ NoDup ks
    ∧ Forall2 (λ a k, id_at t a = Some (fmt (shape_prefix item_type) k)) shapes ks.

(** The second loop of the sequential layout after [j] arrows, started from
    [s1] with the list [els1]; [s] is the agent the layout was called on and
    [ids] are the ids of the shapes. *)
Definition sequential_arrows_made (s s1 : ExcalidrawAgent) (els1 : list ref)
    (ids : list string) (j : nat) (els : list ref) (t : ExcalidrawAgent) : Prop :=
  ∃ arrows,
    view t = view s1 ++ arrows
    ∧ length arrows = j
    ∧ els = els1 ++ (Some <$> seq (length (objects s1)) j)
    ∧ Forall (λ e, El.type e = "arrow") arrows
    ∧ arrow_links arrows = take j (zip ids (drop 1 ids))
    ∧ wf t ∧ all_dicts t
    ∧ (ids_issued s → elements t = elements s).

(** A layout called on [s] has so far made dicts of the types [kinds], holds
    all of them in its list [els] in the order they were made, and has
    appended those that are not arrows to [self.elements]. *)
Definition layout_made (s : ExcalidrawAgent) (kinds : list string)
    (els : list ref) (t : ExcalidrawAgent) : Prop :=
  ∃ new,
    view t = view s ++ new
    ∧ els = Some <$> seq (length (objects s)) (length new)
    ∧ El.type <$> new = kinds
    ∧ elements t = elements s ++ filter (λ r, type_at t r ≠ Some "arrow") els
    ∧ wf t ∧ all_dicts t.

(** The parallel elements are dicts of [self.elements] whose ids are
    [rect-k] for [k] up to [c]. *)
Definition parallel_elements_ok (pes : list addr) (c : N) (t : ExcalidrawAgent) : Prop :=
  Forall (λ a, Some a ∈ elements t
               ∧ ∃ k, id_at t a = Some (fmt "rect" k) ∧ (k ≤ c)%N) pes.

(** A hub layout (routing, or the first loop of the parallel layout) called
    on [s], after [i] spokes: [new] are the dicts made so far, of which the
    shapes and texts were appended to [self.elements]; the hub is the first
    of them. *)
Definition spokes_made (s : ExcalidrawAgent) (hub_prefix : string)
    (hub_kinds : list string) (i : nat) (els : list ref) (t : ExcalidrawAgent) : Prop :=
  ∃ new,
    view t = view s ++ new
    ∧ els = Some <$> seq (length (objects s)) (length new)
    ∧ El.type <$> new = hub_kinds ++ concat (replicate i ["rectangle"; "text"; "arrow"])
    ∧ elements t = elements s ++ filter (λ r, type_at t r ≠ Some "arrow") els
    ∧ wf t ∧ all_dicts t
    ∧ (element_counter s + 1 ≤ element_counter t)%N
    ∧ Some (length (objects s)) ∈ elements t
    ∧ id_at t (length (objects s)) = Some (fmt hub_prefix (element_counter s + 1)).

(** The outcome of running [m] from [s] satisfies [Q]. *)
Definition post {A} (m : M A) (s : ExcalidrawAgent)
    (Q : result A → ExcalidrawAgent → Prop) : Prop :=
  Q (m s).1 (m s).2.

(** [m] returns from [s], with a value and a final agent that satisfy [Q]. *)
Definition returns {A} (m : M A) (s : ExcalidrawAgent)
    (Q : A → ExcalidrawAgent → Prop) : Prop :=
  ∃ a s', m s = (Ok a, s') ∧ Q a s'.

(** ** What the factory and the binder make *)

(** The agent after [k] ids were generated and the dicts [new] were made. *)
Definition grow (new : list El.t) (k : N) (s : ExcalidrawAgent) : ExcalidrawAgent :=
  mkAgent (objects s ++ new) (elements s) (element_counter s + k) (group_counter s)
          (current_group_id s) (default_spacing_x s) (default_spacing_y s)
          (default_text_size s) (default_element_width s)
          (default_element_height s).

(** The dict [_create_base_element] makes when the counter reads [c] and the
    group [g] is open. *)
Definition base_dict (g : option string) (c : N) (ty : ElementType)
    (x y w h : num) (i : string) : El.t :=
  El.mk i (ElementType_value ty) x y w h 0
    ColorScheme.DEFAULT_STROKE ColorScheme.TRANSPARENT "solid" 2 "solid" 1 100
    (if truthy g then option_list g else [])
    None ("a" +:+ pretty c) None (Z.of_N c) 1 (Z.of_N c * 1000) false []
    (1757460000000 + Z.of_N c) None false NoKeys.

(** The dict [create_text_element] makes. *)
Definition text_dict (g : option string) (c : N) (text : string) (x y : num)
    (container_id : option string) (font_size : num) : El.t :=
  El.update_text
    (Text.mk text font_size 5
       (if truthy container_id then "center" else "left")
       (if truthy container_id then "middle" else "top")
       container_id text true float_1_25)
    (base_dict g c TEXT x y (len text * (font_size * float_0_6))%Qc
       (font_size * float_1_2)%Qc (fmt "element" c)).

(** The shape dict of [create_rectangle] and [create_ellipse], before a text
    is bound to it. *)
Definition shape_dict (g : option string) (c : N) (prefix : string)
    (ty : ElementType) (round : Z) (x y w h : num) (bg : string) : El.t :=
  El.update_shape bg round (base_dict g c ty x y w h (fmt prefix c)).

(** The text dict [create_rectangle] and [create_ellipse] make for the label
    of a shape with the id [i] at [(x, y)]. *)
Definition label_dict (g : option string) (c : N) (i : string)
    (x y w h : num) (text : string) (ts : num) : El.t :=
  text_dict g c text
    (x + w / int 2 - len text * ts * float_0_3)%Qc
    (y + h / int 2 - ts / int 2)%Qc
    (Some i) ts.

(** The entry the scan of [create_arrow] ends with as the start: the last
    entry of [self.elements] whose dict has the start id. *)
Definition start_entry (start_element_id : string) (s : ExcalidrawAgent) : ref :=
  mjoin (last (filter (λ r, El.id <$> dict_at s r = Some start_element_id)
                 (elements s))).

(** The entry it ends with as the end: the last entry whose dict has the end
    id and not the start id. *)
Definition end_entry (start_element_id end_element_id : string)
    (s : ExcalidrawAgent) : ref :=
  mjoin (last (filter (λ r, El.id <$> dict_at s r = Some end_element_id
                            ∧ end_element_id ≠ start_element_id)
                 (elements s))).

(** Where an arrow leaves the dict [e]: [start_pos], or the middle of the
    right edge. *)
Definition start_anchor (start_pos : option Position) (e : El.t) : Position :=
  default (mkPosition (El.x e + El.width e) (El.y e + El.height e / int 2))%Qc
          start_pos.

(** Where an arrow reaches the dict [e]: [end_pos], or the middle of the left
    edge. *)
Definition end_anchor (end_pos : option Position) (e : El.t) : Position :=
  default (mkPosition (El.x e) (El.y e + El.height e / int 2))%Qc end_pos.

(** The dict [create_arrow] makes for an arrow from [p_s] to [p_e]. *)
Definition arrow_dict (g : option string) (c : N)
    (start_element_id end_element_id : string) (p_s p_e : Position)
    (style : string) (width : Z) : El.t :=
  El.update_arrow style width
    (Arrow.mk (Binding.mk start_element_id 0 1) (Binding.mk end_element_id 0 1)
       None None (Some "arrow")
       [[int 0; int 0];
        [(pos_x p_e - pos_x p_s)%Qc; (pos_y p_e - pos_y p_s)%Qc]])
    (base_dict g c ARROW (pos_x p_s) (pos_y p_s)
       (Qcabs (pos_x p_e - pos_x p_s)) (Qcabs (pos_y p_e - pos_y p_s))
       (fmt "arrow" c)).

(** [s'] arises from [s] by steps of the factory and the binder and by
    changes of [self.elements]: the effects of the methods other than
    [start_group], [end_group] and [clear].  [A] holds of the positions, the
    style and the width every arrow was asked for. *)
Inductive evolves (A : option Position → option Position → string → Z → Prop)
    (s : ExcalidrawAgent) : ExcalidrawAgent → Prop :=
| evolves_refl : evolves A s s
| evolves_elements l s' : evolves A s s' → evolves A s (set_elements l s')
| evolves_text text x y container_id font_size s' :
    evolves A s s' →
    evolves A s (grow [text_dict (current_group_id s') (element_counter s' + 1)
                       text x y container_id font_size] 1 s')
| evolves_shape prefix ty round x y w h bg s' :
    evolves A s s' → (prefix, ty, round) ∈ [("rect", RECTANGLE, 3%Z); ("ellipse", ELLIPSE, 2%Z)] →
    evolves A s (grow [shape_dict (current_group_id s') (element_counter s' + 1)
                       prefix ty round x y w h bg] 1 s')
| evolves_labelled prefix ty round x y w h bg ch text s' :
    evolves A s s' → (prefix, ty, round) ∈ [("rect", RECTANGLE, 3%Z); ("ellipse", ELLIPSE, 2%Z)] →
    evolves A s
      (grow [El.bind (Ref.mk (fmt "element" (element_counter s' + 2)) "text")
               (shape_dict (current_group_id s') (element_counter s' + 1)
                  prefix ty round x y w h bg);
             label_dict (current_group_id s') (element_counter s' + 2)
               (fmt prefix (element_counter s' + 1)) x y w h (String ch text)
               (default_text_size s')] 2 s')
| evolves_arrow sid eid sp ep st w a_s a_e e_s e_e s' :
    evolves A s s' → A sp ep st w →
    start_entry sid s' = Some a_s → end_entry sid eid s' = Some a_e →
    objects s' !! a_s = Some e_s → objects s' !! a_e = Some e_e →
    evolves A s
      (set_objects
         (<[a_e := El.bind (Ref.mk (fmt "arrow" (element_counter s' + 1)) "arrow") e_e]>
            (<[a_s := El.bind (Ref.mk (fmt "arrow" (element_counter s' + 1)) "arrow") e_s]>
               (objects s' ++
                [arrow_dict (current_group_id s') (element_counter s' + 1) sid eid
                   (start_anchor sp e_s) (end_anchor ep e_e) st w])))
         (set_element_counter (element_counter s' + 1) s')).

(** What the layouts ask for when they draw an arrow. *)
Definition layout_arrow (start_pos end_pos : option Position) (style : string)
    (width : Z) : Prop :=
  start_pos = None ∧ end_pos = None ∧ style = "solid" ∧ width = 2%Z.

(** What a caller may ask for. *)
Definition any_arrow (start_pos end_pos : option Position) (style : string)
    (width : Z) : Prop := True.

(** Whatever [m] does and however it ends, it takes an agent that satisfies
    [P] to one that does. *)
Definition keeps {A} (P : ExcalidrawAgent → Prop) (m : M A) : Prop :=
  ∀ s, P s → P (m s).2.

(** ** Sequences of calls, layouts included *)

(** A call of a method ([call]) or of one of the three layouts. *)
Inductive op :=
| Method (c : call)
| SequentialLayout (items : list string) (start_x start_y : num)
    (item_type : string) (colors : option (list string))
| RoutingLayout (router_name : string) (destinations : list string)
    (start_x start_y : num) (router_color : option string)
    (dest_colors : option (list string))
| ParallelLayout (input_name : string) (parallel_items : list string)
    (output_name : string) (start_x start_y : num)
    (colors : option (list string)).

(** The agent after the call, whatever the call returned or raised. *)
Definition after_op `{MathLib} (o : op) (s : ExcalidrawAgent) : ExcalidrawAgent :=
  match o with
  | Method c => after c s
  | SequentialLayout items x y item_type colors =>
      (create_sequential_layout items x y item_type colors s).2
  | RoutingLayout router_name destinations x y rc dc =>
      (create_routing_layout router_name destinations x y rc dc s).2
  | ParallelLayout input_name parallel_items output_name x y colors =>
      (create_parallel_layout input_name parallel_items output_name x y colors s).2
  end.

Definition after_ops `{MathLib} (os : list op) (s : ExcalidrawAgent) : ExcalidrawAgent :=
  foldl (λ s o, after_op o s) s os.

(** The ["groupIds"] of a dict made while the agent is in the state [s]. *)
Definition open_group (s : ExcalidrawAgent) : list string :=
  match current_group_id s with
  | Some (String _ _ as g) => [g]
  | _ => []
  end.

(** The dict has the keys of its type, an id made of the prefix of its type
    and of its seed, and the index, nonce and time stamp of that seed. *)
Definition well_made (e : El.t) : Prop :=
  let k := Z.to_N (El.seed e) in
  (0 < El.seed e)%Z
  ∧ El.index e = "a" +:+ pretty k
  ∧ El.versionNonce e = (El.seed e * 1000)%Z
  ∧ El.updated e = (1757460000000 + El.seed e)%Z
  ∧ El.version e = 1%Z
  ∧ El.isDeleted e = false
  ∧ match El.keys e with
    | TextKeys _ =>
        El.type e = "text" ∧ El.id e = fmt "element" k ∧ El.roundness e = None
    | ArrowKeys _ =>
        El.type e = "arrow" ∧ El.id e = fmt "arrow" k ∧ El.roundness e = Some 2%Z
    | NoKeys =>
        (El.type e = "rectangle" ∧ El.id e = fmt "rect" k
         ∧ El.roundness e = Some 3%Z)
        ∨ (El.type e = "ellipse" ∧ El.id e = fmt "ellipse" k
           ∧ El.roundness e = Some 2%Z)
    end.

(** The dict [e'] refers to the dict with the id [i]: a text by its
    ["containerId"], an arrow by one of its two bindings. *)
Definition refers_to (e' : El.t) (i : string) : Prop :=
  match El.keys e' with
  | TextKeys t => Text.containerId t = Some i
  | ArrowKeys k =>
      Binding.elementId (Arrow.startBinding k) = i
      ∨ Binding.elementId (Arrow.endBinding k) = i
  | NoKeys => False
  end.

(** The references between the dicts of a store agree: an entry of a
    ["boundElements"] names a dict of the store, of the type the entry gives,
    that refers back; and the two bindings of an arrow name two different
    ids, each the id of a dict that lists the arrow in its
    ["boundElements"]. *)
Definition bound_both_ways (h : list El.t) : Prop :=
  (∀ e r, e ∈ h → r ∈ El.boundElements e →
     ∃ e', e' ∈ h ∧ El.id e' = Ref.id r ∧ El.type e' = Ref.type r
           ∧ refers_to e' (El.id e))
  ∧ (∀ e k, e ∈ h → El.keys e = ArrowKeys k →
       Binding.elementId (Arrow.startBinding k)
       ≠ Binding.elementId (Arrow.endBinding k)
       ∧ ∀ i, i ∈ [Binding.elementId (Arrow.startBinding k);
                   Binding.elementId (Arrow.endBinding k)] →
              ∃ e', e' ∈ h ∧ El.id e' = i
                    ∧ Ref.mk (El.id e) "arrow" ∈ El.boundElements e').

(** The arrow dict [e] runs between two dicts of the store [h] that carry the
    ids of its two bindings: it leaves the first at the middle of its right
    edge and ends at the middle of the left edge of the second; it is solid
    and 2 wide. *)
Definition anchored (h : list El.t) (e : El.t) : Prop :=
  ∃ k e_s e_e,
    El.keys e = ArrowKeys k
    ∧ e_s ∈ h ∧ El.id e_s = Binding.elementId (Arrow.startBinding k)
    ∧ e_e ∈ h ∧ El.id e_e = Binding.elementId (Arrow.endBinding k)
    ∧ El.x e = (El.x e_s + El.width e_s)%Qc
    ∧ El.y e = (El.y e_s + El.height e_s / int 2)%Qc
    ∧ Arrow.points k
      = [[int 0; int 0];
         [(El.x e_e - El.x e)%Qc;
          (El.y e_e + El.height e_e / int 2 - El.y e)%Qc]]
    ∧ El.width e = Qcabs (El.x e_e - El.x e)
    ∧ El.height e = Qcabs (El.y e_e + El.height e_e / int 2 - El.y e)
    ∧ El.strokeStyle e = "solid" ∧ El.strokeWidth e = 2%Z.

(** A second rectangle with the id [rect-1], made after [clear] reset the
    counter, and a rectangle [rect-3]; all three rectangles are in
    [self.elements], the old one first. *)
Definition reused_ids : ExcalidrawAgent :=
  ((let* (old, _) := create_rectangle (int 0) (int 0) None None (Some "old") None in
    let* _ := clear in
    let* (new, _) := create_rectangle (int 0) (int 200) None None (Some "new") None in
    let* (other, _) := create_rectangle (int 300) (int 0) None None (Some "other") None in
    let* _ := add_element (Some old) in
    let* _ := add_element (Some new) in
    add_element (Some other)) init).2.

(** ** The example diagram *)

(** [for elem in elements: agent.add_element(elem)] *)
Definition add_elements (elements : list ref) : M unit :=
  for_each elements (λ _ elem, add_element elem) tt.

(** [create_agent_framework_diagram], run on the new agent it makes and
    returns. *)
Definition create_agent_framework_diagram `{MathLib} : M unit :=
  let* title_element :=
    create_text_element "Agent Framework Patterns" (int 50) (int 20) None
      (Some (int 24)) in
  let* _ := add_element (Some title_element) in
  let* _ := start_group (Some "sequential") in
  let* sequential_title :=
    create_text_element "1. Sequential" (int 50) (int 60) None (Some (int 18)) in
  let* _ := add_element (Some sequential_title) in
  let* sequential_elements :=
    create_sequential_layout ["Input"; "LLM1"; "LLM2"; "LLM3"; "Output"]
      (int 50) (int 80) "rectangle"
      (Some [ColorScheme.TRANSPARENT; ColorScheme.LLM; ColorScheme.LLM;
             ColorScheme.LLM; ColorScheme.TRANSPARENT]) in
  let* _ := add_elements sequential_elements in
  let* _ := end_group in
  let* _ := start_group (Some "routing") in
  let* routing_title :=
    create_text_element "2. Routing" (int 50) (int 180) None (Some (int 18)) in
  let* _ := add_element (Some routing_title) in
  let* routing_elements :=
    create_routing_layout "Router" ["LLM1"; "LLM2"; "LLM3"] (int 150) (int 220)
      None None in
  let* _ := add_elements routing_elements in
  let* _ := end_group in
  let* _ := start_group (Some "parallel") in
  let* parallel_title :=
    create_text_element "3. Parallel" (int 50) (int 400) None (Some (int 18)) in
  let* _ := add_element (Some parallel_title) in
  let* parallel_elements :=
    create_parallel_layout "Input" ["LLM1"; "LLM2"; "LLM3"] "Output"
      (int 50) (int 440) None in
  let* _ := add_elements parallel_elements in
  end_group.

(** ** What the layouts place *)

(** The dicts made for one label: the shape and, unless the label is empty,
    its text. *)
Definition group_dicts (g : El.t * option El.t) : list El.t :=
  g.1 :: option_list g.2.

(** The text made for the label [item] of the shape [sh]: none for the empty
    label, and else a text with the label whose container is the shape. *)
Definition label_made (item : string) (sh : El.t) (tx : option El.t) : Prop :=
  match tx with
  | None => item = ""
  | Some t =>
      item ≠ "" ∧ El.type t = "text"
      ∧ ∃ k, El.keys t = TextKeys k ∧ Text.text k = item
             ∧ Text.containerId k = Some (El.id sh)
  end.

(** A shape of the type [ty] and of the default size at [(x, y)], with the
    background [colors[i % len(colors)]]. *)
Definition placed (s : ExcalidrawAgent) (ty : string) (x y : num)
    (colors : list string) (i : nat) (sh : El.t) : Prop :=
  El.type sh = ty ∧ El.x sh = x ∧ El.y sh = y
  ∧ El.width sh = default_element_width s
  ∧ El.height sh = default_element_height s
  ∧ colors !! (i mod length colors) = Some (El.backgroundColor sh).

(** An arrow from the dict [e_s] to the dict [e_e]: bound to their ids, from
    the middle of the right edge of the first to the middle of the left edge
    of the second. *)
Definition joins (e_s e_e a : El.t) : Prop :=
  ∃ k,
    El.type a = "arrow" ∧ El.keys a = ArrowKeys k
    ∧ Binding.elementId (Arrow.startBinding k) = El.id e_s
    ∧ Binding.elementId (Arrow.endBinding k) = El.id e_e
    ∧ El.x a = (El.x e_s + El.width e_s)%Qc
    ∧ El.y a = (El.y e_s + El.height e_s / int 2)%Qc
    ∧ Arrow.points k
      = [[int 0; int 0];
         [(El.x e_e - El.x a)%Qc; (El.y e_e + El.height e_e / int 2 - El.y a)%Qc]]
    ∧ El.width a = Qcabs (El.x e_e - El.x a)
    ∧ El.height a = Qcabs (El.y e_e + El.height e_e / int 2 - El.y a).

(** The dicts one labelled or unlabelled shape adds to the store. *)
Definition shape_group (prefix : string) (ty : ElementType) (round : Z)
    (x y : num) (text : string) (bg : string) (t : ExcalidrawAgent) : list El.t :=
  let sh := shape_dict (current_group_id t) (element_counter t + 1) prefix ty round
              x y (default_element_width t) (default_element_height t) bg in
  match text with
  | "" => [sh]
  | _ => [El.bind (Ref.mk (fmt "element" (element_counter t + 2)) "text") sh;
          label_dict (current_group_id t) (element_counter t + 2)
            (fmt prefix (element_counter t + 1)) x y
            (default_element_width t) (default_element_height t) text
            (default_text_size t)]
  end.

(** ** The flowchart of a description *)

(** [str.isascii], [str.lower] and [word in description], on descriptions
    whose characters are ASCII. *)
Fixpoint isascii (s : string) : bool :=
  match s with
  | EmptyString => true
  | String c s' => Nat.ltb (Ascii.nat_of_ascii c) 128 && isascii s'
  end.

Definition lower_char (c : Ascii.ascii) : Ascii.ascii :=
  if Nat.leb 65 (Ascii.nat_of_ascii c) && Nat.leb (Ascii.nat_of_ascii c) 90
  then Ascii.ascii_of_nat (Ascii.nat_of_ascii c + 32)
  else c.

Fixpoint lower (s : string) : string :=
  match s with
  | EmptyString => EmptyString
  | String c s' => String (lower_char c) (lower s')
  end.

Fixpoint str_contains (word s : string) : bool :=
  String.prefix word s
  || match s with
     | EmptyString => false
     | String _ s' => str_contains word s'
     end.

(** [create_flowchart_from_description] *)
Definition create_flowchart_from_description `{MathLib} (description : string)
    : M (list ref) :=
  let description := lower description in
  if str_contains "sequential" description || str_contains "chain" description then
    let items := ["Step 1"; "Step 2"; "Step 3"; "Step 4"] in
    create_sequential_layout items (int 50) (int 50) "rectangle" None
  else if str_contains "routing" description || str_contains "router" description then
    let router := "Router" in
    let destinations := ["LLM1"; "LLM2"; "LLM3"] in
    create_routing_layout router destinations (int 50) (int 150) None None
  else if str_contains "parallel" description then
    let input_name := "Input" in
    let parallel_items := ["Process A"; "Process B"; "Process C"] in
    let output_name := "Output" in
    create_parallel_layout input_name parallel_items output_name (int 50) (int 300)
      None
  else
    let items := ["Input"; "Process"; "Output"] in
    create_sequential_layout items (int 50) (int 50) "rectangle" None.

(** The lower-cased description has the word in it. *)
Definition mentions (word description : string) : Prop :=
  ∃ before after, lower description = before +:+ word +:+ after.

(** The settings of the agent and its open group are those of [s]. *)
Definition same_settings (s t : ExcalidrawAgent) : Prop :=
  default_spacing_x t = default_spacing_x s
  ∧ default_spacing_y t = default_spacing_y s
  ∧ default_text_size t = default_text_size s
  ∧ default_element_width t = default_element_width s
  ∧ default_element_height t = default_element_height s
  ∧ current_group_id t = current_group_id s.

(** The dicts made for one destination of a hub: the shape, its text and the
    arrow. *)
Definition spoke_dicts (g : El.t * El.t * El.t) : list El.t :=
  [g.1.1; g.1.2; g.2].

(** * Properties *)

(** ** The method monad *)

Section monad.
Context {A B : Type}.
Implicit Types (m : M A) (k : A → M B) (s : ExcalidrawAgent).

Lemma bind_ok m k s a s' : m s = (Ok a, s') → bind m k s = k a s'.
Proof. unfold bind. by intros ->. Qed.

Lemma bind_raise m k s e s' : m s = (Raise e, s') → bind m k s = (Raise e, s').
Proof. unfold bind. by intros ->. Qed.

Lemma bind_stuck m k s s' : m s = (Stuck, s') → bind m k s = (Stuck, s').
Proof. unfold bind. by intros ->. Qed.

Lemma returns_ret (a : A) s (Q : A → ExcalidrawAgent → Prop) :
  Q a s → returns (ret a) s Q.
Proof. intros. by exists a, s. Qed.

Lemma returns_bind m k s (Q : B → ExcalidrawAgent → Prop) :
  returns m s (λ a s', returns (k a) s' Q) → returns (bind m k) s Q.
Proof.
  intros (a & s' & Hm & b & s'' & Hk & HQ).
  exists b, s''. split; [|done]. by rewrite (bind_ok _ _ _ _ _ Hm).
Qed.

Lemma returns_mono m s (Q Q' : A → ExcalidrawAgent → Prop) :
  returns m s Q → (∀ a s', Q a s' → Q' a s') → returns m s Q'.
Proof. intros (a & s' & Hm & HQ) HQQ'. exists a, s'. eauto. Qed.

Lemma returns_gets (f : ExcalidrawAgent → A) s (Q : A → ExcalidrawAgent → Prop) :
  Q (f s) s → returns (gets f) s Q.
Proof. intros. by exists (f s), s. Qed.
End monad.

Lemma returns_modify f s (Q : unit → ExcalidrawAgent → Prop) :
  Q tt (f s) → returns (modify f) s Q.
Proof. intros. by exists tt, (f s). Qed.

Lemma for_each_cons {A B} x xs (body : B → A → M B) acc s :
  for_each (x :: xs) body acc s = bind (body acc x) (for_each xs body) s.
Proof. done. Qed.

(** ** Predicates on agents *)

Lemma wf_valid s a : wf s → Some a ∈ elements s → a < length (objects s).
Proof.
  unfold wf. rewrite Forall_forall. intros Hwf Hin.
  destruct (Hwf _ Hin) as [[=]|[e He]]. by eapply lookup_lt_Some.
Qed.

Lemma wf_intro s : (∀ a, Some a ∈ elements s → a < length (objects s)) → wf s.
Proof.
  intros H. apply Forall_forall. intros [a|] Hin; [right|by left].
  by apply lookup_lt_is_Some_2, H.
Qed.

Lemma present_entry i s :
  present i s ↔ ∃ a, entry_with s (elements s) (λ e, El.id e = i) a.
Proof.
  unfold present, entry_with. rewrite Exists_exists. split.
  - intros ([a|] & Hin & Hid); [|done]. exists a. split; [done|].
    simpl in Hid. destruct (objects s !! a) as [e|]; [|done].
    exists e. split; [done|]. by injection Hid.
  - intros (a & Hin & e & He & Hid). exists (Some a). split; [done|].
    simpl. by rewrite He, <-Hid.
Qed.

(** ** The scan at the head of [create_arrow] *)

Section scan.
Context (start_element_id end_element_id : string) (s : ExcalidrawAgent).

Let body : ref * ref → ref → M (ref * ref) :=
  λ '(start_element, end_element) element,
    match element with
    | None => raise TypeError
    | Some a =>
        let* e := load a in
        if decide (El.id e = start_element_id) then ret (Some a, end_element)
        else if decide (El.id e = end_element_id) then ret (start_element, Some a)
        else ret (start_element, end_element)
    end.

(** [a] is an entry of [xs] whose dict can stand at the start, at the end. *)
Local Abbreviation starts xs :=
  (entry_with s xs (λ e, El.id e = start_element_id)).
Local Abbreviation ends xs :=
  (entry_with s xs (λ e, El.id e = end_element_id ∧ El.id e ≠ start_element_id)).

Lemma scan_outcome xs st0 en0 :
  ∃ r, for_each xs body (st0, en0) s = (r, s) ∧
    match r with
    | Ok (st, en) =>
        (None ∉ xs) ∧ (∀ a, Some a ∈ xs → is_Some (objects s !! a)) ∧
        ((st = st0 ∧ ¬ ∃ a, starts xs a) ∨ ∃ a, st = Some a ∧ starts xs a) ∧
        ((en = en0 ∧ ¬ ∃ a, ends xs a) ∨ ∃ a, en = Some a ∧ ends xs a)
    | Raise e => e = TypeError ∧ None ∈ xs
    | Stuck => ∃ a, Some a ∈ xs ∧ objects s !! a = None
    end.
Proof.
  revert st0 en0. induction xs as [|x xs IH]; intros st0 en0.
  { exists (Ok (st0, en0)). split; [done|].
    unfold entry_with. repeat split; try (left; split; [done|]);
      try (intros (? & ?%elem_of_nil & _); done);
      try (intros ?%elem_of_nil; done).
    intros ? ?%elem_of_nil; done. }
  rewrite for_each_cons. destruct x as [a|]; simpl.
  2:{ exists (Raise TypeError). split; [reflexivity|]. split; [done|]. left. }
  unfold bind, load, ret. simpl. destruct (objects s !! a) as [e|] eqn:Ha.
  2:{ exists Stuck. split; [done|]. exists a. split; [left|done]. }
  assert (∀ st1 en1,
    ((st1 = st0 ∧ El.id e ≠ start_element_id)
     ∨ (st1 = Some a ∧ El.id e = start_element_id)) →
    ((en1 = en0 ∧ ¬ (El.id e = end_element_id ∧ El.id e ≠ start_element_id))
     ∨ (en1 = Some a ∧ El.id e = end_element_id ∧ El.id e ≠ start_element_id)) →
    ∃ r, for_each xs body (st1, en1) s = (r, s) ∧
      match r with
      | Ok (st, en) =>
          (None ∉ Some a :: xs) ∧
          (∀ a', Some a' ∈ Some a :: xs → is_Some (objects s !! a')) ∧
          ((st = st0 ∧ ¬ ∃ a', starts (Some a :: xs) a')
           ∨ ∃ a', st = Some a' ∧ starts (Some a :: xs) a') ∧
          ((en = en0 ∧ ¬ ∃ a', ends (Some a :: xs) a')
           ∨ ∃ a', en = Some a' ∧ ends (Some a :: xs) a')
      | Raise e => e = TypeError ∧ None ∈ Some a :: xs
      | Stuck => ∃ a', Some a' ∈ Some a :: xs ∧ objects s !! a' = None
      end) as Hstep.
  { intros st1 en1 Hst Hen. destruct (IH st1 en1) as (r & Hr & Hpost).
    exists r. split; [done|]. destruct r as [[st en]|ex|].
    - destruct Hpost as (Hnone & Hval & Hs & He). split_and!.
      + intros [?|?]%elem_of_cons; [done|]. by apply Hnone.
      + intros a' [[= ->]|?]%elem_of_cons; [by rewrite Ha|]. by apply Hval.
      + destruct Hs as [[-> Hno]|(a' & -> & Hin & Hx)].
        * destruct Hst as [[-> Hne]|[-> Heq]].
          -- left. split; [done|]. intros (a' & [[= ->]|Hin]%elem_of_cons & e' & He' & Hid).
             ++ rewrite Ha in He'. by simplify_eq.
             ++ apply Hno. exists a'. split; [done|]. eauto.
          -- right. exists a. split; [done|]. split; [left|]. eauto.
        * right. exists a'. split; [done|]. split; [by right|done].
      + destruct He as [[-> Hno]|(a' & -> & Hin & Hx)].
        * destruct Hen as [[-> Hne]|[-> Heq]].
          -- left. split; [done|].
             intros (a' & [[= ->]|Hin]%elem_of_cons & e' & He' & Hid).
             ++ rewrite Ha in He'. by simplify_eq.
             ++ apply Hno. exists a'. split; [done|]. eauto.
          -- right. exists a. split; [done|]. split; [left|]. eauto.
        * right. exists a'. split; [done|]. split; [by right|done].
    - destruct Hpost as [-> ?]. split; [done|]. by right.
    - destruct Hpost as (a' & ? & ?). exists a'. split; [by right|done]. }
  destruct (decide (El.id e = start_element_id)) as [Hs|Hs]; simpl.
  - apply Hstep; [by right|]. left. split; [done|]. by intros [_ ?].
  - destruct (decide (El.id e = end_element_id)) as [He|He]; simpl.
    + apply Hstep; [by left|]. by right.
    + apply Hstep; [by left|]. left. split; [done|]. by intros [? _].
Qed.

Lemma find_endpoints_outcome :
  ∃ r, find_endpoints start_element_id end_element_id s = (r, s) ∧
    match r with
    | Ok (st, en) =>
        (None ∉ elements s) ∧ (∀ a, Some a ∈ elements s → is_Some (objects s !! a)) ∧
        ((st = None ∧ ¬ ∃ a, starts (elements s) a)
         ∨ ∃ a, st = Some a ∧ starts (elements s) a) ∧
        ((en = None ∧ ¬ ∃ a, ends (elements s) a)
         ∨ ∃ a, en = Some a ∧ ends (elements s) a)
    | Raise e => e = TypeError ∧ None ∈ elements s
    | Stuck => ∃ a, Some a ∈ elements s ∧ objects s !! a = None
    end.
Proof. apply scan_outcome. Qed.
End scan.

(** ** Store access *)

Lemma load_ok a e s : objects s !! a = Some e → load a s = (Ok e, s).
Proof. unfold load. by intros ->. Qed.

Lemma mutate_ok a e f s :
  objects s !! a = Some e →
  mutate a f s = (Ok tt, set_objects (<[a := f e]> (objects s)) s).
Proof. unfold mutate. by intros ->. Qed.

Lemma insert_last {A} (l : list A) x y : <[length l := y]> (l ++ [x]) = l ++ [y].
Proof. rewrite insert_app_r_alt, Nat.sub_diag; done. Qed.

Lemma lookup_last {A} (l : list A) x : (l ++ [x]) !! length l = Some x.
Proof. by apply list_lookup_middle. Qed.

Lemma returns_load a e s (Q : El.t → ExcalidrawAgent → Prop) :
  objects s !! a = Some e → Q e s → returns (load a) s Q.
Proof. intros Ha HQ. exists e, s. by rewrite (load_ok _ _ _ Ha). Qed.

Lemma returns_mutate a e f s (Q : unit → ExcalidrawAgent → Prop) :
  objects s !! a = Some e →
  Q tt (set_objects (<[a := f e]> (objects s)) s) →
  returns (mutate a f) s Q.
Proof. intros Ha HQ. eexists _, _. by rewrite (mutate_ok _ _ _ _ Ha). Qed.

Lemma lookup_middle {A} (l l' : list A) x : (l ++ x :: l') !! length l = Some x.
Proof. by apply list_lookup_middle. Qed.

Lemma insert_middle {A} (l l' : list A) x y :
  <[length l := y]> (l ++ x :: l') = l ++ y :: l'.
Proof. rewrite insert_app_r_alt, Nat.sub_diag; done. Qed.

(** One step of a method that returns. *)
Ltac mstep :=
  cbv zeta;
  lazymatch goal with
  | |- returns (bind _ _) _ _ => apply returns_bind
  | |- returns (ret _) _ _ => apply returns_ret
  | |- returns (gets _) _ _ => apply returns_gets
  | |- returns (modify _) _ _ => apply returns_modify
  | |- returns (load _) _ _ => eapply returns_load; [simpl; eauto|]
  | |- returns (mutate _ _) _ _ => eapply returns_mutate; [simpl; eauto|]
  end.

(** ** Id allocator and shape factory *)

Lemma returns_generate_id prefix s (Q : string → ExcalidrawAgent → Prop) :
  Q (fmt prefix (element_counter s + 1))
    (set_element_counter (element_counter s + 1) s) →
  returns (_generate_id prefix) s Q.
Proof. intros. by eexists _, _. Qed.

Lemma returns_create_base_element ty x y w h i s (Q : addr → ExcalidrawAgent → Prop) :
  (∀ e, El.id e = i → El.type e = ElementType_value ty →
        El.boundElements e = [] →
        Q (length (objects s)) (set_objects (objects s ++ [e]) s)) →
  returns (_create_base_element ty x y w h (Some i)) s Q.
Proof. intros HQ. eexists _, _. split; [reflexivity|]. by apply HQ. Qed.

Lemma returns_create_text_element text x y cid fs s (Q : addr → ExcalidrawAgent → Prop) :
  (∀ e s', extends [e] 1 s s' →
           El.id e = fmt "element" (element_counter s + 1) →
           El.type e = "text" →
           Q (length (objects s)) s') →
  returns (create_text_element text x y cid fs) s Q.
Proof.
  intros HQ. unfold create_text_element, _create_base_element.
  mstep. eapply returns_mono with (Q := λ _ s', s' = s).
  { destruct fs; by mstep. }
  intros font_size ? ->. mstep. mstep. apply returns_generate_id.
  do 4 mstep. eexists _, _. split; [reflexivity|]. mstep.
  eapply returns_mutate; [apply lookup_last|]. mstep.
  eapply HQ; [unfold extends; simpl; by rewrite insert_last|reflexivity..].
Qed.

Lemma returns_create_shape prefix ty round x y w h text bg s
    (Q : addr * ref → ExcalidrawAgent → Prop) :
  (∀ sh s', truthy text = false → extends [sh] 1 s s' →
            El.id sh = fmt prefix (element_counter s + 1) →
            El.type sh = ElementType_value ty →
            Q (length (objects s), None) s') →
  (∀ sh t s', truthy text = true → extends [sh; t] 2 s s' →
              El.id sh = fmt prefix (element_counter s + 1) →
              El.type sh = ElementType_value ty →
              El.id t = fmt "element" (element_counter s + 2) →
              El.type t = "text" →
              Q (length (objects s), Some (S (length (objects s)))) s') →
  returns (create_shape prefix ty round x y w h text bg) s Q.
Proof.
  intros HQ0 HQ1. unfold create_shape.
  mstep. eapply returns_mono with (Q := λ _ s', s' = s).
  { destruct w; by mstep. }
  intros width ? ->.
  mstep. eapply returns_mono with (Q := λ _ s', s' = s).
  { destruct h; by mstep. }
  intros height ? ->.
  mstep. apply returns_generate_id.
  mstep. apply returns_create_base_element. intros e He Hty _.
  mstep. eapply returns_mutate; [apply lookup_last|]. simpl. rewrite insert_last.
  mstep. destruct text as [[|ch text]|].
  - mstep. mstep. eapply HQ0; [done|by unfold extends|simpl; done..].
  - do 2 mstep. mstep. apply returns_create_text_element.
    intros t s' (Hobj & Hels & Hcnt) Hid Htt. simpl in *.
    assert (element_counter s + 1 + 1 = element_counter s + 2)%N as Hc by lia.
    rewrite Hc in *. rewrite <-app_assoc in Hobj. simpl in Hobj.
    mstep. eapply returns_load.
    { rewrite Hobj, length_app, Nat.add_1_r, lookup_app_r by lia.
      by replace (S (length (objects s)) - length (objects s)) with 1 by lia. }
    mstep. eapply returns_mutate; [rewrite Hobj; apply lookup_middle|].
    rewrite Hobj, insert_middle. mstep. mstep.
    rewrite length_app, Nat.add_1_r.
    eapply HQ1; [done|by unfold extends|simpl; done..].
  - mstep. mstep. eapply HQ0; [done|by unfold extends|simpl; done..].
Qed.

(** ** Arrow binder *)

Section create_arrow.
Context (start_element_id end_element_id : string).
Context (start_pos end_pos : option Position) (style : string) (width : Z).
Context (s : ExcalidrawAgent).

Local Abbreviation starts :=
  (entry_with s (elements s) (λ e, El.id e = start_element_id)).
Local Abbreviation ends :=
  (entry_with s (elements s)
     (λ e, El.id e = end_element_id ∧ El.id e ≠ start_element_id)).

Lemma create_arrow_outcome :
  match create_arrow start_element_id end_element_id start_pos end_pos style width s with
  | (Ok a, s') => arrow_made start_element_id end_element_id s a s'
  | (Raise e, s') =>
      s' = s ∧
      ((e = TypeError ∧ None ∈ elements s)
       ∨ (e = not_found ∧ (None ∉ elements s)
          ∧ ((¬ ∃ a, starts a) ∨ (¬ ∃ a, ends a))))
  | (Stuck, s') => s' = s ∧ ¬ wf s
  end.
Proof.
  unfold create_arrow.
  destruct (find_endpoints_outcome start_element_id end_element_id s)
    as (r & Hfind & Hr).
  destruct r as [[st en]|e|].
  2:{ rewrite (bind_raise _ _ _ _ _ Hfind). destruct Hr as [-> ?].
      split; [done|]. by left. }
  2:{ rewrite (bind_stuck _ _ _ _ Hfind). destruct Hr as (a & Hin & Hnone).
      split; [done|]. intros Hwf. eapply wf_valid in Hin; [|done].
      apply lookup_ge_None in Hnone. lia. }
  rewrite (bind_ok _ _ _ _ _ Hfind). destruct Hr as (Hnone & Hval & Hs & He).
  destruct Hs as [[-> Hs]|(a_s & -> & Hin_s & e_s & Hls & Hids)].
  { simpl. split; [done|]. right. split_and!; [done..|]. by left. }
  destruct He as [[-> He]|(a_e & -> & Hin_e & e_e & Hle & Hide & Hne)].
  { simpl. split; [done|]. right. split_and!; [done..|]. by right. }
  assert (a_s ≠ a_e) as Hneq by (intros ->; congruence).
  assert (a_s < length (objects s)) as Hlt_s by eauto using lookup_lt_Some.
  assert (a_e < length (objects s)) as Hlt_e by eauto using lookup_lt_Some.
  match goal with
  | |- match ?m s with _ => _ end =>
      assert (returns m s (arrow_made start_element_id end_element_id s)) as Hret
  end.
  { mstep. eapply returns_mono with (Q := λ _ s', s' = s).
    { destruct start_pos; [by mstep|]. mstep. mstep. by mstep. }
    intros p_s ? ->.
    mstep. eapply returns_mono with (Q := λ _ s', s' = s).
    { destruct end_pos; [by mstep|]. mstep. mstep. by mstep. }
    intros p_e ? ->.
    mstep. apply returns_generate_id.
    mstep. apply returns_create_base_element. intros e_a Hida Htya Hba.
    mstep. eapply returns_mutate; [apply lookup_last|]. simpl.
    rewrite insert_last.
    mstep. eapply returns_mutate.
    { simpl. rewrite lookup_app_l by done. done. }
    simpl. mstep. eapply returns_mutate.
    { simpl. rewrite list_lookup_insert_ne by done.
      rewrite lookup_app_l by done. done. }
    simpl. mstep.
    eexists a_s, a_e, e_s, e_e, _, _. simpl.
    split_and!; try done. congruence. }
  destruct Hret as (a & s' & -> & Hmade). done.
Qed.
End create_arrow.

Lemma create_arrow_returns_iff sid eid sp ep st w s :
  wf s →
  (∃ a s', create_arrow sid eid sp ep st w s = (Ok a, s'))
  ↔ all_dicts s ∧ present sid s ∧ present eid s ∧ sid ≠ eid.
Proof.
  intros Hwf. pose proof (create_arrow_outcome sid eid sp ep st w s) as Hout.
  rewrite !present_entry. split.
  - intros (a & s' & Heq). rewrite Heq in Hout.
    destruct Hout as (a_s & a_e & e_s & e_e & e_a & k & Hout). simpl in Hout.
    destruct Hout as (_ & Hin_s & Hls & Hids & Hin_e & Hle & Hide & Hne & Hobj
                      & Hels & _).
    split_and!; [|by exists a_s; split; eauto|by exists a_e; split; eauto|done].
    intros Hnone.
    destruct (find_endpoints_outcome sid eid s) as (r & Hfind & Hr).
    unfold create_arrow in Heq. destruct r as [[? ?]|?|].
    + by destruct Hr as [? _].
    + by rewrite (bind_raise _ _ _ _ _ Hfind) in Heq.
    + by rewrite (bind_stuck _ _ _ _ Hfind) in Heq.
  - intros (Hall & (a_s & Hin_s & e_s & Hls & Hids)
            & (a_e & Hin_e & e_e & Hle & Hide) & Hne).
    destruct (create_arrow _ _ _ _ _ _ _) as [[a|e|] s']; [by eauto|..].
    + destruct Hout as [_ [[_ ?]|(_ & _ & [Hno|Hno])]]; [done|..];
        destruct Hno; [exists a_s|exists a_e]; split; eauto.
      exists e_e. split_and!; [done..|congruence].
    + by destruct Hout as [_ ?].
Qed.

(** ** Claims on the arrow binder *)

(** C4.  Whenever [create_arrow] returns an arrow, the two ids it was given
    belong to dicts of [self.elements]; afterwards each of these two dicts has
    its old [boundElements] followed by [{"id": arrow id, "type": "arrow"}],
    and the arrow's [startBinding.elementId] and [endBinding.elementId] are
    the ids given.  The call does return whenever [self.elements] holds no
    [None] and two dicts with the two (different) ids. *)
Theorem create_arrow_binds_both_endpoints sid eid sp ep st w s :
  (∀ arrow s', create_arrow sid eid sp ep st w s = (Ok arrow, s') →
     ∃ a_s a_e e_s e_e e_s' e_e' e_a k,
       Some a_s ∈ elements s ∧ objects s !! a_s = Some e_s ∧ El.id e_s = sid
       ∧ Some a_e ∈ elements s ∧ objects s !! a_e = Some e_e ∧ El.id e_e = eid
       ∧ objects s' !! arrow = Some e_a
       ∧ El.type e_a = "arrow"
       ∧ objects s' !! a_s = Some e_s'
       ∧ El.boundElements e_s' = El.boundElements e_s ++ [Ref.mk (El.id e_a) "arrow"]
       ∧ objects s' !! a_e = Some e_e'
       ∧ El.boundElements e_e' = El.boundElements e_e ++ [Ref.mk (El.id e_a) "arrow"]
       ∧ El.keys e_a = ArrowKeys k
       ∧ Binding.elementId (Arrow.startBinding k) = sid
       ∧ Binding.elementId (Arrow.endBinding k) = eid)
  ∧ (wf s → all_dicts s → present sid s → present eid s → sid ≠ eid →
     ∃ arrow s', create_arrow sid eid sp ep st w s = (Ok arrow, s')).
Proof.
  split.
  - intros arrow s' Heq.
    pose proof (create_arrow_outcome sid eid sp ep st w s) as Hout.
    rewrite Heq in Hout.
    destruct Hout as (a_s & a_e & e_s & e_e & e_a & k & Hout). simpl in Hout.
    destruct Hout as (-> & Hin_s & Hls & Hids & Hin_e & Hle & Hide & Hne & Hobj
                      & Hels & Hcnt & Hida & Htya & Hba & Hk & Hsb & Heb).
    assert (a_s ≠ a_e) as Hneq by (intros ->; congruence).
    assert (a_s < length (objects s)) as Hlt_s by eauto using lookup_lt_Some.
    assert (a_e < length (objects s)) as Hlt_e by eauto using lookup_lt_Some.
    eexists a_s, a_e, e_s, e_e, _, _, e_a, k.
    split_and!; try done.
    + rewrite Hobj, !list_lookup_insert_ne by lia. apply lookup_last.
    + rewrite Hobj, list_lookup_insert_ne by done.
      apply list_lookup_insert_eq. rewrite length_app. lia.
    + simpl. by rewrite Hida.
    + rewrite Hobj. apply list_lookup_insert_eq.
      rewrite length_insert, length_app. lia.
    + simpl. by rewrite Hida.
  - intros Hwf ? ? ? ?. by apply create_arrow_returns_iff.
Qed.

Lemma create_arrow_binds_both_endpoints_witness :
  ∃ arrow s',
    create_arrow "rect-1" "rect-3" None None "solid" 2 two_rects = (Ok arrow, s')
    ∧ ∃ a_s a_e e_s e_e e_s' e_e' e_a k,
        Some a_s ∈ elements two_rects ∧ objects two_rects !! a_s = Some e_s
        ∧ El.id e_s = "rect-1"
        ∧ Some a_e ∈ elements two_rects ∧ objects two_rects !! a_e = Some e_e
        ∧ El.id e_e = "rect-3"
        ∧ objects s' !! arrow = Some e_a
        ∧ El.type e_a = "arrow"
        ∧ objects s' !! a_s = Some e_s'
        ∧ El.boundElements e_s' = El.boundElements e_s ++ [Ref.mk (El.id e_a) "arrow"]
        ∧ objects s' !! a_e = Some e_e'
        ∧ El.boundElements e_e' = El.boundElements e_e ++ [Ref.mk (El.id e_a) "arrow"]
        ∧ El.keys e_a = ArrowKeys k
        ∧ Binding.elementId (Arrow.startBinding k) = "rect-1"
        ∧ Binding.elementId (Arrow.endBinding k) = "rect-3".
Proof.
  destruct (create_arrow_binds_both_endpoints "rect-1" "rect-3" None None
              "solid" 2 two_rects) as [Heff Hret].
  destruct Hret as (arrow & s' & Heq);
    [by apply (bool_decide_unpack _); vm_compute..|discriminate|].
  exists arrow, s'. split; [done|]. by apply Heff.
Defined.

Lemma create_arrow_type_error sid eid sp ep st w s :
  wf s → None ∈ elements s →
  create_arrow sid eid sp ep st w s = (Raise TypeError, s).
Proof.
  intros Hwf Hnone.
  pose proof (create_arrow_outcome sid eid sp ep st w s) as Hout.
  pose proof (create_arrow_returns_iff sid eid sp ep st w s Hwf) as Hiff.
  destruct (create_arrow _ _ _ _ _ _ _) as [[a|e|] s'].
  - destruct Hiff as [Hiff _]. by destruct Hiff as (? & _); [by eauto|].
  - destruct Hout as [-> [[-> _]|(_ & ? & _)]]; done.
  - by destruct Hout as [_ ?].
Qed.

(** C5, as the specification has it, fails: on the agent a routing layout
    with an empty router label leaves behind no dict has the id [rect-9], and
    [create_arrow] to it raises a [TypeError], not the [ValueError] of a
    missing endpoint. *)
Lemma create_arrow_missing_endpoint_type_error :
  ¬ present "rect-9" null_entry
  ∧ create_arrow "rect-1" "rect-9" None None "solid" 2 null_entry
    = (Raise TypeError, null_entry)
  ∧ create_arrow "rect-1" "rect-9" None None "solid" 2 null_entry
    ≠ (Raise not_found, null_entry).
Proof.
  assert (create_arrow "rect-1" "rect-9" None None "solid" 2 null_entry
          = (Raise TypeError, null_entry)) as Heq.
  { apply create_arrow_type_error.
    - by apply (bool_decide_unpack _); vm_compute.
    - by apply (bool_decide_unpack _); vm_compute. }
  split_and!; [by apply (bool_decide_unpack _); vm_compute|done|].
  rewrite Heq. discriminate.
Qed.

(** C5, as the code has it.  Whenever no dict of [self.elements] has the
    start id or none has the end id, [create_arrow] raises and leaves the
    agent exactly as it was: nothing is appended and no [boundElements] is
    touched.  What it raises is its [ValueError] ("Start or end element not
    found") when [self.elements] is a list of dicts, and a [TypeError] when
    the list holds a [None]. *)
Theorem create_arrow_missing_endpoint sid eid sp ep st w s :
  wf s → ¬ present sid s ∨ ¬ present eid s →
  create_arrow sid eid sp ep st w s
  = (Raise (if decide (all_dicts s) then not_found else TypeError), s).
Proof.
  intros Hwf Hmiss. destruct (decide (all_dicts s)) as [Hall|Hnone].
  - pose proof (create_arrow_outcome sid eid sp ep st w s) as Hout.
    pose proof (create_arrow_returns_iff sid eid sp ep st w s Hwf) as Hiff.
    destruct (create_arrow _ _ _ _ _ _ _) as [[a|e|] s'].
    + destruct Hiff as [Hiff _]. destruct Hiff as (_ & ? & ? & _); [by eauto|].
      by destruct Hmiss.
    + destruct Hout as [-> [[_ ?]|[-> _]]]; done.
    + by destruct Hout as [_ ?].
  - apply create_arrow_type_error; [done|].
    unfold all_dicts in Hnone. by apply dec_stable.
Qed.

Lemma create_arrow_missing_endpoint_witness :
  create_arrow "rect-1" "rect-9" None None "solid" 2 two_rects
  = (Raise not_found, two_rects)
  ∧ create_arrow "rect-1" "rect-9" None None "solid" 2 null_entry
    = (Raise TypeError, null_entry).
Proof.
  split.
  - rewrite (create_arrow_missing_endpoint "rect-1" "rect-9" None None "solid" 2
               two_rects).
    + rewrite decide_True; [done|]. by apply (bool_decide_unpack _); vm_compute.
    + by apply (bool_decide_unpack _); vm_compute.
    + right. by apply (bool_decide_unpack _); vm_compute.
  - rewrite (create_arrow_missing_endpoint "rect-1" "rect-9" None None "solid" 2
               null_entry).
    + rewrite decide_False; [done|]. by apply (bool_decide_unpack _); vm_compute.
    + by apply (bool_decide_unpack _); vm_compute.
    + right. by apply (bool_decide_unpack _); vm_compute.
Defined.

(** C9, as the specification has it, fails: on the agent a routing layout
    with an empty router label leaves behind a dict with the id [rect-1] is
    in [self.elements], and an arrow from it to itself raises a [TypeError],
    not the [ValueError] of a missing endpoint. *)
Lemma create_arrow_self_loop_type_error :
  present "rect-1" null_entry
  ∧ create_arrow "rect-1" "rect-1" None None "solid" 2 null_entry
    = (Raise TypeError, null_entry)
  ∧ create_arrow "rect-1" "rect-1" None None "solid" 2 null_entry
    ≠ (Raise not_found, null_entry).
Proof.
  assert (create_arrow "rect-1" "rect-1" None None "solid" 2 null_entry
          = (Raise TypeError, null_entry)) as Heq.
  { apply create_arrow_type_error.
    - by apply (bool_decide_unpack _); vm_compute.
    - by apply (bool_decide_unpack _); vm_compute. }
  split_and!; [by apply (bool_decide_unpack _); vm_compute|done|].
  rewrite Heq. discriminate.
Qed.

(** C9, as the code has it.  An arrow from a dict of [self.elements] to
    itself is refused, and the agent is left exactly as it was.  When
    [self.elements] is a list of dicts the call raises the [ValueError] of a
    missing endpoint although a dict with the id is present: the scan takes
    it as the start and never tries it as the end.  When the list holds a
    [None] the scan raises a [TypeError] instead. *)
Theorem create_arrow_self_loop_not_found i sp ep st w s :
  wf s → present i s →
  create_arrow i i sp ep st w s
  = (Raise (if decide (all_dicts s) then not_found else TypeError), s).
Proof.
  intros Hwf Hpres. destruct (decide (all_dicts s)) as [Hall|Hnone].
  - pose proof (create_arrow_outcome i i sp ep st w s) as Hout.
    pose proof (create_arrow_returns_iff i i sp ep st w s Hwf) as Hiff.
    destruct (create_arrow _ _ _ _ _ _ _) as [[a|e|] s'].
    + destruct Hiff as [Hiff _]. destruct Hiff as (_ & _ & _ & ?); [by eauto|done].
    + destruct Hout as [-> [[_ ?]|[-> _]]]; done.
    + by destruct Hout as [_ ?].
  - apply create_arrow_type_error; [done|].
    unfold all_dicts in Hnone. by apply dec_stable.
Qed.

Lemma create_arrow_self_loop_not_found_witness :
  present "rect-1" two_rects
  ∧ create_arrow "rect-1" "rect-1" None None "solid" 2 two_rects
    = (Raise not_found, two_rects)
  ∧ present "rect-1" null_entry
  ∧ create_arrow "rect-1" "rect-1" None None "solid" 2 null_entry
    = (Raise TypeError, null_entry).
Proof.
  assert (present "rect-1" two_rects) as Hpres
    by (by apply (bool_decide_unpack _); vm_compute).
  assert (present "rect-1" null_entry) as Hpres'
    by (by apply (bool_decide_unpack _); vm_compute).
  split_and!; [done| |done|].
  - rewrite (create_arrow_self_loop_not_found "rect-1" None None "solid" 2 two_rects);
      [|by apply (bool_decide_unpack _); vm_compute|done].
    rewrite decide_True; [done|]. by apply (bool_decide_unpack _); vm_compute.
  - rewrite (create_arrow_self_loop_not_found "rect-1" None None "solid" 2 null_entry);
      [|by apply (bool_decide_unpack _); vm_compute|done].
    rewrite decide_False; [done|]. by apply (bool_decide_unpack _); vm_compute.
Defined.

(** ** Outcomes of compound methods *)

Lemma post_bind {A B} (m : M A) (k : A → M B) s (Q : result B → ExcalidrawAgent → Prop) :
  returns m s (λ a s', post (k a) s' Q) → post (bind m k) s Q.
Proof.
  intros (a & s' & Hm & HQ). unfold post in *. by rewrite (bind_ok _ _ _ _ _ Hm).
Qed.

Lemma post_bind_raise {A B} (m : M A) (k : A → M B) s e
    (Q : result B → ExcalidrawAgent → Prop) :
  post m s (λ r s', r = Raise e ∧ Q (Raise e) s') → post (bind m k) s Q.
Proof.
  unfold post. destruct (m s) as [r s'] eqn:Hm. simpl. intros [-> HQ].
  by rewrite (bind_raise _ _ _ _ _ Hm).
Qed.

Lemma post_eq {A} (m : M A) s r s' (Q : result A → ExcalidrawAgent → Prop) :
  m s = (r, s') → Q r s' → post m s Q.
Proof. unfold post. by intros ->. Qed.

(** ** Helpers of the layouts *)

Lemma int_eq_0 z : int z = 0%Qc → z = 0%Z.
Proof. intros H. apply (f_equal this) in H. by injection H. Qed.

Lemma returns_truediv a b s (Q : num → ExcalidrawAgent → Prop) :
  b ≠ 0%Qc → Q (a / b)%Qc s → returns (truediv a b) s Q.
Proof. intros Hb HQ. unfold truediv. destruct (decide _); [done|]. by mstep. Qed.

Lemma returns_pick colors i s (Q : string → ExcalidrawAgent → Prop) :
  colors ≠ [] → (∀ c, Q c s) → returns (pick colors i) s Q.
Proof.
  intros Hne HQ. unfold pick. destruct (length colors) as [|n] eqn:Hlen.
  { by destruct colors. }
  destruct (lookup_lt_is_Some_2 colors (i mod S n)) as [c ->].
  { rewrite Hlen. apply Nat.mod_upper_bound. lia. }
  by mstep.
Qed.

Lemma returns_item {A} (xs : list A) i x s (Q : A → ExcalidrawAgent → Prop) :
  xs !! i = Some x → Q x s → returns (item xs i) s Q.
Proof. intros Hx HQ. unfold item. rewrite Hx. by mstep. Qed.

Lemma returns_add_element r s (Q : unit → ExcalidrawAgent → Prop) :
  Q tt (set_elements (elements s ++ [r]) s) → returns (add_element r) s Q.
Proof. intros. by apply returns_modify. Qed.

Lemma returns_id_of a e s (Q : string → ExcalidrawAgent → Prop) :
  objects s !! a = Some e → Q (El.id e) s → returns (id_of a) s Q.
Proof. intros Ha HQ. unfold id_of. mstep. eapply returns_load; [done|]. by mstep. Qed.

Lemma returns_create_rectangle x y w h text bg s
    (Q : addr * ref → ExcalidrawAgent → Prop) :
  (∀ sh s', truthy text = false → extends [sh] 1 s s' →
            El.id sh = fmt "rect" (element_counter s + 1) →
            El.type sh = "rectangle" →
            Q (length (objects s), None) s') →
  (∀ sh t s', truthy text = true → extends [sh; t] 2 s s' →
              El.id sh = fmt "rect" (element_counter s + 1) →
              El.type sh = "rectangle" →
              El.id t = fmt "element" (element_counter s + 2) →
              El.type t = "text" →
              Q (length (objects s), Some (S (length (objects s)))) s') →
  returns (create_rectangle x y w h text bg) s Q.
Proof. apply (returns_create_shape "rect" RECTANGLE). Qed.

Lemma returns_create_ellipse x y w h text bg s
    (Q : addr * ref → ExcalidrawAgent → Prop) :
  (∀ sh s', truthy text = false → extends [sh] 1 s s' →
            El.id sh = fmt "ellipse" (element_counter s + 1) →
            El.type sh = "ellipse" →
            Q (length (objects s), None) s') →
  (∀ sh t s', truthy text = true → extends [sh; t] 2 s s' →
              El.id sh = fmt "ellipse" (element_counter s + 1) →
              El.type sh = "ellipse" →
              El.id t = fmt "element" (element_counter s + 2) →
              El.type t = "text" →
              Q (length (objects s), Some (S (length (objects s)))) s') →
  returns (create_ellipse x y w h text bg) s Q.
Proof. apply (returns_create_shape "ellipse" ELLIPSE). Qed.

(** Case analysis on membership in an explicit list. *)
Ltac in_cases H :=
  repeat (apply elem_of_cons in H as [H|H]);
  try (by apply elem_of_nil in H); simplify_eq.

(** One step of a compound method whose first part returns. *)
Ltac pstep :=
  cbv zeta;
  lazymatch goal with
  | |- post (bind _ _) _ _ => apply post_bind
  end.

Lemma post_pick_empty {B} i (k : string → M B) s
    (Q : result B → ExcalidrawAgent → Prop) :
  Q (Raise ZeroDivisionError) s → post (bind (pick [] i) k) s Q.
Proof. intros HQ. by apply post_eq with (Raise ZeroDivisionError) s. Qed.

(** ** Claims on degenerate inputs of the layouts *)

(** C2.  [create_routing_layout] with an empty destination list: the router
    rectangle and its text are made and appended to [self.elements], and
    then [2 * math.pi / len(destinations)] raises [ZeroDivisionError].  The
    call neither rejects its input beforehand nor completes. *)
Theorem create_routing_layout_no_destinations `{MathLib} router_name x y rc dc s :
  ∃ s' router_text,
    create_routing_layout router_name [] x y rc dc s = (Raise ZeroDivisionError, s')
    ∧ elements s' = elements s ++ [Some (length (objects s)); router_text].
Proof.
  cut (post (create_routing_layout router_name [] x y rc dc) s
         (λ r s', r = Raise ZeroDivisionError
                  ∧ ∃ t, elements s' = elements s ++ [Some (length (objects s)); t])).
  { unfold post. destruct (create_routing_layout _ _ _ _ _ _ _) as [r s'].
    simpl. intros (-> & t & Hels). by exists s', t. }
  unfold create_routing_layout.
  pstep. apply returns_create_rectangle.
  - intros sh s1 _ (Hobj & Hels & Hcnt) _ _.
    pstep. apply returns_add_element. pstep. apply returns_add_element.
    eapply post_eq; [reflexivity|]. split; [done|]. exists None. simpl.
    by rewrite Hels, <-app_assoc.
  - intros sh t s1 _ (Hobj & Hels & Hcnt) _ _ _ _.
    pstep. apply returns_add_element. pstep. apply returns_add_element.
    eapply post_eq; [reflexivity|]. split; [done|]. eexists. simpl.
    by rewrite Hels, <-app_assoc.
Qed.

Lemma length_ne_0 {A} (xs : list A) : xs ≠ [] → int (Z.of_nat (length xs)) ≠ 0%Qc.
Proof. intros Hne Hz%int_eq_0. destruct xs; [done|]. simpl in Hz. lia. Qed.

Lemma routing_empty_router_label `{MathLib} destinations x y rc dc s :
  wf s → destinations ≠ [] →
  post (create_routing_layout "" destinations x y rc dc) s
    (λ r s', ∃ rest,
       elements s' = elements s ++ Some (length (objects s)) :: None :: rest
       ∧ wf s'
       ∧ (dc ≠ Some [] → r = Raise TypeError)).
Proof.
  intros Hwf Hne. unfold create_routing_layout.
  pstep. apply returns_create_rectangle; [|done].
  intros sh s1 _ (Hobj & Hels & Hcnt) Hid Hty.
  pstep. apply returns_add_element. pstep. apply returns_add_element.
  pstep. apply returns_truediv; [by apply length_ne_0|].
  pstep. apply returns_gets.
  destruct destinations as [|dest_name destinations]; [done|].
  set (s2 := set_elements _ _).
  assert (objects s2 = objects s ++ [sh]) as Hobj2 by done.
  assert (elements s2 = elements s ++ [Some (length (objects s)); None]) as Hels2.
  { subst s2. simpl. by rewrite Hels, <-app_assoc. }
  assert (wf s2) as Hwf2.
  { apply wf_intro. intros a. rewrite Hels2, Hobj2, length_app. simpl.
    intros [Hin|Hin]%elem_of_app.
    - eapply wf_valid in Hin; [lia|done].
    - in_cases Hin; simpl; lia. }
  clearbody s2. simpl.
  destruct (default [ColorScheme.LLM] dc) as [|c cs] eqn:Hdc.
  { apply post_bind_raise with ZeroDivisionError. apply post_pick_empty.
    split; [done|]. exists []. split_and!; [done..|].
    destruct dc as [[|]|]; done. }
  apply post_bind_raise with TypeError.
  pstep. apply returns_pick; [done|]. intros color.
  pstep. apply returns_create_rectangle.
  - intros d s3 _ (Hobj3 & Hels3 & Hcnt3) Hidd Htyd.
    pstep. apply returns_add_element. pstep. apply returns_add_element.
    set (s4 := set_elements _ _).
    assert (objects s4 = objects s ++ [sh; d]) as Hobj4.
    { subst s4. simpl. by rewrite Hobj3, Hobj2, <-app_assoc. }
    assert (elements s4 = elements s ++ [Some (length (objects s)); None;
              Some (length (objects s2)); None]) as Hels4.
    { subst s4. simpl. by rewrite Hels3, Hels2, <-!app_assoc. }
    assert (wf s4) as Hwf4.
    { apply wf_intro. intros a. rewrite Hels4, Hobj4, Hobj2, !length_app. simpl.
      intros [Hin|Hin]%elem_of_app.
      - eapply wf_valid in Hin; [lia|done].
      - in_cases Hin; simpl; lia. }
    clearbody s4.
    pstep. eapply returns_id_of.
    { rewrite Hobj4. apply lookup_middle. }
    pstep. eapply returns_id_of.
    { rewrite Hobj4, Hobj2, length_app, Nat.add_1_r, lookup_app_r by lia.
      by replace (S (length (objects s)) - length (objects s)) with 1 by lia. }
    eapply post_bind_raise, post_eq.
    { apply create_arrow_type_error; [done|].
      rewrite Hels4, elem_of_app, !elem_of_cons. auto. }
    split; [done|]. split; [done|]. eexists. split_and!; done.
  - intros d t s3 _ (Hobj3 & Hels3 & Hcnt3) Hidd Htyd _ _.
    pstep. apply returns_add_element. pstep. apply returns_add_element.
    set (s4 := set_elements _ _).
    assert (objects s4 = objects s ++ [sh; d; t]) as Hobj4.
    { subst s4. simpl. by rewrite Hobj3, Hobj2, <-app_assoc. }
    assert (elements s4 = elements s ++ [Some (length (objects s)); None;
              Some (length (objects s2)); Some (S (length (objects s2)))]) as Hels4.
    { subst s4. simpl. by rewrite Hels3, Hels2, <-!app_assoc. }
    assert (wf s4) as Hwf4.
    { apply wf_intro. intros a. rewrite Hels4, Hobj4, Hobj2, !length_app. simpl.
      intros [Hin|Hin]%elem_of_app.
      - eapply wf_valid in Hin; [lia|done].
      - in_cases Hin; simpl; lia. }
    clearbody s4.
    pstep. eapply returns_id_of.
    { rewrite Hobj4. apply lookup_middle. }
    pstep. eapply returns_id_of.
    { rewrite Hobj4, Hobj2, length_app, Nat.add_1_r, lookup_app_r by lia.
      by replace (S (length (objects s)) - length (objects s)) with 1 by lia. }
    eapply post_bind_raise, post_eq.
    { apply create_arrow_type_error; [done|].
      rewrite Hels4, elem_of_app, !elem_of_cons. auto. }
    split; [done|]. split; [done|]. eexists. split_and!; done.
Qed.

(** The two cases of a shape factory at once: [txt] is the text dict, if one
    was made. *)
Lemma returns_create_shape_any prefix ty round x y w h text bg s
    (Q : addr * ref → ExcalidrawAgent → Prop) :
  (∀ sh txt s',
     extends (sh :: option_list txt) (if txt is Some _ then 2 else 1) s s' →
     El.id sh = fmt prefix (element_counter s + 1) →
     El.type sh = ElementType_value ty →
     (is_Some txt ↔ truthy text = true) →
     (∀ t, txt = Some t →
           El.id t = fmt "element" (element_counter s + 2) ∧ El.type t = "text") →
     Q (length (objects s), (λ _, S (length (objects s))) <$> txt) s') →
  returns (create_shape prefix ty round x y w h text bg) s Q.
Proof.
  intros HQ. apply returns_create_shape.
  - intros sh s' Htext Hext Hid Hty. apply (HQ sh None); try done.
    rewrite Htext. split; [by intros [? ?]|done].
  - intros sh t s' Htext Hext Hid Hty Hidt Htyt. apply (HQ sh (Some t)); try done.
    by intros ? [= <-].
Qed.

Lemma text_ref_valid {A} (txt : option A) n a :
  (λ _, S n) <$> txt = Some a → a = S n ∧ is_Some txt.
Proof. destruct txt; [|done]. intros [= <-]. eauto. Qed.

Lemma parallel_empty_input_label parallel_items output_name x y colors s :
  wf s → parallel_items ≠ [] →
  post (create_parallel_layout "" parallel_items output_name x y colors) s
    (λ r s', ∃ rest,
       elements s' = elements s ++ Some (length (objects s)) :: None :: rest
       ∧ wf s'
       ∧ (colors ≠ Some [] → r = Raise TypeError)).
Proof.
  intros Hwf Hne. unfold create_parallel_layout.
  pstep. apply returns_create_ellipse; [|done].
  intros sh s1 _ (Hobj & Hels & Hcnt) Hid Hty.
  pstep. apply returns_add_element. pstep. apply returns_add_element.
  pstep. apply returns_gets.
  destruct parallel_items as [|item_name parallel_items]; [done|].
  set (s2 := set_elements _ _).
  assert (objects s2 = objects s ++ [sh]) as Hobj2 by done.
  assert (elements s2 = elements s ++ [Some (length (objects s)); None]) as Hels2.
  { subst s2. simpl. by rewrite Hels, <-app_assoc. }
  assert (wf s2) as Hwf2.
  { apply wf_intro. intros a. rewrite Hels2, Hobj2, length_app. simpl.
    intros [Hin|Hin]%elem_of_app.
    - eapply wf_valid in Hin; [lia|done].
    - in_cases Hin; simpl; lia. }
  clearbody s2. simpl.
  destruct (default [ColorScheme.LLM; ColorScheme.CODE] colors) as [|c cs] eqn:Hdc.
  { apply post_bind_raise with ZeroDivisionError.
    apply post_bind_raise with ZeroDivisionError.
    pstep. apply returns_gets. apply post_pick_empty.
    split; [done|]. split; [done|]. exists []. split_and!; [done..|].
    destruct colors as [[|]|]; done. }
  apply post_bind_raise with TypeError. apply post_bind_raise with TypeError.
  pstep. apply returns_gets.
  pstep. apply returns_pick; [done|]. intros color.
  pstep. apply (returns_create_shape_any "rect" RECTANGLE).
  intros d txt s3 (Hobj3 & Hels3 & Hcnt3) Hidd Htyd _ _.
  pstep. apply returns_add_element. pstep. apply returns_add_element.
  set (s4 := set_elements _ _).
  assert (objects s4 = objects s ++ sh :: d :: option_list txt) as Hobj4.
  { subst s4. simpl. by rewrite Hobj3, Hobj2, <-app_assoc. }
  assert (elements s4 = elements s ++ [Some (length (objects s)); None;
            Some (length (objects s2)); (λ _, S (length (objects s2))) <$> txt])
    as Hels4.
  { subst s4. simpl. by rewrite Hels3, Hels2, <-!app_assoc. }
  assert (wf s4) as Hwf4.
  { apply wf_intro. intros a. rewrite Hels4, Hobj4, Hobj2, !length_app. simpl.
    intros [Hin|Hin]%elem_of_app.
    - eapply wf_valid in Hin; [lia|done].
    - in_cases Hin; simpl; try lia.
      symmetry in Hin. apply text_ref_valid in Hin as [-> [t ->]]. simpl. lia. }
  clearbody s4.
  pstep. eapply returns_id_of.
  { rewrite Hobj4. apply lookup_middle. }
  pstep. eapply returns_id_of.
  { rewrite Hobj4, Hobj2, length_app, Nat.add_1_r, lookup_app_r by lia.
    by replace (S (length (objects s)) - length (objects s)) with 1 by lia. }
  eapply post_bind_raise, post_eq.
  { apply create_arrow_type_error; [done|].
    rewrite Hels4, elem_of_app, !elem_of_cons. auto. }
  split; [done|]. split; [done|]. split; [done|]. eexists. split_and!; done.
Qed.

(** C10.  A routing layout with an empty router label and at least one
    destination, and a parallel layout with an empty input label and at least
    one item: the hub shape is appended to [self.elements] followed by a
    [None] in the place of its text; from then on every call of
    [create_arrow] on the agent raises [TypeError] (not the [ValueError] of a
    missing endpoint), and the layout itself ends with the [TypeError] of its
    first arrow, unless its palette is the empty list, in which case it has
    raised before it tried an arrow. *)
Theorem empty_hub_label_null_placeholder `{MathLib} s :
  wf s →
  (∀ destinations x y rc dc, destinations ≠ [] →
     ∃ r s' rest,
       create_routing_layout "" destinations x y rc dc s = (r, s')
       ∧ elements s' = elements s ++ Some (length (objects s)) :: None :: rest
       ∧ (∀ sid eid sp ep st w,
            create_arrow sid eid sp ep st w s' = (Raise TypeError, s'))
       ∧ (dc ≠ Some [] → r = Raise TypeError))
  ∧ (∀ parallel_items output_name x y colors, parallel_items ≠ [] →
       ∃ r s' rest,
         create_parallel_layout "" parallel_items output_name x y colors s = (r, s')
         ∧ elements s' = elements s ++ Some (length (objects s)) :: None :: rest
         ∧ (∀ sid eid sp ep st w,
              create_arrow sid eid sp ep st w s' = (Raise TypeError, s'))
         ∧ (colors ≠ Some [] → r = Raise TypeError)).
Proof.
  intros Hwf. split.
  - intros destinations x y rc dc Hne.
    pose proof (routing_empty_router_label destinations x y rc dc s Hwf Hne) as Hpost.
    unfold post in Hpost.
    destruct (create_routing_layout _ _ _ _ _ _ _) as [r s'].
    simpl in Hpost. destruct Hpost as (rest & Hels & Hwf' & Hr). exists r, s', rest.
    split_and!; [done..| |done].
    intros. apply create_arrow_type_error; [done|].
    rewrite Hels, elem_of_app, !elem_of_cons. auto.
  - intros parallel_items output_name x y colors Hne.
    pose proof (parallel_empty_input_label parallel_items output_name x y colors
                  s Hwf Hne) as Hpost.
    unfold post in Hpost.
    destruct (create_parallel_layout _ _ _ _ _ _ _) as [r s'].
    simpl in Hpost. destruct Hpost as (rest & Hels & Hwf' & Hr). exists r, s', rest.
    split_and!; [done..| |done].
    intros. apply create_arrow_type_error; [done|].
    rewrite Hels, elem_of_app, !elem_of_cons. auto.
Qed.

Lemma empty_hub_label_null_placeholder_witness :
  (∃ s' rest,
     create_routing_layout (H:=rational_math) "" ["LLM1"; "LLM2"] (int 50) (int 150)
       None None init = (Raise TypeError, s')
     ∧ elements s' = Some 0 :: None :: rest
     ∧ create_arrow "rect-1" "rect-2" None None "solid" 2 s' = (Raise TypeError, s'))
  ∧ (∃ s' rest,
       create_parallel_layout "" ["Process A"] "Output" (int 50) (int 300) None init
       = (Raise TypeError, s')
       ∧ elements s' = Some 0 :: None :: rest
       ∧ create_arrow "ellipse-1" "rect-2" None None "solid" 2 s'
         = (Raise TypeError, s')).
Proof.
  destruct (empty_hub_label_null_placeholder (H:=rational_math) init) as [Hr Hp].
  { by apply (bool_decide_unpack _); vm_compute. }
  split.
  - destruct (Hr ["LLM1"; "LLM2"] (int 50) (int 150) None None)
      as (r & s' & rest & Heq & Hels & Harrow & Hraise); [done|].
    rewrite Hraise in Heq by done. by exists s', rest.
  - destruct (Hp ["Process A"] "Output" (int 50) (int 300) None)
      as (r & s' & rest & Heq & Hels & Harrow & Hraise); [done|].
    rewrite Hraise in Heq by done. by exists s', rest.
Defined.

(** ** The worked example of the sequential layout *)

(** C3, as the code has it.  [create_sequential_layout(["A", "B"], 50, 50)]
    on a new agent returns two rectangles, each followed by its text, and one
    arrow.  The rectangles are at [(50, 50)] and [(320, 50)]; the arrow starts
    at [(170, 80)], its polyline is [[0, 0], [150, 0]], so it ends at
    [(320, 80)]. *)
Theorem sequential_example :
  ∃ s' r1 t1 r2 t2 a k,
    create_sequential_layout ["A"; "B"] (int 50) (int 50) "rectangle" None init
    = (Ok [Some 0; Some 1; Some 2; Some 3; Some 4], s')
    ∧ objects s' = [r1; t1; r2; t2; a]
    ∧ El.type r1 = "rectangle" ∧ El.x r1 = int 50 ∧ El.y r1 = int 50
    ∧ El.type t1 = "text"
    ∧ El.type r2 = "rectangle" ∧ El.x r2 = int 320 ∧ El.y r2 = int 50
    ∧ El.type t2 = "text"
    ∧ El.type a = "arrow" ∧ El.keys a = ArrowKeys k
    ∧ El.x a = int 170 ∧ El.y a = int 80
    ∧ Arrow.points k = [[int 0; int 0]; [int 150; int 0]]
    ∧ (El.x a + int 150 = int 320)%Qc ∧ (El.y a + int 0 = int 80)%Qc.
Proof.
  do 7 eexists.
  split; [vm_compute; reflexivity|].
  split; [reflexivity|].
  split_and!; try reflexivity; try (apply Qc_is_canon; reflexivity).
  by apply (bool_decide_unpack _); vm_compute.
Qed.

(** C3, as the specification has it: the polyline of the one arrow is not
    [[0, 0], [200, 0]]. *)
Lemma sequential_example_polyline_not_200 :
  ∃ s' a k,
    create_sequential_layout ["A"; "B"] (int 50) (int 50) "rectangle" None init
    = (Ok [Some 0; Some 1; Some 2; Some 3; Some 4], s')
    ∧ filter (λ e, El.type e = "arrow") (objects s') = [a]
    ∧ El.keys a = ArrowKeys k
    ∧ Arrow.points k ≠ [[int 0; int 0]; [int 200; int 0]].
Proof.
  do 3 eexists.
  split; [vm_compute; reflexivity|].
  split; [reflexivity|]. split; [reflexivity|].
  intros [= Hx _].
Qed.

(** ** Document assembler *)

Lemma resolve_returns l s :
  Forall (λ r, r = None ∨ is_Some (dict_at s r)) l →
  resolve l s = (Ok (map (dict_at s) l), s).
Proof.
  induction 1 as [|r l Hr Hl IH]; [done|].
  destruct r as [a|]; simpl.
  - destruct Hr as [[=]|[e He]]. simpl in He.
    rewrite (bind_ok _ _ _ _ _ (load_ok _ _ _ He)).
    rewrite (bind_ok _ _ _ _ _ IH). by rewrite He.
  - by rewrite (bind_ok _ _ _ _ _ IH).
Qed.

(** C8.  [generate_excalidraw_json] returns a document that is a function of
    what [self.elements] holds and of nothing else (not of the title, the
    counters or the group), and leaves the agent as it was.  So two agents
    with the same element list, in particular one agent asked twice, give
    the same document, and [save_diagram] hands the same document to
    [json.dump]. *)
Theorem document_assembly_deterministic s s' title title' :
  wf s → wf s' →
  map (dict_at s) (elements s) = map (dict_at s') (elements s') →
  ∃ d,
    generate_excalidraw_json title s = (Ok d, s)
    ∧ generate_excalidraw_json title' s' = (Ok d, s')
    ∧ Doc.elements d = map (dict_at s) (elements s)
    ∧ ∀ filename,
        save_diagram filename title s = (Ok (filename, d), s)
        ∧ save_diagram filename title' s' = (Ok (filename, d), s').
Proof.
  intros Hwf Hwf' Hsame.
  assert (∀ t s0, wf s0 →
    generate_excalidraw_json t s0
    = (Ok (Doc.mk "excalidraw" 2 "https://github.com/your-username/excalidraw-agent"
             (map (dict_at s0) (elements s0))
             (mkAppState 20 "#ffffff" 5 16 "#1e1e1e" "transparent" "solid" 2
                "solid" 1 100 "left" None (Some "arrow")) []), s0)) as Hgen.
  { intros t s0 Hwf0. unfold generate_excalidraw_json.
    rewrite (bind_ok _ _ s0 (elements s0) s0) by done.
    by rewrite (bind_ok _ _ _ _ _ (resolve_returns _ _ Hwf0)). }
  eexists. split_and!.
  - by apply Hgen.
  - rewrite Hgen by done. by rewrite Hsame.
  - done.
  - intros filename. unfold save_diagram. split.
    + by rewrite (bind_ok _ _ _ _ _ (Hgen title s Hwf)).
    + rewrite (bind_ok _ _ _ _ _ (Hgen title' s' Hwf')). by rewrite Hsame.
Qed.

Lemma document_assembly_deterministic_witness :
  ∃ d,
    generate_excalidraw_json "Generated Diagram" two_rects = (Ok d, two_rects)
    ∧ generate_excalidraw_json "Again" two_rects = (Ok d, two_rects)
    ∧ Doc.elements d = map (dict_at two_rects) (elements two_rects)
    ∧ ∀ filename,
        save_diagram filename "Generated Diagram" two_rects
        = (Ok (filename, d), two_rects)
        ∧ save_diagram filename "Again" two_rects = (Ok (filename, d), two_rects).
Proof.
  apply document_assembly_deterministic.
  - by apply (bool_decide_unpack _); vm_compute.
  - by apply (bool_decide_unpack _); vm_compute.
  - reflexivity.
Defined.

(** ** Ids *)

Lemma fmt_inj p p' k k' :
  p ∈ prefixes → p' ∈ prefixes → fmt p k = fmt p' k' → k = k'.
Proof.
  unfold prefixes, fmt. intros Hp Hp'.
  in_cases Hp; in_cases Hp'; simpl; intros Heq; simplify_eq; try done.
  all: by apply (inj pretty).
Qed.

Lemma issued_mono c c' i : (c ≤ c')%N → issued c i → issued c' i.
Proof. intros Hle (p & k & Hp & Hk & ->). exists p, k. split_and!; [done|lia|done]. Qed.

Lemma issued_fresh c p e :
  p ∈ prefixes → issued c (El.id e) → El.id e ≠ fmt p (c + 1).
Proof.
  intros Hp (p' & k & Hp' & Hk & Hid) Heq. rewrite Hid in Heq.
  apply fmt_inj in Heq; [lia|done..].
Qed.

Lemma unique_snoc h c e p :
  NoDup (El.id <$> h) → Forall (λ e, issued c (El.id e)) h →
  p ∈ prefixes → El.id e = fmt p (c + 1) →
  NoDup (El.id <$> (h ++ [e])) ∧ Forall (λ e, issued (c + 1) (El.id e)) (h ++ [e]).
Proof.
  intros Hnd Hiss Hp Hid. split.
  - rewrite fmap_app. apply NoDup_app. split_and!; [done| |apply NoDup_singleton].
    intros i (e' & -> & Hin)%list_elem_of_fmap [= Heq]%list_elem_of_singleton.
    rewrite Forall_forall in Hiss. eapply issued_fresh; [done|by apply Hiss|].
    by rewrite Heq.
  - apply Forall_app. split.
    + eapply Forall_impl; [done|]. intros e' He'. apply (issued_mono c); [lia|done].
    + apply Forall_singleton. exists p, (c + 1)%N. split_and!; [done|lia|done].
Qed.

Lemma unique_ids_extends s s' sh txt p :
  unique_ids s →
  extends (sh :: option_list txt) (if txt is Some _ then 2 else 1) s s' →
  p ∈ prefixes →
  El.id sh = fmt p (element_counter s + 1) →
  (∀ t, txt = Some t → El.id t = fmt "element" (element_counter s + 2)) →
  unique_ids s'.
Proof.
  intros [Hnd Hiss] (Hobj & _ & Hcnt) Hp Hid Htxt.
  unfold unique_ids, ids_issued in *. rewrite Hobj, Hcnt.
  destruct (unique_snoc _ _ _ _ Hnd Hiss Hp Hid) as [Hnd1 Hiss1].
  destruct txt as [t|]; simpl; [|done].
  replace (element_counter s + 2)%N with (element_counter s + 1 + 1)%N by lia.
  rewrite (assoc_L (++) _ [sh] [t]).
  apply (unique_snoc _ _ _ "element"); [done..|by left|].
  rewrite (Htxt t) by done. f_equal. lia.
Qed.

Lemma fmap_id_insert_bind (h : list El.t) a e r :
  h !! a = Some e → El.id <$> <[a := El.bind r e]> h = El.id <$> h.
Proof.
  intros Ha. rewrite list_fmap_insert. simpl. apply list_insert_id.
  by rewrite list_lookup_fmap, Ha.
Qed.

Lemma returns_final {A} (m : M A) s (Q : A → ExcalidrawAgent → Prop) :
  returns m s Q → ∃ a, (m s).1 = Ok a ∧ Q a (m s).2.
Proof. intros (a & s' & -> & HQ). by exists a. Qed.

Lemma arrow_made_ids sid eid s a s' :
  arrow_made sid eid s a s' →
  ∃ e_a, El.id <$> objects s' = El.id <$> (objects s ++ [e_a])
         ∧ length (objects s') = S (length (objects s))
         ∧ element_counter s' = (element_counter s + 1)%N
         ∧ El.id e_a = fmt "arrow" (element_counter s + 1).
Proof.
  intros (a_s & a_e & e_s & e_e & e_a & k & Hmade). simpl in Hmade.
  destruct Hmade as (_ & _ & Hls & Hids & _ & Hle & Hide & Hne & Hobj & _ & Hcnt
                     & Hid & _).
  assert (a_s ≠ a_e) as Hneq by (intros ->; congruence).
  assert (a_s < length (objects s)) as Hlt_s by eauto using lookup_lt_Some.
  assert (a_e < length (objects s)) as Hlt_e by eauto using lookup_lt_Some.
  exists e_a. split_and!; [|by rewrite Hobj, !length_insert, length_app, Nat.add_1_r|done..].
  rewrite Hobj, !fmap_id_insert_bind; [done|..].
  - by rewrite lookup_app_l.
  - by rewrite list_lookup_insert_ne, lookup_app_l.
Qed.

Lemma unique_ids_fmap s :
  unique_ids s
  ↔ NoDup (El.id <$> objects s)
    ∧ Forall (issued (element_counter s)) (El.id <$> objects s).
Proof. unfold unique_ids, ids_issued. by rewrite Forall_fmap. Qed.

Lemma arrow_made_unique_ids sid eid s a s' :
  arrow_made sid eid s a s' → unique_ids s → unique_ids s'.
Proof.
  intros (e_a & Hids & _ & Hcnt & Hid)%arrow_made_ids [Hnd Hiss].
  destruct (unique_snoc _ _ e_a "arrow" Hnd Hiss) as [Hnd1 Hiss1];
    [unfold prefixes; rewrite !elem_of_cons; auto|done|].
  apply unique_ids_fmap. rewrite Hids, Hcnt. by rewrite Forall_fmap.
Qed.

Lemma prefix_rect : "rect" ∈ prefixes.
Proof. unfold prefixes. rewrite !elem_of_cons. auto. Qed.

Lemma prefix_ellipse : "ellipse" ∈ prefixes.
Proof. unfold prefixes. rewrite !elem_of_cons. auto. Qed.

Lemma unique_ids_after c s :
  unique_ids s →
  unique_ids (after c s) ∧ (element_counter s ≤ element_counter (after c s))%N.
Proof.
  intros Huniq. destruct c; simpl.
  - destruct (returns_final (create_text_element text x y container_id font_size) s
        (λ _ s', unique_ids s' ∧ (element_counter s ≤ element_counter s')%N))
      as (? & _ & ?); [|done].
    apply returns_create_text_element. intros e s' Hext Hid _. split.
    + apply (unique_ids_extends s s' e None "element"); [done..|by left|done|done].
    + destruct Hext as (_ & _ & ->). lia.
  - destruct (returns_final (create_rectangle x y width height text background_color) s
        (λ _ s', unique_ids s' ∧ (element_counter s ≤ element_counter s')%N))
      as (? & _ & ?); [|done].
    apply (returns_create_shape_any "rect" RECTANGLE).
    intros sh txt s' Hext Hid _ _ Htxt. split.
    + apply (unique_ids_extends s s' sh txt "rect");
        [done..|apply prefix_rect|done|by intros t [? _]%Htxt].
    + destruct Hext as (_ & _ & ->). lia.
  - destruct (returns_final (create_ellipse x y width height text background_color) s
        (λ _ s', unique_ids s' ∧ (element_counter s ≤ element_counter s')%N))
      as (? & _ & ?); [|done].
    apply (returns_create_shape_any "ellipse" ELLIPSE).
    intros sh txt s' Hext Hid _ _ Htxt. split.
    + apply (unique_ids_extends s s' sh txt "ellipse");
        [done..|apply prefix_ellipse|done|by intros t [? _]%Htxt].
    + destruct Hext as (_ & _ & ->). lia.
  - pose proof (create_arrow_outcome start_element_id end_element_id start_pos
                  end_pos style width s) as Hout.
    destruct (create_arrow _ _ _ _ _ _ _) as [[a|e|] s']; simpl.
    + split; [by eapply arrow_made_unique_ids|].
      apply arrow_made_ids in Hout as (_ & _ & _ & -> & _). lia.
    + by destruct Hout as [-> _].
    + by destruct Hout as [-> _].
  - done.
  - done.
  - done.
Qed.

Lemma unique_ids_after_all cs : unique_ids (after_all cs init).
Proof.
  unfold after_all. induction cs as [|c cs IH] using rev_ind.
  - split; [apply NoDup_nil_2|apply Forall_nil_2].
  - rewrite foldl_app. simpl. by apply unique_ids_after.
Qed.

(** ** Claim on element ids *)

(** C7.  After any sequence of calls of the shape factory and the arrow
    binder on a new agent (with [add_element] and the group calls in
    between), no two dicts that were made share an id; every id is
    [f"{prefix}-{n}"] for an [n] the agent's one counter has reached, and that
    counter never decreases. *)
Theorem element_ids_unique cs :
  NoDup (El.id <$> objects (after_all cs init))
  ∧ ids_issued (after_all cs init)
  ∧ ∀ c, (element_counter (after_all cs init)
          ≤ element_counter (after_all (cs ++ [c]) init))%N.
Proof.
  pose proof (unique_ids_after_all cs) as Huniq.
  split_and!; [apply Huniq..|].
  intros c. unfold after_all. rewrite foldl_app. simpl.
  by apply unique_ids_after.
Qed.

(** ** Loops *)

Lemma returns_for_each {A B} (I : nat → B → ExcalidrawAgent → Prop)
    (xs : list A) (body : B → A → M B) acc s :
  I 0 acc s →
  (∀ i x acc s, xs !! i = Some x → I i acc s → returns (body acc x) s (I (S i))) →
  returns (for_each xs body acc) s (I (length xs)).
Proof.
  revert I acc s. induction xs as [|x xs IH]; intros I acc s H0 Hstep.
  { by apply returns_ret. }
  simpl. apply returns_bind. eapply returns_mono; [by apply (Hstep 0)|].
  intros acc' s' HI. apply (IH (λ i, I (S i))); [done|].
  intros i x' acc'' s'' Hx. by apply (Hstep (S i)).
Qed.

Lemma lookup_enumerate_inv {A} (xs : list A) i p :
  enumerate xs !! i = Some p → ∃ x, p = (i, x) ∧ xs !! i = Some x.
Proof.
  unfold enumerate. rewrite list_lookup_imap.
  destruct (xs !! i) as [x|]; [|done]. intros [= <-]. eauto.
Qed.

Lemma length_enumerate {A} (xs : list A) : length (enumerate xs) = length xs.
Proof. apply length_imap. Qed.

(** ** The store without the bound elements *)

Lemma length_view s : length (view s) = length (objects s).
Proof. apply length_fmap. Qed.

Lemma view_extends new k s s' :
  extends new k s s' → view s' = view s ++ (frozen <$> new).
Proof. unfold view. intros (-> & _). apply fmap_app. Qed.

Lemma frozen_bind r e : frozen (El.bind r e) = frozen e.
Proof. done. Qed.

Lemma view_insert_bind (h : list El.t) a e r :
  h !! a = Some e → frozen <$> <[a := El.bind r e]> h = frozen <$> h.
Proof.
  intros Ha. rewrite list_fmap_insert, frozen_bind. apply list_insert_id.
  by rewrite list_lookup_fmap, Ha.
Qed.

Lemma view_arrow_made sid eid s a s' :
  arrow_made sid eid s a s' →
  ∃ e_a k,
    view s' = view s ++ [e_a]
    ∧ a = length (objects s)
    ∧ elements s' = elements s
    ∧ element_counter s' = (element_counter s + 1)%N
    ∧ El.type e_a = "arrow"
    ∧ El.keys e_a = ArrowKeys k
    ∧ Binding.elementId (Arrow.startBinding k) = sid
    ∧ Binding.elementId (Arrow.endBinding k) = eid.
Proof.
  intros (a_s & a_e & e_s & e_e & e_a & k & Hmade). simpl in Hmade.
  destruct Hmade as (-> & _ & Hls & Hids & _ & Hle & Hide & Hne & Hobj & Hels & Hcnt
                     & Hid & Hty & _ & Hk & Hsb & Heb).
  assert (a_s ≠ a_e) as Hneq by (intros ->; congruence).
  assert (a_s < length (objects s)) as Hlt_s by eauto using lookup_lt_Some.
  assert (a_e < length (objects s)) as Hlt_e by eauto using lookup_lt_Some.
  exists (frozen e_a), k. split_and!; try done.
  unfold view. rewrite Hobj, !view_insert_bind; [by rewrite fmap_app|..].
  - by rewrite lookup_app_l.
  - by rewrite list_lookup_insert_ne, lookup_app_l.
Qed.

Lemma id_at_view s a : id_at s a = El.id <$> view s !! a.
Proof.
  unfold id_at, view. rewrite list_lookup_fmap, <-option_fmap_compose.
  by apply option_fmap_ext.
Qed.

Lemma type_at_view s a : type_at s (Some a) = El.type <$> view s !! a.
Proof.
  unfold type_at, view. simpl. rewrite list_lookup_fmap, <-option_fmap_compose.
  by apply option_fmap_ext.
Qed.

Lemma id_at_grow s s' new a :
  view s' = view s ++ new → a < length (objects s) → id_at s' a = id_at s a.
Proof.
  intros Hview Hlt. rewrite !id_at_view, Hview, lookup_app_l; [done|].
  by rewrite length_view.
Qed.

Lemma type_at_grow s s' new r :
  view s' = view s ++ new → (∀ a, r = Some a → a < length (objects s)) →
  type_at s' r = type_at s r.
Proof.
  intros Hview Hlt. destruct r as [a|]; [|done].
  rewrite !type_at_view, Hview, lookup_app_l; [done|].
  rewrite length_view. by apply Hlt.
Qed.

Lemma created_grow s s' new :
  view s' = view s ++ new → created s s' = new.
Proof.
  intros Hview. unfold created. rewrite Hview, <-length_view.
  by rewrite drop_app_length.
Qed.

(** ** The sequential layout *)

Lemma shape_type_not_text item_type : shape_type item_type ≠ "text".
Proof. unfold shape_type. by destruct (decide _). Qed.

Lemma shape_type_not_arrow item_type : shape_type item_type ≠ "arrow".
Proof. unfold shape_type. by destruct (decide _). Qed.

Lemma shape_prefix_prefixes item_type : shape_prefix item_type ∈ prefixes.
Proof.
  unfold shape_prefix. destruct (decide _); [apply prefix_rect|apply prefix_ellipse].
Qed.

Lemma returns_sequential_shape_factory item_type x y w h text bg s
    (Q : addr * ref → ExcalidrawAgent → Prop) :
  (∀ sh txt s',
     extends (sh :: option_list txt) (if txt is Some _ then 2 else 1) s s' →
     El.id sh = fmt (shape_prefix item_type) (element_counter s + 1) →
     El.type sh = shape_type item_type →
     (is_Some txt ↔ truthy text = true) →
     (∀ t, txt = Some t →
           El.id t = fmt "element" (element_counter s + 2) ∧ El.type t = "text") →
     Q (length (objects s), (λ _, S (length (objects s))) <$> txt) s') →
  returns (if decide (item_type = "rectangle")
           then create_rectangle x y w h text bg
           else create_ellipse x y w h text bg) s Q.
Proof.
  unfold shape_prefix, shape_type. destruct (decide _).
  - apply (returns_create_shape_any "rect" RECTANGLE).
  - apply (returns_create_shape_any "ellipse" ELLIPSE).
Qed.

Lemma id_at_valid s a i : id_at s a = Some i → a < length (objects s).
Proof.
  unfold id_at. destruct (objects s !! a) eqn:Ha; [|done].
  intros _. by eapply lookup_lt_Some.
Qed.

Lemma sequential_first_pass items start_x start_y item_type colors s :
  colors ≠ [] →
  returns (for_each (enumerate items) (sequential_shape colors item_type start_y)
             ([], [], start_x)) s
    (sequential_shapes_made items item_type s (length items)).
Proof.
  intros Hcolors. rewrite <-(length_enumerate items).
  apply returns_for_each.
  { exists [], []. rewrite app_nil_r. split_and!; try done; try constructor. }
  intros i [j item'] [[els shapes] cx] t [item [[= -> ->] Hitem]]%lookup_enumerate_inv.
  intros (new & ks & Hview & Hels & Hcnt & -> & Hty & Hna & Hids & Hlen & Hks & Hnd
          & Hsh).
  unfold sequential_shape.
  mstep. apply returns_pick; [done|]. intros color.
  mstep. apply returns_sequential_shape_factory.
  intros sh txt t' Hext Hid Htysh Htxt Htxtf.
  pose proof (view_extends _ _ _ _ Hext) as Hview'.
  destruct Hext as (Hobj' & Hels' & Hcnt').
  do 5 mstep.
  assert (length (objects t) = length (objects s) + length new) as Hlent.
  { by rewrite <-!length_view, Hview, length_app. }
  exists (new ++ (frozen <$> sh :: option_list txt)), (ks ++ [element_counter t + 1]%N).
  split_and!.
  - by rewrite Hview', Hview, <-app_assoc.
  - congruence.
  - rewrite Hcnt'. destruct txt; lia.
  - rewrite length_app, seq_app, fmap_app, Hlent.
    destruct txt; simpl; by rewrite <-?app_assoc.
  - rewrite (take_S_r _ _ _ Hitem), !fmap_app, concat_app, Hty. f_equal.
    unfold item_kinds. cbn [fmap list_fmap concat].
    destruct (truthy (Some item)) eqn:Htr; simpl.
    + destruct Htxt as [_ [tx ->]]; [done|]. simpl.
      destruct (Htxtf tx) as [_ ->]; [done|]. by rewrite Htysh.
    + destruct txt as [tx|]; [|by rewrite Htysh].
      assert (false = true) by (apply Htxt; eauto). done.
  - apply Forall_app. split; [done|]. rewrite Forall_fmap.
    apply Forall_cons. split.
    + simpl. rewrite Htysh. apply shape_type_not_arrow.
    + destruct txt as [tx|]; [|by constructor]. apply Forall_singleton. simpl.
      by destruct (Htxtf tx) as [_ ->].
  - unfold shape_ids in *. rewrite filter_app, !fmap_app, Hids. f_equal.
    rewrite fmap_cons, filter_cons_True by done.
    rewrite fmap_cons. simpl. rewrite Hid. f_equal.
    destruct txt as [tx|]; [|done]. simpl.
    rewrite filter_cons_False; [done|]. simpl.
    destruct (Htxtf tx) as [_ ->]; [done|].
    intros Heq. by eapply shape_type_not_text.
  - rewrite length_app. simpl. lia.
  - apply Forall_app. split.
    + eapply Forall_impl; [done|]. simpl. intros k Hk. rewrite Hcnt'.
      destruct txt; lia.
    + apply Forall_singleton. rewrite Hcnt'. destruct txt; lia.
  - apply NoDup_app. split_and!; [done| |apply NoDup_singleton].
    intros k Hk ->%list_elem_of_singleton.
    rewrite Forall_forall in Hks. apply Hks in Hk. lia.
  - apply Forall2_app.
    + eapply Forall2_impl; [done|]. simpl. intros a k Ha.
      rewrite (id_at_grow t t' _ a Hview'); [done|]. by eapply id_at_valid.
    + constructor; [|constructor].
      rewrite id_at_view, Hview', fmap_cons, <-(length_view t), lookup_middle.
      simpl. by rewrite Hid.
Qed.

(** *** Membership and removal in [self.elements] *)

Lemma returns_contains a s (Q : bool → ExcalidrawAgent → Prop) :
  Q (existsb (same_dict (objects s) a) (elements s)) s → returns (contains a) s Q.
Proof. intros. by apply returns_gets. Qed.

Lemma returns_remove a s (Q : unit → ExcalidrawAgent → Prop) :
  existsb (same_dict (objects s) a) (elements s) = true →
  Q tt (set_elements (remove_first (same_dict (objects s) a) (elements s)) s) →
  returns (remove a) s Q.
Proof.
  intros Hin HQ. unfold remove. mstep. apply returns_contains. rewrite Hin.
  by apply returns_modify.
Qed.

Lemma same_dict_id h a r :
  same_dict h a r = true → ∃ b, r = Some b ∧ El.id <$> h !! b = El.id <$> h !! a.
Proof.
  destruct r as [b|]; [|done]. simpl. intros Hor. exists b. split; [done|].
  apply orb_true_iff in Hor as [Heq|Heq]; apply bool_decide_eq_true in Heq.
  - by subst.
  - by rewrite Heq.
Qed.

Lemma same_dict_refl h a : same_dict h a (Some a) = true.
Proof. simpl. by rewrite bool_decide_eq_true_2. Qed.

Lemma existsb_elem_of {A} (p : A → bool) l :
  existsb p l = true ↔ ∃ x, x ∈ l ∧ p x = true.
Proof.
  rewrite existsb_exists. by setoid_rewrite list_elem_of_In.
Qed.

Lemma existsb_false {A} (p : A → bool) l :
  (∀ x, x ∈ l → p x = false) → existsb p l = false.
Proof.
  intros Hall. destruct (existsb p l) eqn:Hex; [|done].
  apply existsb_elem_of in Hex as (x & Hin & Hp). by rewrite Hall in Hp.
Qed.

Lemma elem_of_remove_first p l r : r ∈ remove_first p l → r ∈ l.
Proof.
  induction l as [|x l IH]; simpl; [done|].
  destruct (p x); [by right|].
  intros [->|Hin]%elem_of_cons; [by left|right; auto].
Qed.

Lemma remove_first_middle p l x l' :
  (∀ r, r ∈ l → p r = false) → p x = true →
  remove_first p (l ++ x :: l') = l ++ l'.
Proof.
  intros Hl Hx. induction l as [|y l IH]; simpl; [by rewrite Hx|].
  rewrite Hl by left. f_equal. apply IH. intros r Hr. apply Hl. by right.
Qed.

Lemma present_intro i s b :
  Some b ∈ elements s → id_at s b = Some i → present i s.
Proof.
  intros Hin Hid. apply Exists_exists. exists (Some b). split; [done|].
  by rewrite <-Hid.
Qed.

Lemma returns_create_arrow sid eid sp ep st w s (Q : addr → ExcalidrawAgent → Prop) :
  wf s → all_dicts s → present sid s → present eid s → sid ≠ eid →
  (∀ s' e_a k,
     view s' = view s ++ [e_a] →
     elements s' = elements s →
     element_counter s' = (element_counter s + 1)%N →
     El.type e_a = "arrow" →
     El.keys e_a = ArrowKeys k →
     Binding.elementId (Arrow.startBinding k) = sid →
     Binding.elementId (Arrow.endBinding k) = eid →
     Q (length (objects s)) s') →
  returns (create_arrow sid eid sp ep st w) s Q.
Proof.
  intros Hwf Hall Hs He Hne HQ.
  destruct (proj2 (create_arrow_returns_iff sid eid sp ep st w s Hwf))
    as (a & s' & Heq); [done|].
  pose proof (create_arrow_outcome sid eid sp ep st w s) as Hout.
  rewrite Heq in Hout.
  apply view_arrow_made in Hout as (e_a & k & ? & -> & ? & ? & ? & ? & ? & ?).
  exists (length (objects s)), s'. split; [done|]. by eapply HQ.
Qed.

Lemma wf_elements s s' :
  length (objects s) ≤ length (objects s') →
  (∀ r, r ∈ elements s' → r ∈ elements s ∨ ∃ a, r = Some a ∧ a < length (objects s')) →
  wf s → wf s'.
Proof.
  intros Hlen Hsub Hwf. apply wf_intro. intros a Hin.
  destruct (Hsub _ Hin) as [Hold|(? & [= <-] & ?)]; [|done].
  eapply wf_valid in Hold; [lia|done].
Qed.

Lemma same_dict_fresh s a r i :
  id_at s a = Some i → (∀ b, r = Some b → id_at s b ≠ Some i) →
  same_dict (objects s) a r = false.
Proof.
  intros Ha Hr. destruct (same_dict (objects s) a r) eqn:Hsame; [|done].
  apply same_dict_id in Hsame as (b & -> & Hid). destruct (Hr b); [done|].
  unfold id_at in *. by rewrite Hid.
Qed.

Lemma sequential_arrow_step shapes j a1 a2 i1 i2 els t :
  shapes !! j = Some a1 → shapes !! (j + 1) = Some a2 →
  id_at t a1 = Some i1 → id_at t a2 = Some i2 → i1 ≠ i2 →
  wf t → all_dicts t →
  returns (sequential_arrow shapes els j) t
    (λ els' t',
       ∃ e_a k,
         view t' = view t ++ [e_a]
         ∧ El.type e_a = "arrow"
         ∧ El.keys e_a = ArrowKeys k
         ∧ Binding.elementId (Arrow.startBinding k) = i1
         ∧ Binding.elementId (Arrow.endBinding k) = i2
         ∧ els' = els ++ [Some (length (objects t))]
         ∧ wf t' ∧ all_dicts t'
         ∧ ((∀ b, Some b ∈ elements t → id_at t b ≠ Some i1 ∧ id_at t b ≠ Some i2) →
            elements t' = elements t)).
Proof.
  intros Hs1 Hs2 Hid1 Hid2 Hne Hwf Hall. unfold sequential_arrow.
  pose proof (id_at_valid _ _ _ Hid1) as Hv1.
  pose proof (id_at_valid _ _ _ Hid2) as Hv2.
  destruct (objects t !! a1) as [e1|] eqn:He1; [|by unfold id_at in Hid1; rewrite He1 in Hid1].
  destruct (objects t !! a2) as [e2|] eqn:He2; [|by unfold id_at in Hid2; rewrite He2 in Hid2].
  assert (El.id e1 = i1) as Hi1 by (unfold id_at in Hid1; rewrite He1 in Hid1; by injection Hid1).
  assert (El.id e2 = i2) as Hi2 by (unfold id_at in Hid2; rewrite He2 in Hid2; by injection Hid2).
  subst i1 i2.
  mstep. eapply returns_item; [done|].
  mstep. eapply returns_item; [done|].
  mstep. apply returns_contains.
  set (b1 := existsb (same_dict (objects t) a1) (elements t)).
  set (E1 := elements t ++ if b1 then [] else [Some a1]).
  mstep. apply returns_mono with (Q := λ _ t1, t1 = set_elements E1 t).
  { subst E1. destruct b1; [mstep|apply returns_add_element].
    - rewrite app_nil_r. by destruct t.
    - done. }
  intros _ ? ->.
  mstep. apply returns_contains. simpl.
  set (b2 := existsb (same_dict (objects t) a2) E1).
  set (E2 := E1 ++ if b2 then [] else [Some a2]).
  mstep. apply returns_mono with (Q := λ _ t2, t2 = set_elements E2 t).
  { subst E2. destruct b2; [mstep|apply returns_add_element].
    - by rewrite app_nil_r.
    - done. }
  intros _ ? ->.
  mstep. eapply returns_id_of; [done|].
  mstep. eapply returns_id_of; [done|].
  assert (∀ r, r ∈ E2 → r ∈ elements t ∨ r = Some a1 ∨ r = Some a2) as HE2.
  { intros r. subst E2 E1. rewrite !elem_of_app.
    intros [[?|Hr]|Hr]; [by left|..].
    - destruct b1; [by apply elem_of_nil in Hr|].
      apply list_elem_of_singleton in Hr. auto.
    - destruct b2; [by apply elem_of_nil in Hr|].
      apply list_elem_of_singleton in Hr. auto. }
  assert (present (El.id e1) (set_elements E2 t)) as Hp1.
  { destruct b1 eqn:Hb1.
    - apply existsb_elem_of in Hb1 as (r & Hin & (b & -> & Hsame)%same_dict_id).
      apply (present_intro _ _ b).
      + simpl. subst E2 E1. rewrite !elem_of_app. auto.
      + unfold id_at. simpl. by rewrite Hsame, He1.
    - apply (present_intro _ _ a1); [|done].
      simpl. subst E2 E1. rewrite !elem_of_app, list_elem_of_singleton. auto. }
  assert (present (El.id e2) (set_elements E2 t)) as Hp2.
  { destruct b2 eqn:Hb2.
    - apply existsb_elem_of in Hb2 as (r & Hin & (b & -> & Hsame)%same_dict_id).
      apply (present_intro _ _ b).
      + simpl. subst E2. rewrite !elem_of_app. auto.
      + unfold id_at. simpl. by rewrite Hsame, He2.
    - apply (present_intro _ _ a2); [|done].
      simpl. subst E2. rewrite !elem_of_app, list_elem_of_singleton. auto. }
  mstep. apply returns_create_arrow; try done.
  { apply (wf_elements t); [done| |done]. simpl. intros r Hr.
    destruct (HE2 r Hr) as [?|[->| ->]]; eauto. }
  { unfold all_dicts. simpl. intros Hn. by destruct (HE2 _ Hn) as [?|[?|?]]. }
  intros t3 e_a k Hview3 Hels3 Hcnt3 Htya Hka Hsb Heb.
  change (view t3 = view t ++ [e_a]) in Hview3.
  change (elements t3 = E2) in Hels3.
  assert (length (objects t3) = S (length (objects t))) as Hlen3.
  { rewrite <-!length_view, Hview3, length_app. simpl. lia. }
  mstep. apply returns_contains.
  set (b3 := existsb (same_dict (objects t3) a1) (elements t3)).
  set (E4 := if b3 then remove_first (same_dict (objects t3) a1) (elements t3)
             else elements t3).
  mstep. apply returns_mono with (Q := λ _ t4, t4 = set_elements E4 t3).
  { subst E4. destruct b3 eqn:Hb3; [by apply returns_remove|mstep].
    by destruct t3. }
  intros _ ? ->.
  mstep. apply returns_contains. simpl.
  set (b4 := existsb (same_dict (objects t3) a2) E4).
  set (E5 := if b4 then remove_first (same_dict (objects t3) a2) E4 else E4).
  mstep. apply returns_mono with (Q := λ _ t5, t5 = set_elements E5 t3).
  { subst E5. destruct b4 eqn:Hb4; [by apply returns_remove|by mstep]. }
  intros _ ? ->.
  mstep. exists e_a, k.
  assert (∀ r, r ∈ E5 → r ∈ E2) as HE5.
  { intros r. subst E5 E4. rewrite Hels3.
    destruct b4, b3; eauto using elem_of_remove_first. }
  split_and!; try done.
  - apply (wf_elements t); [simpl; lia| |done]. simpl. intros r Hr.
    destruct (HE2 r (HE5 r Hr)) as [?|[->| ->]]; [by left|right; eexists; split; [done|lia]..].
  - unfold all_dicts. simpl. intros Hn.
    by destruct (HE2 _ (HE5 _ Hn)) as [?|[?|?]].
  - intros Hfresh. simpl.
    assert (id_at t3 a1 = Some (El.id e1)) as Hid1'
      by (by rewrite (id_at_grow t t3 _ a1 Hview3)).
    assert (id_at t3 a2 = Some (El.id e2)) as Hid2'
      by (by rewrite (id_at_grow t t3 _ a2 Hview3)).
    assert (∀ b, Some b ∈ elements t →
              id_at t3 b ≠ Some (El.id e1) ∧ id_at t3 b ≠ Some (El.id e2)) as Hfresh'.
    { intros b Hb. rewrite (id_at_grow t t3 _ b Hview3); [by apply Hfresh|].
      by eapply wf_valid. }
    assert (b1 = false) as Hb1.
    { apply existsb_false. intros r Hr. eapply same_dict_fresh; [done|].
      intros b ->. by apply Hfresh. }
    assert (E1 = elements t ++ [Some a1]) as HE1 by (subst E1; by rewrite Hb1).
    assert (b2 = false) as Hb2.
    { apply existsb_false. intros r. rewrite HE1, elem_of_app, list_elem_of_singleton.
      intros [Hr| ->]; (eapply same_dict_fresh; [done|]).
      - intros b ->. by apply Hfresh.
      - intros b [= <-]. congruence. }
    assert (E2 = elements t ++ Some a1 :: [Some a2]) as HE2'.
    { subst E2. by rewrite Hb2, HE1, <-app_assoc. }
    assert (E4 = elements t ++ [Some a2]) as HE4.
    { subst E4. assert (b3 = true) as ->.
      { apply existsb_elem_of. exists (Some a1). split; [|apply same_dict_refl].
        rewrite Hels3, HE2', elem_of_app, !elem_of_cons. auto. }
      rewrite Hels3, HE2'. apply remove_first_middle; [|apply same_dict_refl].
      intros r Hr. eapply same_dict_fresh; [done|]. intros b ->. by apply Hfresh'. }
    subst E5. assert (b4 = true) as ->.
    { apply existsb_elem_of. exists (Some a2). split; [|apply same_dict_refl].
      rewrite HE4, elem_of_app, !elem_of_cons. auto. }
    rewrite HE4, (remove_first_middle _ _ _ []);
      [apply app_nil_r| |apply same_dict_refl].
    intros r Hr. eapply same_dict_fresh; [done|]. intros b ->. by apply Hfresh'.
Qed.

Lemma arrow_links_snoc arrows e k :
  El.type e = "arrow" → El.keys e = ArrowKeys k →
  arrow_links (arrows ++ [e])
  = arrow_links arrows ++ [(Binding.elementId (Arrow.startBinding k),
                            Binding.elementId (Arrow.endBinding k))].
Proof.
  intros Hty Hk. unfold arrow_links.
  rewrite filter_app, omap_app, filter_cons_True by done. simpl.
  by rewrite Hk.
Qed.

Lemma issued_not_later c i p k :
  p ∈ prefixes → issued c i → (c < k)%N → i ≠ fmt p k.
Proof.
  intros Hp (p' & k' & Hp' & Hk' & ->) Hlt Heq.
  apply fmt_inj in Heq; [lia|done..].
Qed.

Lemma sequential_second_pass s s1 new els1 shapes ks prefix :
  wf s → wf s1 → all_dicts s1 → elements s1 = elements s →
  view s1 = view s ++ new →
  prefix ∈ prefixes → NoDup ks → Forall (λ k, (element_counter s < k)%N) ks →
  Forall2 (λ a k, id_at s1 a = Some (fmt prefix k)) shapes ks →
  returns (for_each (seq 0 (length shapes - 1)) (sequential_arrow shapes) els1) s1
    (sequential_arrows_made s s1 els1 (fmt prefix <$> ks) (length shapes - 1)).
Proof.
  intros Hwf Hwf1 Hall1 Hels1 Hview1 Hp Hnd Hks Hsh.
  eapply returns_mono.
  { apply (returns_for_each
             (sequential_arrows_made s s1 els1 (fmt prefix <$> ks))).
    { exists []. rewrite !app_nil_r. by split_and!. }
    intros j x els t [-> Hj]%lookup_seq.
    intros (arrows & Hview & Hlen & -> & Hty & Hlinks & Hwft & Hallt & Hfresh).
    simpl.
    destruct (lookup_lt_is_Some_2 shapes j) as [a1 Ha1]; [lia|].
    destruct (lookup_lt_is_Some_2 shapes (j + 1)) as [a2 Ha2]; [lia|].
    destruct (Forall2_lookup_l _ _ _ _ _ Hsh Ha1) as (k1 & Hk1 & Hid1).
    destruct (Forall2_lookup_l _ _ _ _ _ Hsh Ha2) as (k2 & Hk2 & Hid2).
    assert (k1 ≠ k2) as Hne.
    { intros ->. pose proof (NoDup_lookup _ _ _ _ Hnd Hk1 Hk2). lia. }
    assert (∀ a i, id_at s1 a = Some i → id_at t a = Some i) as Hgrow.
    { intros a i Ha. rewrite (id_at_grow s1 t _ a Hview); [done|].
      by eapply id_at_valid. }
    eapply returns_mono.
    { apply (sequential_arrow_step shapes j a1 a2 (fmt prefix k1) (fmt prefix k2));
        try done; auto.
      intros Heq. by apply fmt_inj in Heq. }
    intros els' t' (e_a & k & Hview' & Htya & Hka & Hsb & Heb & -> & Hwf' & Hall'
                    & Hfresh').
    exists (arrows ++ [e_a]).
    assert (length (objects t) = length (objects s1) + j) as Hlent.
    { by rewrite <-!length_view, Hview, length_app, Hlen. }
    split_and!; try done.
    - by rewrite Hview', Hview, <-app_assoc.
    - rewrite length_app. simpl. lia.
    - rewrite seq_S, fmap_app, Hlent. by rewrite <-app_assoc.
    - apply Forall_app. split; [done|]. by apply Forall_singleton.
    - rewrite (arrow_links_snoc _ _ k), Hlinks, Hsb, Heb by done.
      symmetry. apply take_S_r. apply lookup_zip_Some.
      rewrite lookup_drop, !list_lookup_fmap, Hk1.
      replace (1 + j) with (j + 1) by lia. by rewrite Hk2.
    - intros Hiss. rewrite <-(Hfresh Hiss). apply Hfresh'.
      intros b Hb. rewrite (Hfresh Hiss) in Hb.
      pose proof (wf_valid _ _ Hwf Hb) as Hvb.
      assert (b < length (objects s1)) as Hvb1.
      { rewrite <-length_view, Hview1, length_app, length_view. lia. }
      rewrite (id_at_grow s1 t _ b Hview), (id_at_grow s s1 _ b Hview1) by done.
      destruct (objects s !! b) as [e|] eqn:He;
        [|by apply lookup_ge_None in He; lia].
      unfold id_at. rewrite He. simpl.
      assert (issued (element_counter s) (El.id e)) as Hie.
      { unfold ids_issued in Hiss. rewrite Forall_lookup in Hiss. by eapply Hiss. }
      rewrite Forall_lookup in Hks.
      split; intros [= Heq].
      + apply (issued_not_later _ _ prefix k1 Hp Hie); [by eapply Hks|done].
      + apply (issued_not_later _ _ prefix k2 Hp Hie); [by eapply Hks|done]. }
  intros els t. by rewrite length_seq.
Qed.

(** *** Counting by type *)

Lemma kinds_of_arrows (arrows : list El.t) :
  Forall (λ e, El.type e = "arrow") arrows →
  El.type <$> arrows = replicate (length arrows) "arrow".
Proof. induction 1 as [|e l He _ IH]; [done|]. by rewrite fmap_cons, He, IH. Qed.

Lemma filter_type_none (T : string) (ds : list El.t) :
  Forall (λ e, El.type e ≠ T) ds → filter (λ e, El.type e = T) ds = [].
Proof.
  induction 1 as [|e l He _ IH]; [done|]. by rewrite filter_cons_False.
Qed.

Lemma length_filter_type (T : string) (ds : list El.t) :
  length (filter (λ e, El.type e = T) ds)
  = length (filter (λ t, t = T) (El.type <$> ds)).
Proof.
  induction ds as [|e ds IH]; [done|]. rewrite fmap_cons, !filter_cons.
  destruct (decide (El.type e = T)); simpl; by rewrite IH.
Qed.

Lemma count_item_kinds ty items T :
  ty ≠ "text" →
  length (filter (λ t, t = T) (concat (item_kinds ty <$> items)))
  = (if decide (ty = T) then length items else 0)
    + (if decide ("text" = T)
       then length (filter (λ item, item ≠ "") items) else 0).
Proof.
  intros Hty. induction items as [|item items IH].
  { simpl. by repeat case_decide. }
  rewrite fmap_cons. change (concat (?x :: ?l)) with (x ++ concat l).
  rewrite filter_app, length_app, IH, (filter_cons (λ item, item ≠ "")).
  unfold item_kinds. destruct item as [|ch item].
  - rewrite (decide_False (P := "" ≠ "")) by (intros Hne; by apply Hne). simpl.
    rewrite filter_cons, filter_nil.
    repeat case_decide; simpl; try lia; congruence.
  - rewrite (decide_True (P := String ch item ≠ "")) by done. simpl.
    rewrite !filter_cons, filter_nil.
    repeat case_decide; simpl; try lia; congruence.
Qed.

Lemma count_replicate (T U : string) m :
  length (filter (λ t, t = T) (replicate m U)) = if decide (U = T) then m else 0.
Proof.
  induction m as [|m IH]; [simpl; by case_decide|].
  change (replicate (S m) U) with (U :: replicate m U).
  rewrite filter_cons. repeat case_decide; simpl; rewrite IH;
    try rewrite decide_True by done; try rewrite decide_False by done; try lia;
    congruence.
Qed.

Lemma seq_seq_app n a b :
  (Some <$> seq n a) ++ (Some <$> seq (n + a) b) = (Some <$> seq n (a + b) : list ref).
Proof. by rewrite seq_app, fmap_app. Qed.

Lemma sequential_layout_spec items x y item_type colors s :
  wf s → all_dicts s → colors ≠ Some [] →
  returns (create_sequential_layout items x y item_type colors) s
    (λ ret s',
       ∃ ks,
         ret = Some <$> seq (length (objects s)) (length (created s s'))
         ∧ El.type <$> created s s'
           = concat (item_kinds (shape_type item_type) <$> items)
             ++ replicate (length items - 1) "arrow"
         ∧ shape_ids (shape_type item_type) (created s s')
           = fmt (shape_prefix item_type) <$> ks
         ∧ length ks = length items
         ∧ NoDup ks
         ∧ arrow_links (created s s')
           = zip (fmt (shape_prefix item_type) <$> ks)
                 (drop 1 (fmt (shape_prefix item_type) <$> ks))
         ∧ wf s' ∧ all_dicts s'
         ∧ (ids_issued s → elements s' = elements s)).
Proof.
  intros Hwf Hall Hcolors. unfold create_sequential_layout.
  mstep. eapply returns_mono.
  { apply sequential_first_pass. by destruct colors as [[|]|]. }
  intros [[els1 shapes] cx] s1.
  intros (new & ks & Hview1 & Hels1 & Hcnt1 & -> & Hty & Hna & Hids & Hlen & Hks & Hnd
          & Hsh).
  assert (length (objects s1) = length (objects s) + length new) as Hlen1.
  { by rewrite <-!length_view, Hview1, length_app. }
  eapply returns_mono.
  { eapply (sequential_second_pass s s1 new _ shapes ks (shape_prefix item_type));
      try done.
    - apply (wf_elements s); [lia| |done]. rewrite Hels1. auto.
    - unfold all_dicts. by rewrite Hels1.
    - apply shape_prefix_prefixes.
    - eapply Forall_impl; [done|]. simpl. lia. }
  intros ret s'.
  intros (arrows & Hview & Hlena & -> & Htya & Hlinks & Hwf' & Hall' & Hfresh).
  assert (length shapes = length items) as Hlsh.
  { by rewrite (Forall2_length _ _ _ Hsh). }
  assert (created s s' = new ++ arrows) as Hcreated.
  { apply created_grow. by rewrite Hview, Hview1, <-app_assoc. }
  exists ks. rewrite Hcreated. split_and!; try done.
  - by rewrite Hlen1, seq_seq_app, length_app, Hlena.
  - rewrite fmap_app, Hty, take_ge by lia.
    by rewrite (kinds_of_arrows _ Htya), Hlena, Hlsh.
  - unfold shape_ids in *. rewrite filter_app, fmap_app, Hids.
    rewrite (filter_type_none (shape_type item_type) arrows).
    + by rewrite app_nil_r.
    + eapply Forall_impl; [done|]. simpl. intros e -> Heq.
      by eapply shape_type_not_arrow.
  - unfold arrow_links in *. rewrite filter_app, omap_app.
    rewrite (filter_type_none "arrow" new) by done. simpl.
    rewrite Hlinks. apply take_ge.
    rewrite length_zip, length_drop, !length_fmap. lia.
Qed.

Lemma sequential_layout_short items x y item_type colors s :
  length items ≤ 1 → (items ≠ [] → colors ≠ Some []) →
  returns (create_sequential_layout items x y item_type colors) s
    (λ ret s',
       ∃ ks,
         ret = Some <$> seq (length (objects s)) (length (created s s'))
         ∧ El.type <$> created s s'
           = concat (item_kinds (shape_type item_type) <$> items)
             ++ replicate (length items - 1) "arrow"
         ∧ shape_ids (shape_type item_type) (created s s')
           = fmt (shape_prefix item_type) <$> ks
         ∧ length ks = length items
         ∧ NoDup ks
         ∧ arrow_links (created s s')
           = zip (fmt (shape_prefix item_type) <$> ks)
                 (drop 1 (fmt (shape_prefix item_type) <$> ks))
         ∧ elements s' = elements s).
Proof.
  intros Hshort Hcolors. destruct items as [|item items].
  { exists [], s. split; [done|]. exists [].
    assert (created s s = []) as -> by (apply created_grow; by rewrite app_nil_r).
    split_and!; try done. constructor. }
  destruct items as [|? ?]; [|simpl in Hshort; lia].
  unfold create_sequential_layout.
  mstep. eapply returns_mono.
  { apply sequential_first_pass. specialize (Hcolors ltac:(done)).
    by destruct colors as [[|]|]. }
  intros [[els1 shapes] cx] s1.
  intros (new & ks & Hview1 & Hels1 & Hcnt1 & -> & Hty & Hna & Hids & Hlen & Hks & Hnd
          & Hsh).
  assert (length shapes = 1) as Hlsh by by rewrite (Forall2_length _ _ _ Hsh).
  rewrite Hlsh. simpl. mstep. exists ks.
  rewrite (created_grow s s1 new Hview1).
  rewrite firstn_all in Hty. simpl in Hty.
  destruct ks as [|k [|? ?]]; try done.
  split_and!; try done.
  - simpl. by rewrite Hty, !app_nil_r.
  - unfold arrow_links. by rewrite (filter_type_none "arrow" new).
Qed.

(** C6, as the specification has it, fails: with the empty list as palette
    the layout of one label raises a [ZeroDivisionError] and makes nothing,
    and on the agent a routing layout with an empty router label leaves
    behind the layout of two labels raises a [TypeError] and makes no
    arrow. *)
Lemma sequential_layout_counts_fail :
  create_sequential_layout ["A"] (int 50) (int 50) "rectangle" (Some []) init
  = (Raise ZeroDivisionError, init)
  ∧ ∃ s',
      create_sequential_layout ["A"; "B"] (int 50) (int 50) "rectangle" None
        null_entry = (Raise TypeError, s')
      ∧ El.type <$> created null_entry s'
        = ["rectangle"; "text"; "rectangle"; "text"].
Proof.
  split; [vm_compute; reflexivity|].
  eexists. split; vm_compute; reflexivity.
Qed.

(** C6, as the code has it.  When the palette is not the empty list and, for
    two labels or more, [self.elements] is a list of dicts, the sequential
    layout on [n] labels returns, having made, in this order, for each label
    a shape and, unless the label is empty, its text, and then [n - 1]
    arrows; it returns exactly these dicts: [n] shapes, one text per
    non-empty label (so at most [n]), and [n - 1] arrows, the [j]-th of which
    goes from the [j]-th shape to the next one.  On no labels it returns the
    empty list and does nothing, whatever the agent and the palette; on one
    label it makes no arrow, whatever [self.elements] holds. *)
Theorem sequential_layout_counts items x y item_type colors s :
  (items = [] → create_sequential_layout items x y item_type colors s = (Ok [], s))
  ∧ ((items ≠ [] → colors ≠ Some []) →
     (2 ≤ length items → wf s ∧ all_dicts s) →
     ∃ ret s',
       create_sequential_layout items x y item_type colors s = (Ok ret, s')
       ∧ ret = Some <$> seq (length (objects s)) (length (created s s'))
       ∧ El.type <$> created s s'
         = concat (item_kinds (shape_type item_type) <$> items)
           ++ replicate (length items - 1) "arrow"
       ∧ length (filter (λ e, El.type e = shape_type item_type) (created s s'))
         = length items
       ∧ length (filter (λ e, El.type e = "text") (created s s'))
         = length (filter (λ item, item ≠ "") items)
       ∧ length (filter (λ item, item ≠ "") items) ≤ length items
       ∧ length (filter (λ e, El.type e = "arrow") (created s s'))
         = length items - 1
       ∧ NoDup (shape_ids (shape_type item_type) (created s s'))
       ∧ arrow_links (created s s')
         = zip (shape_ids (shape_type item_type) (created s s'))
               (drop 1 (shape_ids (shape_type item_type) (created s s')))).
Proof.
  split; [by intros ->|].
  intros Hcolors Hlong.
  assert (∃ ret s' ks,
            create_sequential_layout items x y item_type colors s = (Ok ret, s')
            ∧ ret = Some <$> seq (length (objects s)) (length (created s s'))
            ∧ El.type <$> created s s'
              = concat (item_kinds (shape_type item_type) <$> items)
                ++ replicate (length items - 1) "arrow"
            ∧ shape_ids (shape_type item_type) (created s s')
              = fmt (shape_prefix item_type) <$> ks
            ∧ NoDup ks
            ∧ arrow_links (created s s')
              = zip (fmt (shape_prefix item_type) <$> ks)
                    (drop 1 (fmt (shape_prefix item_type) <$> ks)))
    as (ret & s' & ks & Heq & Hret & Hty & Hids & Hnd & Hlinks).
  { destruct (decide (2 ≤ length items)) as [Hn|Hn].
    - destruct (Hlong Hn) as [Hwf Hall].
      destruct (sequential_layout_spec items x y item_type colors s Hwf Hall)
        as (ret & s' & Heq & ks & ? & ? & ? & ? & ? & ? & _).
      { apply Hcolors. intros ->. simpl in Hn. lia. }
      by exists ret, s', ks.
    - destruct (sequential_layout_short items x y item_type colors s)
        as (ret & s' & Heq & ks & ? & ? & ? & ? & ? & ? & _); [lia|done|].
      by exists ret, s', ks. }
  exists ret, s'.
  pose proof (shape_type_not_text item_type) as Hnt.
  pose proof (shape_type_not_arrow item_type) as Hna.
  split_and!; try done.
  - rewrite length_filter_type, Hty, filter_app, length_app.
    rewrite count_item_kinds, count_replicate by done.
    repeat case_decide; try lia; congruence.
  - rewrite length_filter_type, Hty, filter_app, length_app.
    rewrite count_item_kinds, count_replicate by done.
    repeat case_decide; try lia; congruence.
  - apply length_filter.
  - rewrite length_filter_type, Hty, filter_app, length_app.
    rewrite count_item_kinds, count_replicate by done.
    repeat case_decide; try lia; congruence.
  - rewrite Hids. apply NoDup_fmap_2_strong; [|done].
    intros k k' _ _ Heq'. apply fmt_inj in Heq'; [done|apply shape_prefix_prefixes..].
  - by rewrite Hids.
Qed.

Lemma sequential_layout_counts_witness :
  (∃ ret s',
     create_sequential_layout ["A"; ""; "C"] (int 50) (int 50) "ellipse" None two_rects
     = (Ok ret, s')
     ∧ ret = Some <$> seq 4 (length (created two_rects s'))
     ∧ El.type <$> created two_rects s'
       = ["ellipse"; "text"; "ellipse"; "ellipse"; "text"; "arrow"; "arrow"]
     ∧ length (filter (λ e, El.type e = "ellipse") (created two_rects s')) = 3
     ∧ length (filter (λ e, El.type e = "text") (created two_rects s')) = 2
     ∧ 2 ≤ 3
     ∧ length (filter (λ e, El.type e = "arrow") (created two_rects s')) = 2
     ∧ NoDup (shape_ids "ellipse" (created two_rects s'))
     ∧ arrow_links (created two_rects s')
       = zip (shape_ids "ellipse" (created two_rects s'))
             (drop 1 (shape_ids "ellipse" (created two_rects s'))))
  ∧ (∃ ret s',
       create_sequential_layout ["A"] (int 50) (int 50) "rectangle" None null_entry
       = (Ok ret, s')
       ∧ El.type <$> created null_entry s' = ["rectangle"; "text"]
       ∧ length (filter (λ e, El.type e = "arrow") (created null_entry s')) = 0).
Proof.
  split.
  - apply (sequential_layout_counts ["A"; ""; "C"] (int 50) (int 50) "ellipse" None
             two_rects).
    + done.
    + intros _. split; by apply (bool_decide_unpack _); vm_compute.
  - destruct (proj2 (sequential_layout_counts ["A"] (int 50) (int 50) "rectangle" None
                       null_entry))
      as (ret & s' & Heq & _ & Hty & _ & _ & _ & Harrows & _).
    + done.
    + intros Hn. exfalso. clear -Hn. simpl in Hn. lia.
    + exists ret, s'. split_and!; [exact Heq|exact Hty|exact Harrows].
Defined.

(** ** The routing and the parallel layout *)

Lemma filter_not_arrow_grow t t' new (els : list ref) :
  view t' = view t ++ new →
  (∀ a, Some a ∈ els → a < length (objects t)) →
  filter (λ r, type_at t' r ≠ Some "arrow") els
  = filter (λ r, type_at t r ≠ Some "arrow") els.
Proof.
  intros Hview. induction els as [|r els IH]; intros Hvalid; [done|].
  rewrite !filter_cons, IH by (intros a Ha; apply Hvalid; by right).
  rewrite (type_at_grow t t' new r Hview); [done|].
  intros a ->. apply Hvalid. by left.
Qed.

Lemma lookup_view_new t t' new i :
  view t' = view t ++ new → view t' !! (length (objects t) + i) = new !! i.
Proof.
  intros ->. rewrite lookup_app_r by (rewrite length_view; lia).
  f_equal. rewrite length_view. lia.
Qed.

(** A labelled rectangle is made and appended with its text, and an arrow is
    drawn to it from [hub], a dict of [self.elements] with an older id. *)
Lemma returns_spoke {B} hub hid p k name x y color (K : addr → ref → addr → M B) t
    (Q : B → ExcalidrawAgent → Prop) :
  wf t → all_dicts t → name ≠ "" →
  Some hub ∈ elements t → id_at t hub = Some hid →
  hid = fmt p k → p ∈ prefixes → (k ≤ element_counter t)%N →
  (∀ t' sh tx e_a ka,
     view t' = view t ++ [sh; tx; e_a] →
     elements t' = elements t ++ [Some (length (objects t)); Some (S (length (objects t)))] →
     element_counter t' = (element_counter t + 3)%N →
     El.type sh = "rectangle" → El.id sh = fmt "rect" (element_counter t + 1) →
     El.type tx = "text" → El.type e_a = "arrow" →
     El.keys e_a = ArrowKeys ka →
     Binding.elementId (Arrow.startBinding ka) = hid →
     Binding.elementId (Arrow.endBinding ka) = El.id sh →
     wf t' → all_dicts t' →
     returns (K (length (objects t)) (Some (S (length (objects t))))
                (S (S (length (objects t))))) t' Q) →
  returns (let* (dest, dest_text) :=
             create_rectangle x y None None (Some name) (Some color) in
           let* _ := add_element (Some dest) in
           let* _ := add_element dest_text in
           let* hub_id := id_of hub in
           let* dest_id := id_of dest in
           let* arrow := create_arrow hub_id dest_id None None "solid" 2 in
           K dest dest_text arrow) t Q.
Proof.
  intros Hwf Hall Hname Hhub Hhid -> Hp Hk HK.
  mstep. apply returns_create_rectangle.
  { intros ? ? Htr. by destruct name. }
  intros sh tx t1 _ Hext Hidsh Htysh Hidtx Htytx.
  pose proof (view_extends _ _ _ _ Hext) as Hview1.
  destruct Hext as (Hobj1 & Hels1 & Hcnt1).
  mstep. apply returns_add_element. mstep. apply returns_add_element.
  set (t2 := set_elements _ _).
  assert (view t2 = view t ++ [frozen sh; frozen tx]) as Hview2 by done.
  assert (elements t2 = elements t ++ [Some (length (objects t));
                                       Some (S (length (objects t)))]) as Hels2.
  { subst t2. simpl. by rewrite Hels1, <-app_assoc. }
  assert (element_counter t2 = (element_counter t + 2)%N) as Hcnt2 by done.
  assert (length (objects t2) = S (S (length (objects t)))) as Hlen2.
  { rewrite <-!length_view, Hview2, length_app. simpl. lia. }
  assert (id_at t2 hub = Some (fmt p k)) as Hhid2.
  { rewrite (id_at_grow t t2 _ hub Hview2); [done|]. by eapply id_at_valid. }
  assert (id_at t2 (length (objects t)) = Some (El.id sh)) as Hdid2.
  { pose proof (lookup_view_new t t2 _ 0 Hview2) as Hl.
    rewrite Nat.add_0_r in Hl. by rewrite id_at_view, Hl. }
  assert (wf t2) as Hwf2.
  { apply (wf_elements t); [lia| |done]. intros r. rewrite Hels2, elem_of_app.
    intros [?|Hr]; [by left|right]. in_cases Hr; eexists; (split; [done|lia]). }
  assert (all_dicts t2) as Hall2.
  { unfold all_dicts. rewrite Hels2, elem_of_app. intros [?|Hr]; [done|].
    in_cases Hr. }
  clearbody t2.
  destruct (objects t2 !! hub) as [eh|] eqn:Heh;
    [|by unfold id_at in Hhid2; rewrite Heh in Hhid2].
  destruct (objects t2 !! length (objects t)) as [ed|] eqn:Hed;
    [|by unfold id_at in Hdid2; rewrite Hed in Hdid2].
  unfold id_at in Hhid2, Hdid2. rewrite Heh in Hhid2. rewrite Hed in Hdid2.
  injection Hhid2 as Hhid2. injection Hdid2 as Hdid2.
  mstep. eapply returns_id_of; [done|].
  mstep. eapply returns_id_of; [done|].
  rewrite Hhid2, Hdid2.
  mstep. apply returns_create_arrow; try done.
  { apply (present_intro _ _ hub).
    - rewrite Hels2, elem_of_app. by left.
    - unfold id_at. rewrite Heh. simpl. by rewrite Hhid2. }
  { apply (present_intro _ _ (length (objects t))).
    - rewrite Hels2, elem_of_app, !elem_of_cons. auto.
    - unfold id_at. rewrite Hed. simpl. by rewrite Hdid2. }
  { rewrite Hidsh. intros Heq. apply fmt_inj in Heq; [lia|done|apply prefix_rect]. }
  intros t3 e_a ka Hview3 Hels3 Hcnt3 Htya Hka Hsb Heb.
  rewrite Hlen2. apply (HK t3 (frozen sh) (frozen tx) e_a ka); try done.
  - by rewrite Hview3, Hview2, <-app_assoc.
  - congruence.
  - rewrite Hcnt3, Hcnt2. lia.
  - apply (wf_elements t2); [|by rewrite Hels3; auto|done].
    rewrite <-!length_view, Hview3, length_app. lia.
  - unfold all_dicts. by rewrite Hels3.
Qed.

Lemma type_at_new t t' new i e :
  view t' = view t ++ new → new !! i = Some e →
  type_at t' (Some (length (objects t) + i)) = Some (El.type e).
Proof.
  intros Hview Hi. by rewrite type_at_view, (lookup_view_new t t' new i Hview), Hi.
Qed.

Lemma spokes_made_step s hub_prefix hub_kinds i els t t' sh tx e_a :
  spokes_made s hub_prefix hub_kinds i els t →
  view t' = view t ++ [sh; tx; e_a] →
  elements t' = elements t ++ [Some (length (objects t)); Some (S (length (objects t)))] →
  element_counter t' = (element_counter t + 3)%N →
  El.type sh = "rectangle" → El.type tx = "text" → El.type e_a = "arrow" →
  wf t' → all_dicts t' →
  spokes_made s hub_prefix hub_kinds (S i)
    ((els ++ [Some (length (objects t)); Some (S (length (objects t)))])
     ++ [Some (S (S (length (objects t))))]) t'.
Proof.
  intros (new & Hview & -> & Hty & Hels & Hwf & Hall & Hcnt & Hhub & Hhid).
  intros Hview' Hels' Hcnt' Htysh Htytx Htya Hwf' Hall'.
  assert (length (objects t) = length (objects s) + length new) as Hlen.
  { by rewrite <-!length_view, Hview, length_app. }
  exists (new ++ [sh; tx; e_a]). split_and!; try done.
  - by rewrite Hview', Hview, <-app_assoc.
  - rewrite <-app_assoc, length_app, seq_app, fmap_app, Hlen. done.
  - rewrite fmap_app, Hty, replicate_S_end, concat_app, <-app_assoc. simpl.
    by rewrite Htysh, Htytx, Htya.
  - rewrite Hels', Hels, <-app_assoc, <-app_assoc. f_equal.
    rewrite filter_app. f_equal.
    + symmetry. apply (filter_not_arrow_grow t t' _ _ Hview').
      intros a (k & [= ->] & Hk)%list_elem_of_fmap. apply elem_of_seq in Hk. lia.
    + pose proof (type_at_new t t' _ 0 sh Hview' eq_refl) as H0.
      pose proof (type_at_new t t' _ 1 tx Hview' eq_refl) as H1.
      pose proof (type_at_new t t' _ 2 e_a Hview' eq_refl) as H2.
      rewrite Nat.add_0_r in H0. rewrite Nat.add_1_r in H1.
      replace (length (objects t) + 2) with (S (S (length (objects t)))) in H2 by lia.
      simpl app. rewrite !filter_cons, filter_nil, H0, H1, H2, Htysh, Htytx, Htya.
      rewrite !decide_True by done. by rewrite decide_False by (intros Hc; by apply Hc).
  - lia.
  - rewrite Hels', elem_of_app. by left.
  - rewrite (id_at_grow t t' _ _ Hview'); [done|]. by eapply id_at_valid.
Qed.

Lemma spokes_made_hub s hub_prefix hub_ty t sh tx :
  wf s → all_dicts s →
  view t = view s ++ [sh; tx] →
  elements t = elements s ++ [Some (length (objects s)); Some (S (length (objects s)))] →
  element_counter t = (element_counter s + 2)%N →
  El.type sh = hub_ty → hub_ty ≠ "arrow" → El.type tx = "text" →
  El.id sh = fmt hub_prefix (element_counter s + 1) →
  spokes_made s hub_prefix [hub_ty; "text"] 0
    [Some (length (objects s)); Some (S (length (objects s)))] t.
Proof.
  intros Hwf Hall Hview Hels Hcnt Htysh Hna Htytx Hidsh.
  pose proof (type_at_new s t _ 0 sh Hview eq_refl) as H0.
  pose proof (type_at_new s t _ 1 tx Hview eq_refl) as H1.
  rewrite Nat.add_0_r in H0. rewrite Nat.add_1_r in H1.
  assert (length (objects t) = S (S (length (objects s)))) as Hlen.
  { rewrite <-!length_view, Hview, length_app. simpl. lia. }
  exists [sh; tx]. split_and!; try done.
  - simpl. by rewrite Htysh, Htytx.
  - rewrite Hels. f_equal. rewrite !filter_cons, filter_nil, H0, H1, Htysh, Htytx.
    rewrite !decide_True; [done|done|]. intros [= ?]. done.
  - apply (wf_elements s); [lia| |done]. intros r. rewrite Hels, elem_of_app.
    intros [?|Hr]; [by left|right]. in_cases Hr; eexists; (split; [done|lia]).
  - unfold all_dicts. rewrite Hels, elem_of_app. intros [?|Hr]; [done|]. in_cases Hr.
  - lia.
  - rewrite Hels, elem_of_app, !elem_of_cons. auto.
  - pose proof (lookup_view_new s t _ 0 Hview) as Hl. rewrite Nat.add_0_r in Hl.
    rewrite id_at_view, Hl. simpl. by rewrite Hidsh.
Qed.

Lemma routing_layout_spec `{MathLib} router_name destinations x y rc dc s :
  wf s → all_dicts s →
  router_name ≠ "" → Forall (λ d, d ≠ "") destinations → destinations ≠ [] →
  dc ≠ Some [] →
  returns (create_routing_layout router_name destinations x y rc dc) s
    (spokes_made s "rect" ["rectangle"; "text"] (length destinations)).
Proof.
  intros Hwf Hall Hrouter Hdests Hne Hdc. unfold create_routing_layout.
  mstep. apply returns_create_rectangle.
  { intros ? ? Htr. by destruct router_name. }
  intros sh tx t1 _ Hext Hidsh Htysh Hidtx Htytx.
  pose proof (view_extends _ _ _ _ Hext) as Hview1.
  destruct Hext as (Hobj1 & Hels1 & Hcnt1).
  mstep. apply returns_add_element. mstep. apply returns_add_element.
  mstep. apply returns_truediv; [by apply length_ne_0|].
  mstep. apply returns_gets.
  set (t2 := set_elements _ _).
  assert (spokes_made s "rect" ["rectangle"; "text"] 0
            [Some (length (objects s)); Some (S (length (objects s)))] t2) as Hinv.
  { apply (spokes_made_hub s "rect" "rectangle" t2 (frozen sh) (frozen tx));
      try done.
    subst t2. simpl. by rewrite Hels1, <-app_assoc. }
  clearbody t2. rewrite <-(length_enumerate destinations).
  apply returns_for_each; [done|].
  intros i [j name'] els t [name [[= -> ->] Hname]]%lookup_enumerate_inv Hi.
  assert (name ≠ "") as Hnm.
  { rewrite Forall_lookup in Hdests. by eapply Hdests. }
  pose proof Hi as (new & _ & _ & _ & _ & Hwft & Hallt & Hcntt & Hhub & Hhid).
  unfold routing_destination.
  mstep. apply returns_pick; [by destruct dc as [[|]|]|]. intros color.
  eapply (returns_spoke (length (objects s)) _ "rect" (element_counter s + 1));
    try done; [apply prefix_rect|].
  intros t' sh' tx' e_a ka Hview' Hels' Hcnt' Htysh' _ Htytx' Htya _ _ _ Hwf' Hall'.
  mstep. by eapply spokes_made_step.
Qed.

Lemma spokes_made_layout s hub_prefix hub_kinds i els t :
  spokes_made s hub_prefix hub_kinds i els t →
  layout_made s (hub_kinds ++ concat (replicate i ["rectangle"; "text"; "arrow"])) els t.
Proof. intros (new & ? & ? & ? & ? & ? & ? & _). by exists new. Qed.

Lemma layout_made_shape_text s kinds els t t' sh tx :
  layout_made s kinds els t →
  view t' = view t ++ [sh; tx] →
  elements t' = elements t ++ [Some (length (objects t)); Some (S (length (objects t)))] →
  El.type sh ≠ "arrow" → El.type tx ≠ "arrow" →
  layout_made s (kinds ++ [El.type sh; El.type tx])
    (els ++ [Some (length (objects t)); Some (S (length (objects t)))]) t'.
Proof.
  intros (new & Hview & -> & Hty & Hels & Hwf & Hall) Hview' Hels' Hsh Htx.
  assert (length (objects t) = length (objects s) + length new) as Hlen.
  { by rewrite <-!length_view, Hview, length_app. }
  assert (length (objects t') = S (S (length (objects t)))) as Hlen'.
  { rewrite <-!length_view, Hview', length_app. simpl. lia. }
  exists (new ++ [sh; tx]). split_and!.
  - by rewrite Hview', Hview, <-app_assoc.
  - by rewrite length_app, seq_app, fmap_app, Hlen.
  - by rewrite fmap_app, Hty.
  - rewrite Hels', Hels, <-app_assoc. f_equal. rewrite filter_app. f_equal.
    + symmetry. apply (filter_not_arrow_grow t t' _ _ Hview').
      intros a (k & [= ->] & Hk)%list_elem_of_fmap. apply elem_of_seq in Hk. lia.
    + pose proof (type_at_new t t' _ 0 sh Hview' eq_refl) as H0.
      pose proof (type_at_new t t' _ 1 tx Hview' eq_refl) as H1.
      rewrite Nat.add_0_r in H0. rewrite Nat.add_1_r in H1.
      rewrite !filter_cons, filter_nil, H0, H1.
      rewrite !decide_True; [done|by intros [= ?]..].
  - apply (wf_elements t); [lia| |done]. intros r. rewrite Hels', elem_of_app.
    intros [?|Hr]; [by left|right]. in_cases Hr; eexists; (split; [done|lia]).
  - unfold all_dicts. rewrite Hels', elem_of_app. intros [?|Hr]; [done|]. in_cases Hr.
Qed.

Lemma layout_made_arrow s kinds els t t' e_a :
  layout_made s kinds els t →
  view t' = view t ++ [e_a] → elements t' = elements t → El.type e_a = "arrow" →
  layout_made s (kinds ++ ["arrow"]) (els ++ [Some (length (objects t))]) t'.
Proof.
  intros (new & Hview & -> & Hty & Hels & Hwf & Hall) Hview' Hels' Htya.
  assert (length (objects t) = length (objects s) + length new) as Hlen.
  { by rewrite <-!length_view, Hview, length_app. }
  assert (length (objects t') = S (length (objects t))) as Hlen'.
  { rewrite <-!length_view, Hview', length_app. simpl. lia. }
  exists (new ++ [e_a]). split_and!.
  - by rewrite Hview', Hview, <-app_assoc.
  - by rewrite length_app, seq_app, fmap_app, Hlen.
  - by rewrite fmap_app, Hty, <-Htya.
  - rewrite Hels', Hels. f_equal. rewrite filter_app.
    rewrite (filter_not_arrow_grow t t' _ _ Hview').
    + pose proof (type_at_new t t' _ 0 e_a Hview' eq_refl) as H0.
      rewrite Nat.add_0_r in H0.
      rewrite filter_cons, filter_nil, H0, Htya.
      rewrite decide_False by (intros Hc; by apply Hc). by rewrite app_nil_r.
    + intros a (k & [= ->] & Hk)%list_elem_of_fmap. apply elem_of_seq in Hk. lia.
  - apply (wf_elements t); [lia|by rewrite Hels'; auto|done].
  - unfold all_dicts. by rewrite Hels'.
Qed.

Lemma parallel_elements_ok_grow pes c c' t t' new extra :
  parallel_elements_ok pes c t →
  view t' = view t ++ new → elements t' = elements t ++ extra → (c ≤ c')%N →
  parallel_elements_ok pes c' t'.
Proof.
  intros Hpes Hview Hels Hc. eapply Forall_impl; [done|]. simpl.
  intros a (Hin & k & Hid & Hk). split.
  - rewrite Hels, elem_of_app. by left.
  - exists k. split; [|lia].
    rewrite (id_at_grow t t' _ a Hview); [done|]. by eapply id_at_valid.
Qed.

Lemma returns_id_at a i s (Q : string → ExcalidrawAgent → Prop) :
  id_at s a = Some i → Q i s → returns (id_of a) s Q.
Proof.
  unfold id_at. intros Hid HQ. destruct (objects s !! a) as [e|] eqn:He; [|done].
  injection Hid as <-. by eapply returns_id_of.
Qed.

Lemma parallel_layout_spec input_name parallel_items output_name x y colors s :
  wf s → all_dicts s →
  input_name ≠ "" → output_name ≠ "" → Forall (λ i, i ≠ "") parallel_items →
  colors ≠ Some [] →
  returns (create_parallel_layout input_name parallel_items output_name x y colors) s
    (layout_made s
       (["ellipse"; "text"]
        ++ concat (replicate (length parallel_items) ["rectangle"; "text"; "arrow"])
        ++ ["ellipse"; "text"]
        ++ replicate (length parallel_items) "arrow")).
Proof.
  intros Hwf Hall Hinput Houtput Hitems Hcolors. unfold create_parallel_layout.
  mstep. apply returns_create_ellipse.
  { intros ? ? Htr. by destruct input_name. }
  intros sh tx t1 _ Hext Hidsh Htysh Hidtx Htytx.
  pose proof (view_extends _ _ _ _ Hext) as Hview1.
  destruct Hext as (Hobj1 & Hels1 & Hcnt1).
  mstep. apply returns_add_element. mstep. apply returns_add_element.
  mstep. apply returns_gets.
  set (t2 := set_elements _ _).
  assert (spokes_made s "ellipse" ["ellipse"; "text"] 0
            [Some (length (objects s)); Some (S (length (objects s)))] t2) as Hinv.
  { apply (spokes_made_hub s "ellipse" "ellipse" t2 (frozen sh) (frozen tx));
      try done.
    subst t2. simpl. by rewrite Hels1, <-app_assoc. }
  clearbody t2.
  mstep. eapply returns_mono.
  { apply (returns_for_each
      (λ i '(els, pes) t,
         spokes_made s "ellipse" ["ellipse"; "text"] i els t
         ∧ length pes = i
         ∧ parallel_elements_ok pes (element_counter t) t)).
    { split_and!; [done..|]. constructor. }
    intros i [j name'] [els pes] t [name [[= -> ->] Hname]]%lookup_enumerate_inv.
    intros (Hi & Hlen & Hpes).
    assert (name ≠ "") as Hnm.
    { rewrite Forall_lookup in Hitems. by eapply Hitems. }
    pose proof Hi as (new & _ & _ & _ & _ & Hwft & Hallt & Hcntt & Hhub & Hhid).
    unfold parallel_item.
    mstep. apply returns_gets.
    mstep. apply returns_pick; [by destruct colors as [[|]|]|]. intros color.
    eapply (returns_spoke (length (objects s)) _ "ellipse" (element_counter s + 1));
      try done; [apply prefix_ellipse|].
    intros t' sh' tx' e_a ka Hview' Hels' Hcnt' Htysh' Hidsh' Htytx' Htya _ _ _
           Hwf' Hall'.
    mstep. split_and!.
    - by eapply spokes_made_step.
    - rewrite length_app. simpl. lia.
    - apply Forall_app. split.
      + eapply parallel_elements_ok_grow; [done..|lia].
      + apply Forall_singleton. split.
        * rewrite Hels', elem_of_app, !elem_of_cons. auto.
        * exists (element_counter t + 1)%N. split; [|lia].
          pose proof (lookup_view_new t t' _ 0 Hview') as Hl.
          rewrite Nat.add_0_r in Hl. rewrite id_at_view, Hl. simpl.
          by rewrite Hidsh'. }
  intros [els pes] t (Hi & Hlen & Hpes). rewrite length_enumerate in Hi, Hlen.
  apply spokes_made_layout in Hi.
  mstep. apply returns_gets.
  mstep. apply returns_create_ellipse.
  { intros ? ? Htr. by destruct output_name. }
  intros osh otx t3 _ Hext Hidosh Htyosh Hidotx Htyotx.
  pose proof (view_extends _ _ _ _ Hext) as Hview3.
  destruct Hext as (Hobj3 & Hels3 & Hcnt3).
  mstep. apply returns_add_element. mstep. apply returns_add_element.
  set (t4 := set_elements _ _).
  assert (view t4 = view t ++ [frozen osh; frozen otx]) as Hview4 by done.
  assert (elements t4 = elements t ++ [Some (length (objects t));
                                       Some (S (length (objects t)))]) as Hels4.
  { subst t4. simpl. by rewrite Hels3, <-app_assoc. }
  pose proof (layout_made_shape_text s _ els t t4 (frozen osh) (frozen otx) Hi
                Hview4 Hels4) as Hinv4.
  simpl in Hinv4. rewrite Htyosh, Htyotx in Hinv4.
  specialize (Hinv4 ltac:(done) ltac:(done)).
  assert (Some (length (objects t)) ∈ elements t4) as Hout.
  { rewrite Hels4, elem_of_app, !elem_of_cons. auto. }
  assert (id_at t4 (length (objects t))
          = Some (fmt "ellipse" (element_counter t + 1))) as Hoid.
  { pose proof (lookup_view_new t t4 _ 0 Hview4) as Hl.
    rewrite Nat.add_0_r in Hl. rewrite id_at_view, Hl. simpl. by rewrite Hidosh. }
  assert (parallel_elements_ok pes (element_counter t) t4) as Hpes4.
  { by eapply parallel_elements_ok_grow. }
  clearbody t4.
  eapply returns_mono.
  { apply (returns_for_each
      (λ j els u,
         layout_made s
           ((["ellipse"; "text"]
             ++ concat (replicate (length parallel_items) ["rectangle"; "text"; "arrow"]))
            ++ ["ellipse"; "text"] ++ replicate j "arrow") els u
         ∧ parallel_elements_ok pes (element_counter t) u
         ∧ Some (length (objects t)) ∈ elements u
         ∧ id_at u (length (objects t))
           = Some (fmt "ellipse" (element_counter t + 1)))).
    { by split_and!. }
    intros j a els' u Ha (Hu & Hpesu & Houtu & Hoidu).
    pose proof Hpesu as Hpa. unfold parallel_elements_ok in Hpa.
    rewrite Forall_lookup in Hpa. destruct (Hpa _ _ Ha) as (Hina & k & Hida & Hk).
    pose proof Hu as (newu & _ & _ & _ & _ & Hwfu & Hallu).
    unfold parallel_output_arrow.
    mstep. eapply returns_id_at; [done|].
    mstep. eapply returns_id_at; [done|].
    mstep. apply returns_create_arrow; try done;
      [by apply (present_intro _ _ a)
      |by apply (present_intro _ _ (length (objects t)))|].
    intros u' e_a ka Hviewu' Helsu' _ Htya _ _ _.
    mstep. split_and!.
    - pose proof (layout_made_arrow s _ els' u u' e_a Hu Hviewu' Helsu' Htya) as Hl.
      rewrite replicate_S_end. rewrite !app_assoc in Hl. by rewrite !app_assoc.
    - eapply parallel_elements_ok_grow; [done..|by rewrite app_nil_r|lia].
    - by rewrite Helsu'.
    - rewrite (id_at_grow u u' _ _ Hviewu'); [done|]. by eapply id_at_valid. }
  intros ret s' (Hlayout & _). by rewrite Hlen, <-app_assoc in Hlayout.
Qed.

Lemma layout_made_created s kinds ret s' :
  layout_made s kinds ret s' →
  ret = Some <$> seq (length (objects s)) (length (created s s'))
  ∧ El.type <$> created s s' = kinds
  ∧ elements s' = elements s ++ filter (λ r, type_at s' r ≠ Some "arrow") ret.
Proof.
  intros (new & Hview & -> & Hty & Hels & _).
  by rewrite (created_grow _ _ _ Hview).
Qed.

(** ** Claim on what the layouts append *)

(** C1, as the specification has it, fails: the sequential layout returns
    five dicts for two labels and leaves [self.elements] empty, and the
    routing layout returns its arrow without appending it. *)
Lemma layouts_do_not_append_all :
  (∃ ret s',
     create_sequential_layout ["A"; "B"] (int 50) (int 50) "rectangle" None init
     = (Ok ret, s')
     ∧ length ret = 5 ∧ elements s' = [])
  ∧ (∃ s',
       create_routing_layout (H:=rational_math) "Router" ["LLM1"] (int 50) (int 150)
         None None init
       = (Ok [Some 0; Some 1; Some 2; Some 3; Some 4], s')
       ∧ type_at s' (Some 4) = Some "arrow"
       ∧ (Some 4 ∉ elements s')
       ∧ elements s' = [Some 0; Some 1; Some 2; Some 3]).
Proof.
  split.
  - do 2 eexists. split; [vm_compute; reflexivity|]. by split.
  - eexists. split; [vm_compute; reflexivity|].
    split_and!; [done| |done].
    simpl. intros Hin. in_cases Hin.
Qed.

Lemma arrows_not_appended s s' n (ret : list ref) :
  wf s → ret = Some <$> seq (length (objects s)) n →
  elements s' = elements s ++ filter (λ r, type_at s' r ≠ Some "arrow") ret →
  Forall (λ r, type_at s' r = Some "arrow" → r ∉ elements s') ret.
Proof.
  intros Hwf -> Hels. apply Forall_forall.
  intros r (a & -> & Ha%elem_of_seq)%list_elem_of_fmap Hty.
  rewrite Hels, elem_of_app. intros [Hin|Hin].
  - pose proof (wf_valid _ _ Hwf Hin). lia.
  - by apply list_elem_of_filter in Hin as [? _].
Qed.

(** C1, as the code has it.  On an agent whose [self.elements] is a list of
    dicts, with a palette that is not the empty list and, for the routing and
    the parallel layout, non-empty labels (for the routing layout also at
    least one destination), every layout returns, having made its dicts one
    after the other, and returns all of them, shapes, texts and arrows, in
    that order.  No arrow the routing or the parallel layout made is in
    [self.elements], and the sequential layout, on an agent whose ids were
    all issued by its counter, has appended nothing: [self.elements] is what
    it was before the call. *)
Theorem layouts_return_all_append_no_arrow `{MathLib} s :
  wf s → all_dicts s →
  (∀ items x y item_type colors,
     colors ≠ Some [] →
     ∃ ret s',
       create_sequential_layout items x y item_type colors s = (Ok ret, s')
       ∧ ret = Some <$> seq (length (objects s)) (length (created s s'))
       ∧ El.type <$> created s s'
         = concat (item_kinds (shape_type item_type) <$> items)
           ++ replicate (length items - 1) "arrow"
       ∧ (ids_issued s → elements s' = elements s))
  ∧ (∀ router_name destinations x y rc dc,
       router_name ≠ "" → Forall (λ d, d ≠ "") destinations →
       destinations ≠ [] → dc ≠ Some [] →
       ∃ ret s',
         create_routing_layout router_name destinations x y rc dc s = (Ok ret, s')
         ∧ ret = Some <$> seq (length (objects s)) (length (created s s'))
         ∧ El.type <$> created s s'
           = ["rectangle"; "text"]
             ++ concat (replicate (length destinations) ["rectangle"; "text"; "arrow"])
         ∧ Forall (λ r, type_at s' r = Some "arrow" → r ∉ elements s') ret)
  ∧ (∀ input_name parallel_items output_name x y colors,
       input_name ≠ "" → output_name ≠ "" → Forall (λ i, i ≠ "") parallel_items →
       colors ≠ Some [] →
       ∃ ret s',
         create_parallel_layout input_name parallel_items output_name x y colors s
         = (Ok ret, s')
         ∧ ret = Some <$> seq (length (objects s)) (length (created s s'))
         ∧ El.type <$> created s s'
           = ["ellipse"; "text"]
             ++ concat (replicate (length parallel_items) ["rectangle"; "text"; "arrow"])
             ++ ["ellipse"; "text"]
             ++ replicate (length parallel_items) "arrow"
         ∧ Forall (λ r, type_at s' r = Some "arrow" → r ∉ elements s') ret).
Proof.
  intros Hwf Hall. split_and!.
  - intros items x y item_type colors Hcolors.
    destruct (sequential_layout_spec items x y item_type colors s Hwf Hall Hcolors)
      as (ret & s' & Heq & ks & Hret & Hty & _ & _ & _ & _ & _ & _ & Hfresh).
    by exists ret, s'.
  - intros router_name destinations x y rc dc Hrouter Hdests Hne Hdc.
    destruct (routing_layout_spec router_name destinations x y rc dc s Hwf Hall
                Hrouter Hdests Hne Hdc) as (ret & s' & Heq & Hmade).
    apply spokes_made_layout, layout_made_created in Hmade as (Hret & Hty & Hels).
    exists ret, s'. split_and!; [done..|]. by eapply arrows_not_appended.
  - intros input_name parallel_items output_name x y colors Hin Hout Hitems Hcolors.
    destruct (parallel_layout_spec input_name parallel_items output_name x y colors
                s Hwf Hall Hin Hout Hitems Hcolors) as (ret & s' & Heq & Hmade).
    apply layout_made_created in Hmade as (Hret & Hty & Hels).
    exists ret, s'. split_and!; [done..|]. by eapply arrows_not_appended.
Qed.

Lemma layouts_return_all_append_no_arrow_witness :
  (∃ ret s',
     create_sequential_layout ["Input"; "Process"; "Output"] (int 50) (int 50)
       "rectangle" None two_rects = (Ok ret, s')
     ∧ ret = Some <$> seq 4 (length (created two_rects s'))
     ∧ El.type <$> created two_rects s'
       = ["rectangle"; "text"; "rectangle"; "text"; "rectangle"; "text";
          "arrow"; "arrow"]
     ∧ elements s' = elements two_rects)
  ∧ (∃ ret s',
       create_routing_layout (H:=rational_math) "Router" ["LLM1"; "LLM2"]
         (int 50) (int 150) None None two_rects = (Ok ret, s')
       ∧ ret = Some <$> seq 4 (length (created two_rects s'))
       ∧ El.type <$> created two_rects s'
         = ["rectangle"; "text"; "rectangle"; "text"; "arrow";
            "rectangle"; "text"; "arrow"]
       ∧ Forall (λ r, type_at s' r = Some "arrow" → r ∉ elements s') ret)
  ∧ (∃ ret s',
       create_parallel_layout "Input" ["Process A"] "Output" (int 50) (int 300)
         None two_rects = (Ok ret, s')
       ∧ ret = Some <$> seq 4 (length (created two_rects s'))
       ∧ El.type <$> created two_rects s'
         = ["ellipse"; "text"; "rectangle"; "text"; "arrow"; "ellipse"; "text";
            "arrow"]
       ∧ Forall (λ r, type_at s' r = Some "arrow" → r ∉ elements s') ret).
Proof.
  destruct (layouts_return_all_append_no_arrow (H:=rational_math) two_rects)
    as (Hseq & Hrouting & Hparallel).
  { by apply (bool_decide_unpack _); vm_compute. }
  { by apply (bool_decide_unpack _); vm_compute. }
  split_and!.
  - destruct (Hseq ["Input"; "Process"; "Output"] (int 50) (int 50) "rectangle" None)
      as (ret & s' & Heq & Hret & Hty & Hels); [done|].
    exists ret, s'. split_and!; [exact Heq|exact Hret|exact Hty|].
    apply Hels, unique_ids_after_all.
  - apply (Hrouting "Router" ["LLM1"; "LLM2"] (int 50) (int 150) None None);
      [done| |done..].
    by repeat constructor.
  - apply (Hparallel "Input" ["Process A"] "Output" (int 50) (int 300) None);
      [done..| |done].
    by repeat constructor.
Defined.

(** * Further properties of the code *)

(** ** What the factory and the binder compute *)

Lemma returns_eq {A} (m : M A) s a s' :
  returns m s (λ b t, b = a ∧ t = s') → m s = (Ok a, s').
Proof. by intros (? & ? & -> & -> & ->). Qed.

Lemma create_base_element_eq ty x y w h i s :
  _create_base_element ty x y w h (Some i) s
  = (Ok (length (objects s)),
     set_objects (objects s ++ [base_dict (current_group_id s) (element_counter s)
                                  ty x y w h i]) s).
Proof. reflexivity. Qed.

Lemma create_text_element_eq text x y cid fs s :
  create_text_element text x y cid fs s
  = (Ok (length (objects s)),
     grow [text_dict (current_group_id s) (element_counter s + 1) text x y cid
             (default (default_text_size s) fs)] 1 s).
Proof.
  apply returns_eq. unfold create_text_element, _create_base_element.
  mstep. eapply returns_mono with (Q := λ f s', f = default (default_text_size s) fs ∧ s' = s).
  { destruct fs; by mstep. }
  intros font_size ? [-> ->]. mstep. mstep. apply returns_generate_id.
  do 4 mstep. eexists _, _. split; [reflexivity|]. mstep.
  eapply returns_mutate; [apply lookup_last|]. mstep.
  split; [done|]. unfold grow, set_objects. simpl. by rewrite insert_last.
Qed.

Lemma create_shape_eq prefix ty round x y w h text bg s :
  create_shape prefix ty round x y w h text bg s
  = let g := current_group_id s in
    let c := element_counter s in
    let w := default (default_element_width s) w in
    let h := default (default_element_height s) h in
    let bg := default ColorScheme.TRANSPARENT bg in
    let n := length (objects s) in
    let sh := shape_dict g (c + 1) prefix ty round x y w h bg in
    match text with
    | Some (String _ _ as text) =>
        let ts := default_text_size s in
        (Ok (n, Some (S n)),
         grow [El.bind (Ref.mk (fmt "element" (c + 2)) "text") sh;
               label_dict g (c + 2) (fmt prefix (c + 1)) x y w h text ts] 2 s)
    | _ => (Ok (n, None), grow [sh] 1 s)
    end.
Proof.
  cbv zeta.
  destruct text as [[|ch text]|]; apply returns_eq; unfold create_shape.
  all: mstep; eapply returns_mono
         with (Q := λ f s', f = default (default_element_width s) w ∧ s' = s);
       [destruct w; by mstep|]; intros width ? [-> ->].
  all: mstep; eapply returns_mono
         with (Q := λ f s', f = default (default_element_height s) h ∧ s' = s);
       [destruct h; by mstep|]; intros height ? [-> ->].
  all: mstep; apply returns_generate_id.
  all: mstep; eexists _, _; split; [apply create_base_element_eq|].
  all: mstep; eapply returns_mutate; [apply lookup_last|]; simpl; rewrite insert_last.
  all: mstep.
  - by do 2 mstep.
  - do 2 mstep. mstep. eexists _, _. split; [apply create_text_element_eq|].
    unfold grow. simpl. rewrite <-app_assoc. simpl.
    replace (element_counter s + 1 + 1)%N with (element_counter s + 2)%N by lia.
    rewrite length_app, Nat.add_1_r.
    mstep. eapply returns_load.
    { simpl. rewrite lookup_app_r by lia.
      by replace (S (length (objects s)) - length (objects s)) with 1 by lia. }
    mstep. eapply returns_mutate; [simpl; apply lookup_middle|].
    simpl. rewrite insert_middle. by do 2 mstep.
  - by do 2 mstep.
Qed.

Lemma returns_inv {A} (m : M A) s a s' (Q : A → ExcalidrawAgent → Prop) :
  m s = (Ok a, s') → returns m s Q → Q a s'.
Proof. intros Heq (b & t & Heq' & HQ). rewrite Heq in Heq'. by simplify_eq. Qed.

Lemma last_cons_default {A} (x : A) l d : default d (last (x :: l)) = default x (last l).
Proof. rewrite last_cons. by destruct (last l). Qed.

Section scan_exact.
Context (start_element_id end_element_id : string) (s : ExcalidrawAgent).

Let body : ref * ref → ref → M (ref * ref) :=
  λ '(start_element, end_element) element,
    match element with
    | None => raise TypeError
    | Some a =>
        let* e := load a in
        if decide (El.id e = start_element_id) then ret (Some a, end_element)
        else if decide (El.id e = end_element_id) then ret (start_element, Some a)
        else ret (start_element, end_element)
    end.

Lemma scan_exact xs st0 en0 :
  Forall (λ r, is_Some (dict_at s r)) xs →
  for_each xs body (st0, en0) s
  = (Ok (default st0 (last (filter (λ r, El.id <$> dict_at s r = Some start_element_id) xs)),
         default en0 (last (filter (λ r, El.id <$> dict_at s r = Some end_element_id
                                         ∧ end_element_id ≠ start_element_id) xs))),
     s).
Proof.
  intros Hval. revert st0 en0. induction Hval as [|x xs [e Hx] _ IH]; intros st0 en0.
  { done. }
  destruct x as [a|]; [|by simpl in Hx]. simpl in Hx.
  assert (body (st0, en0) (Some a) s
          = (Ok (if decide (El.id e = start_element_id) then (Some a, en0)
                 else if decide (El.id e = end_element_id) then (st0, Some a)
                 else (st0, en0)), s)) as Hb.
  { unfold body, bind. rewrite (load_ok _ _ _ Hx). by repeat case_decide. }
  rewrite for_each_cons, (bind_ok _ _ _ _ _ Hb). clear Hb.
  destruct (decide (El.id e = start_element_id)) as [Hs|Hs].
  - rewrite IH, filter_cons_True by (simpl; by rewrite Hx, <-Hs).
    rewrite last_cons_default.
    rewrite (filter_cons_False (λ r, _ ∧ _)); [done|].
    simpl. rewrite Hx. simpl. intros [[= ?] ?]. congruence.
  - rewrite filter_cons_False by (simpl; rewrite Hx; simpl; congruence).
    destruct (decide (El.id e = end_element_id)) as [He|He]; rewrite IH.
    + rewrite filter_cons_True.
      * by rewrite last_cons_default.
      * simpl. rewrite Hx. simpl. split; congruence.
    + rewrite filter_cons_False; [done|].
      simpl. rewrite Hx. simpl. intros [[= ?] ?]. congruence.
Qed.
End scan_exact.

Lemma find_endpoints_exact sid eid s :
  Forall (λ r, is_Some (dict_at s r)) (elements s) →
  find_endpoints sid eid s = (Ok (start_entry sid s, end_entry sid eid s), s).
Proof.
  intros Hval. etrans; [apply (scan_exact sid eid s (elements s) None None Hval)|].
  unfold start_entry, end_entry. do 2 f_equal; by destruct (last _) as [[|]|].
Qed.

Lemma start_entry_Some sid s a :
  start_entry sid s = Some a → Some a ∈ elements s ∧ id_at s a = Some sid.
Proof.
  unfold start_entry. destruct (last _) as [r|] eqn:Hlast; [|done]. simpl.
  intros ->. apply last_Some_elem_of, list_elem_of_filter in Hlast.
  destruct Hlast as [? ?]. by split.
Qed.

Lemma end_entry_Some sid eid s a :
  end_entry sid eid s = Some a →
  Some a ∈ elements s ∧ id_at s a = Some eid ∧ eid ≠ sid.
Proof.
  unfold end_entry. destruct (last _) as [r|] eqn:Hlast; [|done]. simpl.
  intros ->. apply last_Some_elem_of, list_elem_of_filter in Hlast.
  destruct Hlast as [[? ?] ?]. by split_and!.
Qed.

Lemma find_endpoints_valid sid eid s r :
  find_endpoints sid eid s = (Ok r, s) →
  Forall (λ r, is_Some (dict_at s r)) (elements s).
Proof.
  intros Heq. destruct (find_endpoints_outcome sid eid s) as (r' & Heq' & Hr).
  rewrite Heq in Heq'. injection Heq' as <-. destruct r as [st en].
  destruct Hr as (Hnone & Hval & _). apply Forall_forall. intros [a|] Hin; [|done].
  by apply Hval.
Qed.

(** The agent [create_arrow] leaves when it returns. *)
Lemma create_arrow_ok sid eid sp ep st w s a s' :
  create_arrow sid eid sp ep st w s = (Ok a, s') →
  ∃ a_s a_e e_s e_e,
    start_entry sid s = Some a_s ∧ end_entry sid eid s = Some a_e
    ∧ objects s !! a_s = Some e_s ∧ objects s !! a_e = Some e_e
    ∧ a_s ≠ a_e
    ∧ a = length (objects s)
    ∧ s' = set_objects
             (<[a_e := El.bind (Ref.mk (fmt "arrow" (element_counter s + 1)) "arrow") e_e]>
                (<[a_s := El.bind (Ref.mk (fmt "arrow" (element_counter s + 1)) "arrow") e_s]>
                   (objects s ++
                    [arrow_dict (current_group_id s) (element_counter s + 1) sid eid
                       (start_anchor sp e_s) (end_anchor ep e_e) st w])))
             (set_element_counter (element_counter s + 1) s).
Proof.
  intros Heq. unfold create_arrow in Heq.
  destruct (find_endpoints_outcome sid eid s) as (r & Hfind & Hr).
  destruct r as [[st0 en0]|e|];
    [|by rewrite (bind_raise _ _ _ _ _ Hfind) in Heq
     |by rewrite (bind_stuck _ _ _ _ Hfind) in Heq].
  pose proof (find_endpoints_valid _ _ _ _ Hfind) as Hval.
  rewrite (find_endpoints_exact _ _ _ Hval) in Hfind.
  injection Hfind as <- <-.
  rewrite (bind_ok _ _ _ _ _ (find_endpoints_exact _ _ _ Hval)) in Heq.
  destruct (start_entry sid s) as [a_s|] eqn:Hs; [|done].
  destruct (end_entry sid eid s) as [a_e|] eqn:He; [|done].
  destruct (start_entry_Some _ _ _ Hs) as [Hin_s Hid_s].
  destruct (end_entry_Some _ _ _ _ He) as (Hin_e & Hid_e & Hne).
  unfold id_at in *.
  destruct (objects s !! a_s) as [e_s|] eqn:Hls; [|done].
  destruct (objects s !! a_e) as [e_e|] eqn:Hle; [|done].
  simpl in Hid_s, Hid_e.
  assert (a_s ≠ a_e) as Hneq by (intros ->; congruence).
  assert (a_s < length (objects s)) as Hlt_s by eauto using lookup_lt_Some.
  assert (a_e < length (objects s)) as Hlt_e by eauto using lookup_lt_Some.
  exists a_s, a_e, e_s, e_e. split_and!; try done.
  all: eapply (returns_inv _ _ _ _ (λ b t, b = length (objects s) ∧ t =
        set_objects
          (<[a_e := El.bind (Ref.mk (fmt "arrow" (element_counter s + 1)) "arrow") e_e]>
             (<[a_s := El.bind (Ref.mk (fmt "arrow" (element_counter s + 1)) "arrow") e_s]>
                (objects s ++
                 [arrow_dict (current_group_id s) (element_counter s + 1) sid eid
                    (start_anchor sp e_s) (end_anchor ep e_e) st w])))
          (set_element_counter (element_counter s + 1) s))) in Heq;
    [by destruct Heq|].
  all: mstep; eapply returns_mono with (Q := λ p t, p = start_anchor sp e_s ∧ t = s);
    [destruct sp; [by mstep|]; mstep; mstep; by mstep|];
    intros p_s ? [-> ->];
    mstep; eapply returns_mono with (Q := λ p t, p = end_anchor ep e_e ∧ t = s);
    [destruct ep; [by mstep|]; mstep; mstep; by mstep|];
    intros p_e ? [-> ->];
    mstep; apply returns_generate_id;
    mstep; eexists _, _; (split; [apply create_base_element_eq|]);
    mstep; (eapply returns_mutate; [apply lookup_last|]); simpl;
    rewrite insert_last;
    mstep; (eapply returns_mutate; [simpl; by rewrite lookup_app_l|]); simpl;
    mstep; (eapply returns_mutate;
            [simpl; by rewrite list_lookup_insert_ne, lookup_app_l|]); simpl;
    by mstep.
Qed.

(** ** The factory *)

Lemma text_centred_x (c l ts : num) :
  (c - l * ts * float_0_3 + l * (ts * float_0_6) / int 2 = c)%Qc.
Proof.
  assert (float_0_6 * / int 2 = float_0_3)%Qc as H
    by (apply Qc_is_canon; vm_compute; reflexivity).
  unfold Qcdiv. rewrite <-H. generalize (/ int 2)%Qc float_0_6. intros. ring.
Qed.

Lemma text_top_y (c ts : num) : (c - ts / int 2 + ts / int 2 = c)%Qc.
Proof. unfold Qcdiv. generalize (/ int 2)%Qc. intros. ring. Qed.

Lemma text_centred_y (c ts : num) :
  (c - ts / int 2 + ts * float_1_2 / int 2 = c + ts / int 10)%Qc.
Proof.
  assert (float_1_2 * / int 2 - / int 2 = / int 10)%Qc as H
    by (apply Qc_is_canon; vm_compute; reflexivity).
  unfold Qcdiv. rewrite <-H. generalize (/ int 2)%Qc float_1_2. intros. ring.
Qed.

Lemma len_ascii s : isascii s = true → len s = int (Z.of_nat (String.length s)).
Proof.
  intros Hs. unfold len. do 2 f_equal. induction s as [|c s IH]; [done|].
  simpl in *. apply andb_true_iff in Hs as [Hc%Nat.ltb_lt Hs]. rewrite (IH Hs).
  unfold is_continuation. destruct (Nat.leb_spec 128 (Ascii.nat_of_ascii c)); [lia|done].
Qed.

Lemma len_code_points : len "abc" = int 3 ∧ len "é" = int 1 ∧ len "日本" = int 2.
Proof. split_and!; apply Qc_is_canon; reflexivity. Qed.

(** X1.  In exact arithmetic [create_text_element] always returns.  It makes
    one dict of type [text], which it does not put into [self.elements]; the
    dict is [0.6 * font_size] wide per code point of the text and
    [1.2 * font_size] high, where [font_size] defaults to
    [default_text_size]; it is aligned [center]/[middle] when a non-empty
    container id is given and [left]/[top] otherwise, and records the
    container id as given. *)
Theorem create_text_element_made text x y container_id font_size s :
  ∃ e k s',
    create_text_element text x y container_id font_size s
    = (Ok (length (objects s)), s')
    ∧ objects s' = objects s ++ [e]
    ∧ elements s' = elements s
    ∧ El.type e = "text" ∧ El.x e = x ∧ El.y e = y
    ∧ El.width e
      = (len text * (default (default_text_size s) font_size * float_0_6))%Qc
    ∧ El.height e = (default (default_text_size s) font_size * float_1_2)%Qc
    ∧ El.boundElements e = []
    ∧ El.keys e = TextKeys k
    ∧ Text.text k = text ∧ Text.originalText k = text
    ∧ Text.fontSize k = default (default_text_size s) font_size
    ∧ Text.containerId k = container_id
    ∧ (Text.textAlign k, Text.verticalAlign k)
      = match container_id with
        | Some (String _ _) => ("center", "middle")
        | _ => ("left", "top")
        end.
Proof.
  eexists _, _, _. split; [apply create_text_element_eq|].
  split_and!; try reflexivity. by destruct container_id as [[|]|].
Qed.

(** X2.  [create_rectangle] and [create_ellipse] with a non-empty label
    always return a shape and a text, two new dicts that are not put into
    [self.elements].  The two refer to each other: the shape's
    ["boundElements"] holds exactly the text's id, the text's ["containerId"]
    is the shape's id.  In exact arithmetic the text is centred on the shape
    horizontally; its top edge is half a font size above the shape's centre
    line, so its box, which is [1.2 * default_text_size] high, is centred a
    tenth of the font size below it. *)
Theorem labelled_shape_made x y width height text background_color s :
  text ≠ "" →
  Forall (λ '(create, ty, prefix, round),
    ∃ sh tx k s',
      create x y width height (Some text) background_color s
      = (Ok (length (objects s), Some (S (length (objects s)))), s')
      ∧ objects s' = objects s ++ [sh; tx]
      ∧ elements s' = elements s
      ∧ element_counter s' = (element_counter s + 2)%N
      ∧ El.type sh = ty
      ∧ El.id sh = fmt prefix (element_counter s + 1)
      ∧ El.roundness sh = Some round
      ∧ El.x sh = x ∧ El.y sh = y
      ∧ El.width sh = default (default_element_width s) width
      ∧ El.height sh = default (default_element_height s) height
      ∧ El.backgroundColor sh = default ColorScheme.TRANSPARENT background_color
      ∧ El.boundElements sh = [Ref.mk (El.id tx) "text"]
      ∧ El.type tx = "text"
      ∧ El.id tx = fmt "element" (element_counter s + 2)
      ∧ El.keys tx = TextKeys k
      ∧ Text.text k = text
      ∧ Text.containerId k = Some (El.id sh)
      ∧ Text.textAlign k = "center" ∧ Text.verticalAlign k = "middle"
      ∧ (El.x tx + El.width tx / int 2 = El.x sh + El.width sh / int 2)%Qc
      ∧ (El.y tx + default_text_size s / int 2 = El.y sh + El.height sh / int 2)%Qc
      ∧ (El.y tx + El.height tx / int 2
         = El.y sh + El.height sh / int 2 + default_text_size s / int 10)%Qc)
    [(create_rectangle, "rectangle", "rect", 3%Z);
     (create_ellipse, "ellipse", "ellipse", 2%Z)].
Proof.
  intros Htext. destruct text as [|ch text]; [done|].
  repeat apply Forall_cons_2; [..|apply Forall_nil_2].
  all: eexists _, _, _, _;
    (split; [unfold create_rectangle, create_ellipse; rewrite create_shape_eq;
             reflexivity|]).
  all: split_and!.
  all: try lazymatch goal with
           | |- (_ + _)%Qc = _ => fail
           | |- _ => reflexivity
           end.
  all: simpl;
    lazymatch goal with
    | |- (_ - _ * _ * float_0_3 + _)%Qc = _ => apply text_centred_x
    | |- (_ - _ + _ * float_1_2 / _)%Qc = _ => apply text_centred_y
    | |- (_ - ?a + ?a)%Qc = _ => apply text_top_y
    end.
Qed.

Lemma labelled_shape_made_witness :
  "A" ≠ ""
  ∧ ∃ sh tx s',
      create_rectangle (int 50) (int 50) None None (Some "A") None init
      = (Ok (0, Some 1), s')
      ∧ objects s' = [sh; tx]
      ∧ El.boundElements sh = [Ref.mk (El.id tx) "text"]
      ∧ (El.x tx + El.width tx / int 2 = El.x sh + El.width sh / int 2)%Qc.
Proof.
  assert ("A" ≠ "") as Hne by done. split; [done|].
  pose proof (labelled_shape_made (int 50) (int 50) None None "A" None init Hne) as H.
  apply Forall_cons in H as [(sh & tx & k & s' & H) _].
  exists sh, tx, s'. by destruct_and!.
Defined.

(** X3.  Without a label ([None] or the empty string) [create_rectangle] and
    [create_ellipse] always return the shape and [None]: one new dict, with
    no ["boundElements"], that is not put into [self.elements]; width, height
    and background default to [default_element_width],
    [default_element_height] and [transparent]. *)
Theorem unlabelled_shape_made x y width height text background_color s :
  text = None ∨ text = Some "" →
  Forall (λ '(create, ty, prefix, round),
    ∃ sh s',
      create x y width height text background_color s
      = (Ok (length (objects s), None), s')
      ∧ objects s' = objects s ++ [sh]
      ∧ elements s' = elements s
      ∧ element_counter s' = (element_counter s + 1)%N
      ∧ El.type sh = ty
      ∧ El.id sh = fmt prefix (element_counter s + 1)
      ∧ El.roundness sh = Some round
      ∧ El.x sh = x ∧ El.y sh = y
      ∧ El.width sh = default (default_element_width s) width
      ∧ El.height sh = default (default_element_height s) height
      ∧ El.backgroundColor sh = default ColorScheme.TRANSPARENT background_color
      ∧ El.boundElements sh = []
      ∧ El.keys sh = NoKeys)
    [(create_rectangle, "rectangle", "rect", 3%Z);
     (create_ellipse, "ellipse", "ellipse", 2%Z)].
Proof.
  intros Htext.
  repeat apply Forall_cons_2; [..|apply Forall_nil_2].
  all: eexists _, _;
    (split; [unfold create_rectangle, create_ellipse; rewrite create_shape_eq;
             by destruct Htext as [-> | ->]|]).
  all: by split_and!.
Qed.

Lemma unlabelled_shape_made_witness :
  ∃ sh s',
    create_ellipse (int 0) (int 0) None None (Some "") None init = (Ok (0, None), s')
    ∧ objects s' = [sh] ∧ El.boundElements sh = [].
Proof.
  pose proof (unlabelled_shape_made (int 0) (int 0) None None (Some "") None init
                (or_intror eq_refl)) as H.
  apply Forall_cons in H as [_ H]. apply Forall_cons in H as [(sh & s' & H) _].
  exists sh, s'. by destruct_and!.
Defined.

(** ** Whatever a method does *)

Section keeps.
Context (P : ExcalidrawAgent → Prop).

Lemma keeps_ret {A} (a : A) : keeps P (ret a).
Proof. by intros s. Qed.

Lemma keeps_raise {A} e : keeps P (raise (A:=A) e).
Proof. by intros s. Qed.

Lemma keeps_gets {A} (f : ExcalidrawAgent → A) : keeps P (gets f).
Proof. by intros s. Qed.

Lemma keeps_bind {A B} (m : M A) (k : A → M B) :
  keeps P m → (∀ a, keeps P (k a)) → keeps P (bind m k).
Proof.
  intros Hm Hk s Hs. specialize (Hm s Hs). unfold bind.
  destruct (m s) as [[a|e|] s']; [by apply Hk|done..].
Qed.

Lemma keeps_for_each {A B} (xs : list A) (body : B → A → M B) acc :
  (∀ acc x, keeps P (body acc x)) → keeps P (for_each xs body acc).
Proof.
  intros Hbody. revert acc. induction xs as [|x xs IH]; intros acc.
  - apply keeps_ret.
  - simpl. apply keeps_bind; [apply Hbody|]. intros acc'. apply IH.
Qed.

Lemma keeps_load a : keeps P (load a).
Proof. intros s Hs. unfold load. by destruct (objects s !! a). Qed.

Lemma keeps_id_of a : keeps P (id_of a).
Proof. apply keeps_bind; [apply keeps_load|]. intros e. apply keeps_ret. Qed.

Lemma keeps_pick colors i : keeps P (pick colors i).
Proof.
  intros s Hs. unfold pick. destruct (length colors); [done|].
  by destruct (colors !! _).
Qed.

Lemma keeps_item {A} (xs : list A) i : keeps P (item xs i).
Proof. intros s Hs. unfold item. by destruct (xs !! i). Qed.

Lemma keeps_truediv a b : keeps P (truediv a b).
Proof. intros s Hs. unfold truediv. by destruct (decide _). Qed.

Lemma keeps_contains a : keeps P (contains a).
Proof. apply keeps_gets. Qed.

Context (Helements : ∀ l s, P s → P (set_elements l s)).

Lemma keeps_add_element r : keeps P (add_element r).
Proof. intros s Hs. by apply Helements. Qed.

Lemma keeps_remove a : keeps P (remove a).
Proof.
  apply keeps_bind; [apply keeps_contains|]. intros [|]; [|apply keeps_raise].
  intros s Hs. by apply Helements.
Qed.

Context (Hrectangle : ∀ x y w h text bg, keeps P (create_rectangle x y w h text bg)).
Context (Hellipse : ∀ x y w h text bg, keeps P (create_ellipse x y w h text bg)).
Context (Harrow : ∀ sid eid, keeps P (create_arrow sid eid None None "solid" 2)).

Lemma keeps_sequential_arrows shapes els n :
  keeps P (for_each (seq 0 n) (sequential_arrow shapes) els).
Proof.
  apply keeps_for_each. intros els' i. unfold sequential_arrow.
  apply keeps_bind; [apply keeps_item|]. intros a1.
  apply keeps_bind; [apply keeps_item|]. intros a2.
  apply keeps_bind; [apply keeps_contains|]. intros b1.
  apply keeps_bind; [destruct b1; [apply keeps_ret|apply keeps_add_element]|]. intros _.
  apply keeps_bind; [apply keeps_contains|]. intros b2.
  apply keeps_bind; [destruct b2; [apply keeps_ret|apply keeps_add_element]|]. intros _.
  apply keeps_bind; [apply keeps_id_of|]. intros i1.
  apply keeps_bind; [apply keeps_id_of|]. intros i2.
  apply keeps_bind; [apply Harrow|]. intros arrow.
  apply keeps_bind; [apply keeps_contains|]. intros b3.
  apply keeps_bind; [destruct b3; [apply keeps_remove|apply keeps_ret]|]. intros _.
  apply keeps_bind; [apply keeps_contains|]. intros b4.
  apply keeps_bind; [destruct b4; [apply keeps_remove|apply keeps_ret]|]. intros _.
  apply keeps_ret.
Qed.

Lemma keeps_sequential_layout items x y item_type colors :
  keeps P (create_sequential_layout items x y item_type colors).
Proof.
  unfold create_sequential_layout. apply keeps_bind.
  - apply keeps_for_each. intros [[els shapes] cx] [i item]. unfold sequential_shape.
    apply keeps_bind; [apply keeps_pick|]. intros color.
    apply keeps_bind; [by destruct (decide _)|]. intros [shape text].
    apply keeps_bind; [apply keeps_gets|]. intros w.
    apply keeps_bind; [apply keeps_gets|]. intros sx. apply keeps_ret.
  - intros [[els shapes] cx]. apply keeps_sequential_arrows.
Qed.

Lemma keeps_spoke {B} hub x y name color (K : addr → ref → addr → M B) :
  (∀ a r b, keeps P (K a r b)) →
  keeps P (let* (dest, dest_text) :=
             create_rectangle x y None None (Some name) (Some color) in
           let* _ := add_element (Some dest) in
           let* _ := add_element dest_text in
           let* hub_id := id_of hub in
           let* dest_id := id_of dest in
           let* arrow := create_arrow hub_id dest_id None None "solid" 2 in
           K dest dest_text arrow).
Proof.
  intros HK. apply keeps_bind; [apply Hrectangle|]. intros [dest dest_text].
  apply keeps_bind; [apply keeps_add_element|]. intros _.
  apply keeps_bind; [apply keeps_add_element|]. intros _.
  apply keeps_bind; [apply keeps_id_of|]. intros i1.
  apply keeps_bind; [apply keeps_id_of|]. intros i2.
  apply keeps_bind; [apply Harrow|]. intros arrow. apply HK.
Qed.

Lemma keeps_routing_layout `{MathLib} router_name destinations x y rc dc :
  keeps P (create_routing_layout router_name destinations x y rc dc).
Proof.
  unfold create_routing_layout.
  apply keeps_bind; [apply Hrectangle|]. intros [router router_text].
  apply keeps_bind; [apply keeps_add_element|]. intros _.
  apply keeps_bind; [apply keeps_add_element|]. intros _.
  apply keeps_bind; [apply keeps_truediv|]. intros angle_step.
  apply keeps_bind; [apply keeps_gets|]. intros sx.
  apply keeps_for_each. intros els [i dest_name]. unfold routing_destination.
  apply keeps_bind; [apply keeps_pick|]. intros color.
  apply keeps_spoke. intros. apply keeps_ret.
Qed.

Lemma keeps_parallel_layout input_name parallel_items output_name x y colors :
  keeps P (create_parallel_layout input_name parallel_items output_name x y colors).
Proof.
  unfold create_parallel_layout.
  apply keeps_bind; [apply Hellipse|]. intros [input_elem input_text].
  apply keeps_bind; [apply keeps_add_element|]. intros _.
  apply keeps_bind; [apply keeps_add_element|]. intros _.
  apply keeps_bind; [apply keeps_gets|]. intros sx.
  apply keeps_bind.
  { apply keeps_for_each. intros [els pes] [i item_name]. unfold parallel_item.
    apply keeps_bind; [apply keeps_gets|]. intros sy.
    apply keeps_bind; [apply keeps_pick|]. intros color.
    apply (keeps_spoke input_elem _ _ _ _
             (λ item item_text arrow,
                ret ((els ++ [Some item; item_text]) ++ [Some arrow], pes ++ [item]))).
    intros. apply keeps_ret. }
  intros [els pes].
  apply keeps_bind; [apply keeps_gets|]. intros sx'.
  apply keeps_bind; [apply Hellipse|]. intros [output_elem output_text].
  apply keeps_bind; [apply keeps_add_element|]. intros _.
  apply keeps_bind; [apply keeps_add_element|]. intros _.
  apply keeps_for_each. intros els' pe. unfold parallel_output_arrow.
  apply keeps_bind; [apply keeps_id_of|]. intros i1.
  apply keeps_bind; [apply keeps_id_of|]. intros i2.
  apply keeps_bind; [apply Harrow|]. intros arrow. apply keeps_ret.
Qed.
End keeps.

(** ** Steps of the factory and the binder *)

Section evolves.
Context (A : option Position → option Position → string → Z → Prop).
Context (s0 : ExcalidrawAgent).

Lemma evolves_create_text_element text x y cid fs :
  keeps (evolves A s0) (create_text_element text x y cid fs).
Proof. intros s Hs. rewrite create_text_element_eq. by apply evolves_text. Qed.

Lemma evolves_create_shape prefix ty round x y w h text bg :
  (prefix, ty, round) ∈ [("rect", RECTANGLE, 3%Z); ("ellipse", ELLIPSE, 2%Z)] →
  keeps (evolves A s0) (create_shape prefix ty round x y w h text bg).
Proof.
  intros Hin s Hs. rewrite create_shape_eq. cbv zeta.
  destruct text as [[|ch text]|]; simpl.
  - by apply evolves_shape.
  - by apply evolves_labelled.
  - by apply evolves_shape.
Qed.

Lemma evolves_create_rectangle x y w h text bg :
  keeps (evolves A s0) (create_rectangle x y w h text bg).
Proof. apply evolves_create_shape. left. Qed.

Lemma evolves_create_ellipse x y w h text bg :
  keeps (evolves A s0) (create_ellipse x y w h text bg).
Proof. apply evolves_create_shape. right. left. Qed.

Lemma evolves_create_arrow sid eid sp ep st w :
  A sp ep st w → keeps (evolves A s0) (create_arrow sid eid sp ep st w).
Proof.
  intros HA s Hs.
  pose proof (create_arrow_outcome sid eid sp ep st w s) as Hout.
  destruct (create_arrow sid eid sp ep st w s) as [[a|e|] s'] eqn:Heq; simpl.
  - apply create_arrow_ok in Heq
      as (a_s & a_e & e_s & e_e & Hs' & He' & Hls & Hle & _ & _ & ->).
    by eapply evolves_arrow.
  - by destruct Hout as [-> _].
  - by destruct Hout as [-> _].
Qed.

Lemma evolves_set_elements l s : evolves A s0 s → evolves A s0 (set_elements l s).
Proof. apply evolves_elements. Qed.

Context (Hlayout : A None None "solid" 2%Z).

Lemma evolves_sequential_arrows shapes els n :
  keeps (evolves A s0) (for_each (seq 0 n) (sequential_arrow shapes) els).
Proof.
  apply keeps_sequential_arrows;
    auto using evolves_set_elements, evolves_create_arrow.
Qed.

Lemma evolves_sequential_layout items x y item_type colors :
  keeps (evolves A s0) (create_sequential_layout items x y item_type colors).
Proof.
  apply keeps_sequential_layout;
    auto using evolves_set_elements, evolves_create_rectangle,
      evolves_create_ellipse, evolves_create_arrow.
Qed.

Lemma evolves_routing_layout `{MathLib} router_name destinations x y rc dc :
  keeps (evolves A s0) (create_routing_layout router_name destinations x y rc dc).
Proof.
  apply keeps_routing_layout;
    auto using evolves_set_elements, evolves_create_rectangle,
      evolves_create_ellipse, evolves_create_arrow.
Qed.

Lemma evolves_parallel_layout input_name parallel_items output_name x y colors :
  keeps (evolves A s0)
    (create_parallel_layout input_name parallel_items output_name x y colors).
Proof.
  apply keeps_parallel_layout;
    auto using evolves_set_elements, evolves_create_rectangle,
      evolves_create_ellipse, evolves_create_arrow.
Qed.
End evolves.

(** ** What the steps keep *)

Lemma open_group_eq s :
  open_group s
  = if truthy (current_group_id s) then option_list (current_group_id s) else [].
Proof. unfold open_group. by destruct (current_group_id s) as [[|]|]. Qed.

Lemma well_made_frozen e : well_made (frozen e) ↔ well_made e.
Proof. done. Qed.

Lemma well_made_bind r e : well_made (El.bind r e) ↔ well_made e.
Proof. done. Qed.

(** The seed of a dict made when the counter reads [c + 1]. *)
Lemma seed_new (c : N) : (0 < Z.of_N (c + 1))%Z ∧ Z.to_N (Z.of_N (c + 1)) = (c + 1)%N.
Proof. split; [lia|apply N2Z.id]. Qed.

Lemma well_made_text g c text x y cid fs : well_made (text_dict g (c + 1) text x y cid fs).
Proof.
  destruct (seed_new c) as [Hpos Hk]. unfold well_made. simpl. rewrite Hk.
  by split_and!.
Qed.

Lemma well_made_shape g c prefix ty round x y w h bg :
  (prefix, ty, round) ∈ [("rect", RECTANGLE, 3%Z); ("ellipse", ELLIPSE, 2%Z)] →
  well_made (shape_dict g (c + 1) prefix ty round x y w h bg).
Proof.
  intros Hin. destruct (seed_new c) as [Hpos Hk]. unfold well_made. simpl.
  rewrite Hk. split_and!; try done.
  in_cases Hin; simplify_eq; [by left|by right].
Qed.

Lemma well_made_arrow g c sid eid p_s p_e st w :
  well_made (arrow_dict g (c + 1) sid eid p_s p_e st w).
Proof.
  destruct (seed_new c) as [Hpos Hk]. unfold well_made. simpl. rewrite Hk.
  by split_and!.
Qed.

Lemma entries_differ sid eid s a_s a_e :
  start_entry sid s = Some a_s → end_entry sid eid s = Some a_e →
  id_at s a_s = Some sid ∧ id_at s a_e = Some eid ∧ a_s ≠ a_e.
Proof.
  intros [_ Hs]%start_entry_Some (_ & He & Hne)%end_entry_Some.
  split_and!; [done..|]. intros ->. congruence.
Qed.

(** What all steps keep of the agent and of the dicts it has made. *)
Lemma evolves_view A s s' :
  evolves A s s' →
  ∃ new,
    view s' = view s ++ new
    ∧ current_group_id s' = current_group_id s
    ∧ group_counter s' = group_counter s
    ∧ (element_counter s ≤ element_counter s')%N
    ∧ Forall (λ e, El.groupIds e = open_group s) new
    ∧ Forall well_made new.
Proof.
  induction 1 as [|l s' _ IH|text x y cid fs s' _ IH
                  |prefix ty round x y w h bg s' _ IH Hin
                  |prefix ty round x y w h bg ch text s' _ IH Hin
                  |sid eid sp ep st w a_s a_e e_s e_e s' _ IH HA Hs He Hls Hle].
  - exists []. rewrite app_nil_r. by split_and!.
  - done.
  - destruct IH as (new & Hview & Hg & Hgc & Hc & Hgrp & Hwm).
    eexists (new ++ [_]). unfold view in *. simpl. rewrite fmap_app, Hview, <-app_assoc.
    split_and!; [done|done|done|lia|..].
    + apply Forall_app. split; [done|]. apply Forall_singleton. simpl.
      by rewrite open_group_eq, Hg.
    + apply Forall_app. split; [done|]. apply Forall_singleton.
      apply well_made_frozen, well_made_text.
  - destruct IH as (new & Hview & Hg & Hgc & Hc & Hgrp & Hwm).
    eexists (new ++ [_]). unfold view in *. simpl. rewrite fmap_app, Hview, <-app_assoc.
    split_and!; [done|done|done|lia|..].
    + apply Forall_app. split; [done|]. apply Forall_singleton. simpl.
      by rewrite open_group_eq, Hg.
    + apply Forall_app. split; [done|]. apply Forall_singleton.
      by apply well_made_frozen, well_made_shape.
  - destruct IH as (new & Hview & Hg & Hgc & Hc & Hgrp & Hwm).
    eexists (new ++ [_; _]). unfold view in *. simpl.
    rewrite fmap_app, Hview, <-app_assoc.
    split_and!; [done|done|done|lia|..].
    + apply Forall_app. split; [done|].
      repeat apply Forall_cons_2; [..|apply Forall_nil_2]; simpl;
        by rewrite open_group_eq, Hg.
    + apply Forall_app. split; [done|].
      repeat apply Forall_cons_2; [..|apply Forall_nil_2].
      * by apply well_made_frozen, well_made_bind, well_made_shape.
      * replace (element_counter s' + 2)%N with ((element_counter s' + 1) + 1)%N by lia.
        apply well_made_frozen, well_made_text.
  - destruct IH as (new & Hview & Hg & Hgc & Hc & Hgrp & Hwm).
    assert (a_s < length (objects s')) as Hlt_s by eauto using lookup_lt_Some.
    assert (a_e < length (objects s')) as Hlt_e by eauto using lookup_lt_Some.
    destruct (entries_differ _ _ _ _ _ Hs He) as (Hids & Hide & Hne).
    eexists (new ++ [_]). unfold view in *. simpl.
    rewrite !view_insert_bind, fmap_app, Hview, <-app_assoc;
      [|by rewrite lookup_app_l
       |by rewrite list_lookup_insert_ne, lookup_app_l].
    split_and!; [done|done|done|lia|..].
    + apply Forall_app. split; [done|]. apply Forall_singleton. simpl.
      by rewrite open_group_eq, Hg.
    + apply Forall_app. split; [done|]. apply Forall_singleton.
      apply well_made_frozen, well_made_arrow.
Qed.

Lemma evolves_unique_ids A s s' : evolves A s s' → unique_ids s → unique_ids s'.
Proof.
  intros Hev Huniq.
  induction Hev as [|l s' _ IH|text x y cid fs s' _ IH
                    |prefix ty round x y w h bg s' _ IH Hin
                    |prefix ty round x y w h bg ch text s' _ IH Hin
                    |sid eid sp ep st w a_s a_e e_s e_e s' _ IH HA Hs He Hls Hle].
  - done.
  - done.
  - eapply (unique_ids_extends s' _ _ None "element"); [done|by split_and!|by left|done|done].
  - eapply (unique_ids_extends s' _ _ None prefix); [done|by split_and!| |done|done].
    in_cases Hin; simplify_eq; [apply prefix_rect|apply prefix_ellipse].
  - eapply (unique_ids_extends s' _ _ (Some _) prefix); [done|by split_and!| |done|].
    + in_cases Hin; simplify_eq; [apply prefix_rect|apply prefix_ellipse].
    + by intros t [= <-].
  - destruct (entries_differ _ _ _ _ _ Hs He) as (Hids & Hide & Hne).
    assert (a_s < length (objects s')) as Hlt_s by eauto using lookup_lt_Some.
    assert (a_e < length (objects s')) as Hlt_e by eauto using lookup_lt_Some.
    destruct IH as [Hnd Hiss].
    destruct (unique_snoc _ _
                (arrow_dict (current_group_id s') (element_counter s' + 1) sid eid
                   (start_anchor sp e_s) (end_anchor ep e_e) st w)
                "arrow" Hnd Hiss) as [Hnd1 Hiss1];
      [unfold prefixes; rewrite !elem_of_cons; auto|done|].
    apply unique_ids_fmap. simpl.
    rewrite !fmap_id_insert_bind;
      [|by rewrite lookup_app_l|by rewrite list_lookup_insert_ne, lookup_app_l].
    by rewrite Forall_fmap.
Qed.

(** A dict that was made stays at its address and only ever gains entries of
    its ["boundElements"]. *)
Lemma evolves_lookup A s s' a e :
  evolves A s s' → objects s !! a = Some e →
  ∃ e', objects s' !! a = Some e' ∧ frozen e' = frozen e
        ∧ El.boundElements e `prefix_of` El.boundElements e'.
Proof.
  intros Hev Ha.
  induction Hev as [|l s' _ IH|text x y cid fs s' _ IH
                    |prefix ty round x y w h bg s' _ IH Hin
                    |prefix ty round x y w h bg ch text s' _ IH Hin
                    |sid eid sp ep st w a_s a_e e_s e_e s' _ IH HA Hs He Hls Hle].
  - by exists e.
  - done.
  - destruct IH as (e' & He' & ? & ?). exists e'. simpl.
    by rewrite (lookup_app_l_Some _ _ _ _ He').
  - destruct IH as (e' & He' & ? & ?). exists e'. simpl.
    by rewrite (lookup_app_l_Some _ _ _ _ He').
  - destruct IH as (e' & He' & ? & ?). exists e'. simpl.
    by rewrite (lookup_app_l_Some _ _ _ _ He').
  - destruct IH as (e' & He' & Hfr & Hpre). simpl.
    destruct (entries_differ _ _ _ _ _ Hs He) as (_ & _ & Hne).
    assert (a < length (objects s')) as Hlt by eauto using lookup_lt_Some.
    assert (a_s < length (objects s')) as Hlt_s by eauto using lookup_lt_Some.
    assert (a_e < length (objects s')) as Hlt_e by eauto using lookup_lt_Some.
    destruct (decide (a = a_e)) as [->|Hae].
    { rewrite list_lookup_insert_eq by (rewrite length_insert, length_app; lia).
      eexists. split; [done|]. rewrite Hle in He'. injection He' as <-.
      split; [by rewrite frozen_bind|].
      simpl. etrans; [done|]. by apply prefix_app_r. }
    rewrite list_lookup_insert_ne by done.
    destruct (decide (a = a_s)) as [->|Has].
    { rewrite list_lookup_insert_eq by (rewrite length_app; lia).
      eexists. split; [done|]. rewrite Hls in He'. injection He' as <-.
      split; [by rewrite frozen_bind|].
      simpl. etrans; [done|]. by apply prefix_app_r. }
    rewrite list_lookup_insert_ne by done. exists e'.
    by rewrite (lookup_app_l_Some _ _ _ _ He').
Qed.

(** ** References between dicts *)

Lemma frozen_fields e e' :
  frozen e = frozen e' →
  El.id e = El.id e' ∧ El.type e = El.type e' ∧ El.keys e = El.keys e'.
Proof.
  intros Heq. split_and!.
  - apply (f_equal El.id) in Heq. done.
  - apply (f_equal El.type) in Heq. done.
  - apply (f_equal El.keys) in Heq. done.
Qed.

(** A store [h'] that holds the dicts of [h], with more entries in their
    ["boundElements"] at most, and the dicts [new]. *)
Lemma bound_both_ways_step (h h' new : list El.t) :
  bound_both_ways h →
  (∀ e0, e0 ∈ h → ∃ e, e ∈ h' ∧ frozen e = frozen e0
                       ∧ El.boundElements e0 ⊆ El.boundElements e) →
  (∀ e, e ∈ new → e ∈ h') →
  (∀ e, e ∈ h' →
     (e ∈ new ∨ ∃ e0, e0 ∈ h ∧ frozen e = frozen e0)
     ∧ ∀ r, r ∈ El.boundElements e →
         (∃ e0, e0 ∈ h ∧ frozen e = frozen e0 ∧ r ∈ El.boundElements e0)
         ∨ ∃ e', e' ∈ new ∧ El.id e' = Ref.id r ∧ El.type e' = Ref.type r
                 ∧ refers_to e' (El.id e)) →
  (∀ e k, e ∈ new → El.keys e = ArrowKeys k →
     Binding.elementId (Arrow.startBinding k) ≠ Binding.elementId (Arrow.endBinding k)
     ∧ ∀ i, i ∈ [Binding.elementId (Arrow.startBinding k);
                 Binding.elementId (Arrow.endBinding k)] →
            ∃ e', e' ∈ h' ∧ El.id e' = i
                  ∧ Ref.mk (El.id e) "arrow" ∈ El.boundElements e') →
  bound_both_ways h'.
Proof.
  intros [Hrefs Harrows] Hold Hnew Hcases Hnewarrows. split.
  - intros e r He Hr. destruct (Hcases e He) as [_ Hr'].
    destruct (Hr' r Hr) as [(e0 & He0 & Hfr & Hr0)|(e' & He' & ? & ? & ?)].
    + destruct (Hrefs e0 r He0 Hr0) as (e0' & He0' & Hid & Hty & Hback).
      destruct (Hold e0' He0') as (e' & He' & Hfr' & _).
      apply frozen_fields in Hfr as (Hide & _ & _).
      apply frozen_fields in Hfr' as (Hid' & Hty' & Hk').
      exists e'. split_and!; [done|congruence|congruence|].
      unfold refers_to in *. by rewrite Hk', Hide.
    + exists e'. split_and!; auto.
  - intros e k He Hk. destruct (Hcases e He) as [[Hin|(e0 & He0 & Hfr)] _].
    { by apply Hnewarrows. }
    apply frozen_fields in Hfr as (Hide & _ & Hke).
    destruct (Harrows e0 k He0) as [Hne Hends]; [congruence|].
    split; [done|]. intros i Hi.
    destruct (Hends i Hi) as (e0' & He0' & Hid0 & Hin0).
    destruct (Hold e0' He0') as (e' & He' & Hfr' & Hsub).
    apply frozen_fields in Hfr' as (Hid' & _ & _).
    exists e'. split_and!; [done|congruence|]. rewrite Hide. by apply Hsub.
Qed.

Lemma bound_both_ways_app h new :
  bound_both_ways h →
  (∀ e k, e ∈ new → El.keys e ≠ ArrowKeys k) →
  (∀ e r, e ∈ new → r ∈ El.boundElements e →
     ∃ e', e' ∈ new ∧ El.id e' = Ref.id r ∧ El.type e' = Ref.type r
           ∧ refers_to e' (El.id e)) →
  bound_both_ways (h ++ new).
Proof.
  intros Hb Hnoarrow Hrefs. apply (bound_both_ways_step h _ new); [done|..].
  - intros e0 He0. exists e0. rewrite elem_of_app. auto.
  - intros e He. rewrite elem_of_app. auto.
  - intros e [He|He]%elem_of_app.
    + split; [right; by exists e|]. intros r Hr. left. by exists e.
    + split; [by left|]. intros r Hr. right. by apply Hrefs.
  - intros e k He Hk. by destruct (Hnoarrow e k He).
Qed.

Lemma bound_both_ways_arrow h a_s a_e e_s e_e ea k :
  bound_both_ways h →
  h !! a_s = Some e_s → h !! a_e = Some e_e → a_s ≠ a_e →
  El.boundElements ea = [] → El.type ea = "arrow" → El.keys ea = ArrowKeys k →
  Binding.elementId (Arrow.startBinding k) = El.id e_s →
  Binding.elementId (Arrow.endBinding k) = El.id e_e →
  El.id e_s ≠ El.id e_e →
  bound_both_ways
    (<[a_e := El.bind (Ref.mk (El.id ea) "arrow") e_e]>
       (<[a_s := El.bind (Ref.mk (El.id ea) "arrow") e_s]> (h ++ [ea]))).
Proof.
  intros Hb Hls Hle Hne Hbe Hty Hk Hsb Heb Hids.
  assert (a_s < length h) as Hlt_s by eauto using lookup_lt_Some.
  assert (a_e < length h) as Hlt_e by eauto using lookup_lt_Some.
  set (r := Ref.mk (El.id ea) "arrow").
  set (h' := <[a_e := _]> _).
  assert (h' !! a_e = Some (El.bind r e_e)) as Hle'.
  { subst h'. rewrite list_lookup_insert_eq; [done|].
    rewrite length_insert, length_app. lia. }
  assert (h' !! a_s = Some (El.bind r e_s)) as Hls'.
  { subst h'. rewrite list_lookup_insert_ne by done.
    rewrite list_lookup_insert_eq; [done|]. rewrite length_app. lia. }
  assert (h' !! length h = Some ea) as Hla'.
  { subst h'. rewrite !list_lookup_insert_ne by lia. apply lookup_last. }
  assert (∀ a, a ≠ a_s → a ≠ a_e → a ≠ length h → h' !! a = h !! a) as Hother.
  { intros a ? ? ?. subst h'. rewrite !list_lookup_insert_ne by done.
    destruct (decide (a < length h)); [by rewrite lookup_app_l|].
    rewrite !lookup_ge_None_2; [done|lia|rewrite length_app; simpl; lia]. }
  assert (∀ a e, h' !! a = Some e →
            (a = length h ∧ e = ea)
            ∨ ∃ e0, h !! a = Some e0 ∧ frozen e = frozen e0
                    ∧ (e = e0 ∨ (e = El.bind r e0 ∧ (a = a_s ∨ a = a_e)))) as Hinv.
  { intros a e Ha. destruct (decide (a = a_e)) as [->|?].
    { right. exists e_e. rewrite Hle' in Ha. injection Ha as <-.
      split_and!; [done..|]. right. split; [done|by right]. }
    destruct (decide (a = a_s)) as [->|?].
    { right. exists e_s. rewrite Hls' in Ha. injection Ha as <-.
      split_and!; [done..|]. right. split; [done|by left]. }
    destruct (decide (a = length h)) as [->|?].
    { left. rewrite Hla' in Ha. by injection Ha as <-. }
    right. exists e. rewrite Hother in Ha by done. split_and!; [done..|by left]. }
  apply (bound_both_ways_step h h' [ea]); [done|..].
  - intros e0 [a Ha]%list_elem_of_lookup.
    destruct (decide (a = a_e)) as [->|?].
    { exists (El.bind r e_e). rewrite Hle in Ha. injection Ha as <-.
      split_and!; [by eapply list_elem_of_lookup_2|done|].
      simpl. intros x Hx. rewrite elem_of_app. auto. }
    destruct (decide (a = a_s)) as [->|?].
    { exists (El.bind r e_s). rewrite Hls in Ha. injection Ha as <-.
      split_and!; [by eapply list_elem_of_lookup_2|done|].
      simpl. intros x Hx. rewrite elem_of_app. auto. }
    exists e0. split_and!; [|done..].
    apply (list_elem_of_lookup_2 _ a). rewrite Hother; [done..|].
    apply lookup_lt_Some in Ha. lia.
  - intros e ->%list_elem_of_singleton. by eapply list_elem_of_lookup_2.
  - intros e [a Ha]%list_elem_of_lookup.
    destruct (Hinv a e Ha) as [[-> ->]|(e0 & Ha0 & Hfr & Hcase)].
    { split; [left; by apply list_elem_of_singleton|]. intros x. rewrite Hbe.
      by intros ?%elem_of_nil. }
    assert (e0 ∈ h) as Hin0 by by eapply list_elem_of_lookup_2.
    split; [right; by exists e0|]. intros x Hx.
    destruct Hcase as [->|[-> Haa]]; [left; by exists e0|].
    simpl in Hx. apply elem_of_app in Hx as [Hx|Hx].
    { left. by exists e0. }
    apply list_elem_of_singleton in Hx as ->.
    right. exists ea. split_and!; [by apply list_elem_of_singleton|done|done|].
    unfold refers_to. rewrite Hk. simpl.
    destruct Haa as [->| ->]; [left|right]; congruence.
  - intros e k' ->%list_elem_of_singleton Hk'. rewrite Hk in Hk'. injection Hk' as <-.
    split; [congruence|]. intros i Hi. in_cases Hi.
    + exists (El.bind r e_s). split_and!; [by eapply list_elem_of_lookup_2|done|].
      simpl. rewrite elem_of_app. right. by apply list_elem_of_singleton.
    + exists (El.bind r e_e). split_and!; [by eapply list_elem_of_lookup_2|done|].
      simpl. rewrite elem_of_app. right. by apply list_elem_of_singleton.
Qed.

Lemma evolves_bound_both_ways A s s' :
  evolves A s s' → bound_both_ways (objects s) → bound_both_ways (objects s').
Proof.
  intros Hev Hb.
  induction Hev as [|l s' _ IH|text x y cid fs s' _ IH
                    |prefix ty round x y w h bg s' _ IH Hin
                    |prefix ty round x y w h bg ch text s' _ IH Hin
                    |sid eid sp ep st w a_s a_e e_s e_e s' _ IH HA Hs He Hls Hle].
  - done.
  - done.
  - apply bound_both_ways_app; [done|..].
    + by intros e k ->%list_elem_of_singleton.
    + by intros e r ->%list_elem_of_singleton ?%elem_of_nil.
  - apply bound_both_ways_app; [done|..].
    + by intros e k ->%list_elem_of_singleton.
    + by intros e r ->%list_elem_of_singleton ?%elem_of_nil.
  - apply bound_both_ways_app; [done|..].
    + intros e k He'. by in_cases He'.
    + intros e r He' Hr. in_cases He'; simpl in Hr; [|by apply elem_of_nil in Hr].
      apply list_elem_of_singleton in Hr as ->.
      eexists. split_and!; [right; left|done..].
  - destruct (entries_differ _ _ _ _ _ Hs He) as (Hids & Hide & Hne).
    unfold id_at in Hids, Hide. rewrite Hls in Hids. rewrite Hle in Hide.
    injection Hids as Hids. injection Hide as Hide.
    apply end_entry_Some in He as (_ & _ & Hneq).
    eapply (bound_both_ways_arrow (objects s') a_s a_e e_s e_e
              (arrow_dict (current_group_id s') (element_counter s' + 1) sid eid
                 (start_anchor sp e_s) (end_anchor ep e_e) st w));
      try done; simpl; congruence.
Qed.

(** ** Sequences of calls, layouts included *)

(** A call either goes by steps of the factory and the binder, or changes
    the open group only. *)
Lemma after_op_cases `{MathLib} o s :
  evolves any_arrow s (after_op o s)
  ∨ ∃ g k, after_op o s = set_current_group_id g (set_group_counter k s)
           ∧ (group_counter s ≤ k)%N.
Proof.
  destruct o as [c|items x y item_type colors|router_name destinations x y rc dc
                 |input_name parallel_items output_name x y colors]; simpl.
  - destruct c; simpl.
    + left. apply evolves_create_text_element, evolves_refl.
    + left. apply evolves_create_rectangle, evolves_refl.
    + left. apply evolves_create_ellipse, evolves_refl.
    + left. by apply evolves_create_arrow, evolves_refl.
    + left. apply evolves_elements, evolves_refl.
    + right. eexists _, (group_counter s + 1)%N. split; [done|lia].
    + right. exists None, (group_counter s). split; [by destruct s|done].
  - left. by apply evolves_sequential_layout, evolves_refl.
  - left. by apply evolves_routing_layout, evolves_refl.
  - left. by apply evolves_parallel_layout, evolves_refl.
Qed.

Lemma after_ops_snoc `{MathLib} os o s :
  after_ops (os ++ [o]) s = after_op o (after_ops os s).
Proof. unfold after_ops. by rewrite foldl_app. Qed.

Lemma after_ops_ind `{MathLib} (P : ExcalidrawAgent → Prop) s :
  P s →
  (∀ t t', evolves any_arrow t t' → P t → P t') →
  (∀ g k t, P t → P (set_current_group_id g (set_group_counter k t))) →
  ∀ os, P (after_ops os s).
Proof.
  intros Hs Hev Hgrp os. induction os as [|o os IH] using rev_ind; [done|].
  rewrite after_ops_snoc.
  destruct (after_op_cases o (after_ops os s)) as [Hstep|(g & k & -> & _)].
  - by eapply Hev.
  - by apply Hgrp.
Qed.

Lemma Forall_drop_view (P : El.t → Prop) s s' new :
  (∀ e, P (frozen e) ↔ P e) →
  view s' = view s ++ new → Forall P new →
  Forall P (drop (length (objects s)) (objects s')).
Proof.
  intros HP Hview Hnew.
  assert (Forall P (drop (length (objects s)) (view s'))) as Hd.
  { by rewrite Hview, <-length_view, drop_app_length. }
  unfold view in Hd. rewrite <-fmap_drop, Forall_fmap in Hd.
  eapply Forall_impl; [done|]. intros e. apply HP.
Qed.

(** ** The arrows of the layouts *)

Lemma anchored_mono h h' e :
  (∀ x, x ∈ h → ∃ x', x' ∈ h' ∧ frozen x' = frozen x) → anchored h e → anchored h' e.
Proof.
  intros Hsub (k & e_s & e_e & Hk & Hs & Hids & He & Hide & Hrest).
  destruct (Hsub _ Hs) as (e_s' & Hs' & Hfs). destruct (Hsub _ He) as (e_e' & He' & Hfe).
  exists k, e_s', e_e'.
  assert (El.id e_s' = El.id e_s ∧ El.x e_s' = El.x e_s ∧ El.y e_s' = El.y e_s
          ∧ El.width e_s' = El.width e_s ∧ El.height e_s' = El.height e_s)
    as (-> & -> & -> & -> & ->).
  { split_and!; [apply (f_equal El.id) in Hfs|apply (f_equal El.x) in Hfs
                 |apply (f_equal El.y) in Hfs|apply (f_equal El.width) in Hfs
                 |apply (f_equal El.height) in Hfs]; exact Hfs. }
  assert (El.id e_e' = El.id e_e ∧ El.x e_e' = El.x e_e ∧ El.y e_e' = El.y e_e
          ∧ El.height e_e' = El.height e_e)
    as (-> & -> & -> & ->).
  { split_and!; [apply (f_equal El.id) in Hfe|apply (f_equal El.x) in Hfe
                 |apply (f_equal El.y) in Hfe|apply (f_equal El.height) in Hfe];
      exact Hfe. }
  destruct Hrest as (? & ? & ? & ? & ? & ? & ?). split_and!; assumption.
Qed.

Lemma evolves_anchored s s' :
  evolves layout_arrow s s' →
  ∃ new, view s' = view s ++ new
         ∧ Forall (λ e, El.type e = "arrow" → anchored (view s') e) new.
Proof.
  assert (∀ (h new add : list El.t),
            Forall (λ e, El.type e = "arrow" → anchored (h ++ new) e) new →
            Forall (λ e, El.type e = "arrow" → anchored (h ++ new ++ add) e) add →
            Forall (λ e, El.type e = "arrow" → anchored (h ++ new ++ add) e)
              (new ++ add)) as Happ.
  { intros h new add Hnew Hadd. apply Forall_app. split; [|done].
    eapply Forall_impl; [done|]. intros e He Hty. eapply anchored_mono; [|by apply He].
    intros x Hx. exists x. split; [|done]. rewrite app_assoc, elem_of_app. by left. }
  induction 1 as [|l s' _ IH|text x y cid fs s' _ IH
                  |prefix ty round x y w h bg s' _ IH Hin
                  |prefix ty round x y w h bg ch text s' _ IH Hin
                  |sid eid sp ep st w a_s a_e e_s e_e s' _ IH HA Hs He Hls Hle].
  - exists []. by rewrite app_nil_r.
  - done.
  - destruct IH as (new & Hview & Hnew). eexists (new ++ [_]).
    unfold view in *. simpl. rewrite fmap_app, Hview, <-app_assoc. split; [done|].
    apply Happ; [by rewrite <-Hview|]. by apply Forall_singleton.
  - destruct IH as (new & Hview & Hnew). eexists (new ++ [_]).
    unfold view in *. simpl. rewrite fmap_app, Hview, <-app_assoc. split; [done|].
    apply Happ; [by rewrite <-Hview|]. apply Forall_singleton. simpl.
    in_cases Hin; by simplify_eq.
  - destruct IH as (new & Hview & Hnew). eexists (new ++ [_; _]).
    unfold view in *. simpl. rewrite fmap_app, Hview, <-app_assoc. split; [done|].
    apply Happ; [by rewrite <-Hview|].
    repeat apply Forall_cons_2; [..|apply Forall_nil_2]; simpl; [|done].
    in_cases Hin; by simplify_eq.
  - destruct IH as (new & Hview & Hnew).
    destruct (entries_differ _ _ _ _ _ Hs He) as (Hids & Hide & Hne).
    unfold id_at in Hids, Hide. rewrite Hls in Hids. rewrite Hle in Hide.
    injection Hids as Hids. injection Hide as Hide.
    assert (a_s < length (objects s')) as Hlt_s by eauto using lookup_lt_Some.
    assert (a_e < length (objects s')) as Hlt_e by eauto using lookup_lt_Some.
    destruct HA as (-> & -> & -> & ->).
    eexists (new ++ [_]). unfold view in *. simpl.
    rewrite !view_insert_bind, fmap_app, Hview, <-app_assoc;
      [|by rewrite lookup_app_l
       |by rewrite list_lookup_insert_ne, lookup_app_l].
    split; [done|]. apply Happ; [by rewrite <-Hview|].
    apply Forall_singleton. intros _.
    exists (Arrow.mk (Binding.mk sid 0 1) (Binding.mk eid 0 1) None None (Some "arrow")
              [[int 0; int 0];
               [(El.x e_e - (El.x e_s + El.width e_s))%Qc;
                (El.y e_e + El.height e_e / int 2
                 - (El.y e_s + El.height e_s / int 2))%Qc]]),
      (frozen e_s), (frozen e_e).
    assert (∀ a e, objects s' !! a = Some e → frozen e ∈ view s ++ new ++ [
      frozen (arrow_dict (current_group_id s') (element_counter s' + 1) sid eid
                (start_anchor None e_s) (end_anchor None e_e) "solid" 2)]) as Hmem.
    { intros a e Ha. unfold view. rewrite app_assoc, <-Hview, elem_of_app. left.
      apply list_elem_of_fmap. exists e. split; [done|].
      by eapply list_elem_of_lookup_2. }
    split_and!; try done; by eapply Hmem.
Qed.

(** ** Invariants of every sequence of calls *)

(** X4.  Ids stay unique when the layouts are called: after any
    sequence of calls of the factory, the binder, [add_element], the group
    methods and the three layouts on a new agent ([clear] apart), whatever
    each of them returned or raised, no two dicts that were made share an
    id, and every id is one the counter gave out. *)
Theorem ids_unique_with_layouts `{MathLib} os :
  NoDup (El.id <$> objects (after_ops os init)) ∧ ids_issued (after_ops os init).
Proof.
  apply (after_ops_ind unique_ids).
  - split; [apply NoDup_nil_2|apply Forall_nil_2].
  - intros t t' Hev. by eapply evolves_unique_ids.
  - done.
Qed.

(** X5.  Every dict made by such a sequence of calls has the keys of its
    type (a text the text keys, an arrow the arrow keys, a shape neither),
    the roundness of its type, an id made of the prefix of its type and of
    its seed, a positive seed, and the index [a<seed>], the nonce
    [1000 * seed] and the time stamp [1757460000000 + seed]. *)
Theorem dicts_well_made `{MathLib} os : Forall well_made (objects (after_ops os init)).
Proof.
  apply (after_ops_ind (λ s, Forall well_made (objects s))).
  - constructor.
  - intros t t' (new & Hview & _ & _ & _ & _ & Hwm)%evolves_view Ht.
    assert (Forall well_made (view t')) as Hv.
    { rewrite Hview. apply Forall_app. split; [|done].
      unfold view. rewrite Forall_fmap. eapply Forall_impl; [done|].
      intros e. apply well_made_frozen. }
    unfold view in Hv. rewrite Forall_fmap in Hv.
    eapply Forall_impl; [done|]. intros e. apply well_made_frozen.
  - done.
Qed.

(** X6.  The references between the dicts made by such a sequence of calls
    always agree.  Every entry of a ["boundElements"] names a dict that exists, has
    the type the entry gives and refers back (a text by its containerId, an
    arrow by one of its bindings); the two bindings of every arrow name two
    different ids, and each is the id of a dict that lists the arrow in its
    ["boundElements"]. *)
Theorem references_agree `{MathLib} os : bound_both_ways (objects (after_ops os init)).
Proof.
  apply (after_ops_ind (λ s, bound_both_ways (objects s))).
  - split.
    + by intros e r ?%elem_of_nil.
    + by intros e k ?%elem_of_nil.
  - intros t t'. eapply evolves_bound_both_ways.
  - done.
Qed.

(** X7.  Groups.  The dicts a call makes, a layout call included, carry
    in ["groupIds"] the group that was open when the call started, and
    nothing if none was.  [start_group] opens the group it returns,
    [group-<n>] or [<name>-group-<n>] for the next value [n] of the group
    counter, and so closes a group that was open; [end_group] leaves no
    group open. *)
Theorem dicts_carry_open_group `{MathLib} :
  (∀ o s, Forall (λ e, El.groupIds e = open_group s)
            (drop (length (objects s)) (objects (after_op o s))))
  ∧ (∀ name s,
       ∃ g s', start_group name s = (Ok g, s')
               ∧ open_group s' = [g]
               ∧ group_counter s' = (group_counter s + 1)%N
               ∧ g = match name with
                     | Some (String _ _ as n) =>
                         n +:+ "-group-" +:+ pretty (group_counter s + 1)%N
                     | _ => "group-" +:+ pretty (group_counter s + 1)%N
                     end)
  ∧ (∀ s, open_group (end_group s).2 = []).
Proof.
  split_and!.
  - intros o s. destruct (after_op_cases o s) as [Hev|(g & k & -> & _)].
    + apply evolves_view in Hev as (new & Hview & _ & _ & _ & Hgrp & _).
      by eapply Forall_drop_view.
    + simpl. by rewrite drop_all.
  - intros name s.
    destruct name as [[|ch n]|]; eexists _, _;
      (split; [unfold start_group, _generate_group_id, bind, modify, gets, ret;
               simpl; reflexivity|]);
      by split_and!.
  - done.
Qed.

(** X8.  A dict that was made is never removed from the store, moved or
    rewritten by a later call: it keeps every key but ["boundElements"],
    which only gains entries at its end.  The two counters never go down. *)
Theorem dicts_persist `{MathLib} o s a e :
  objects s !! a = Some e →
  (∃ e' more,
     objects (after_op o s) !! a = Some e'
     ∧ frozen e' = frozen e
     ∧ El.boundElements e' = El.boundElements e ++ more)
  ∧ (element_counter s ≤ element_counter (after_op o s))%N
  ∧ (group_counter s ≤ group_counter (after_op o s))%N.
Proof.
  intros Ha. destruct (after_op_cases o s) as [Hev|Hgrp].
  - destruct (evolves_lookup _ _ _ _ _ Hev Ha) as (e' & He' & Hfr & [more Hmore]).
    apply evolves_view in Hev as (_ & _ & _ & Hgc & Hc & _).
    split_and!; [by exists e', more|done|lia].
  - destruct Hgrp as (g & k & -> & Hk). simpl.
    split_and!; [exists e, []; by rewrite app_nil_r|done..].
Qed.

Lemma dicts_persist_witness :
  ∃ e,
    objects two_rects !! 0 = Some e
    ∧ (∃ e' more,
         objects (after_op (H:=rational_math)
                    (Method (CreateArrow "rect-1" "rect-3" None None "solid" 2))
                    two_rects) !! 0 = Some e'
         ∧ frozen e' = frozen e
         ∧ El.boundElements e' = El.boundElements e ++ more)
    ∧ (element_counter two_rects
       ≤ element_counter
           (after_op (H:=rational_math)
              (Method (CreateArrow "rect-1" "rect-3" None None "solid" 2))
              two_rects))%N
    ∧ (group_counter two_rects
       ≤ group_counter
           (after_op (H:=rational_math)
              (Method (CreateArrow "rect-1" "rect-3" None None "solid" 2))
              two_rects))%N.
Proof.
  destruct (lookup_lt_is_Some_2 (objects two_rects) 0) as [e He].
  { vm_compute. lia. }
  exists e. split; [exact He|].
  exact (dicts_persist (H:=rational_math)
           (Method (CreateArrow "rect-1" "rect-3" None None "solid" 2))
           two_rects 0 e He).
Defined.

(** ** The arrow binder *)

Lemma create_arrow_not_found sid eid sp ep st w s :
  wf s → all_dicts s → ¬ present sid s ∨ ¬ present eid s ∨ sid = eid →
  create_arrow sid eid sp ep st w s = (Raise not_found, s).
Proof.
  intros Hwf Hall Hmiss.
  pose proof (create_arrow_outcome sid eid sp ep st w s) as Hout.
  pose proof (create_arrow_returns_iff sid eid sp ep st w s Hwf) as Hiff.
  destruct (create_arrow _ _ _ _ _ _ _) as [[a|e|] s'].
  - destruct Hiff as [Hiff _]. destruct Hiff as (_ & ? & ? & ?); [by eauto|].
    by destruct Hmiss as [?|[?|?]].
  - destruct Hout as [-> [[_ ?]|[-> _]]]; done.
  - by destruct Hout as [_ ?].
Qed.

Lemma Qc_add_sub (a b : Qc) : (a + (b - a) = b)%Qc.
Proof. ring. Qed.

(** X9.  The geometry of an arrow.  When [create_arrow] returns, the arrow
    starts where it was told to ([start_pos]) or, by default, at the middle
    of the right edge of the start dict; its polyline is
    [[0, 0], [dx, dy]] and ends where it was told to ([end_pos]) or at the
    middle of the left edge of the end dict; its width and height are the
    absolute values of [dx] and [dy], so they are never negative, also for an
    arrow that runs leftwards or upwards. *)
Theorem arrow_spans_its_endpoints sid eid sp ep st w s arrow s' :
  create_arrow sid eid sp ep st w s = (Ok arrow, s') →
  ∃ a_s a_e e_s e_e e_a k dx dy,
    Some a_s ∈ elements s ∧ objects s !! a_s = Some e_s ∧ El.id e_s = sid
    ∧ Some a_e ∈ elements s ∧ objects s !! a_e = Some e_e ∧ El.id e_e = eid
    ∧ objects s' !! arrow = Some e_a ∧ El.keys e_a = ArrowKeys k
    ∧ Arrow.points k = [[int 0; int 0]; [dx; dy]]
    ∧ mkPosition (El.x e_a) (El.y e_a)
      = default (mkPosition (El.x e_s + El.width e_s)
                   (El.y e_s + El.height e_s / int 2))%Qc sp
    ∧ mkPosition (El.x e_a + dx)%Qc (El.y e_a + dy)%Qc
      = default (mkPosition (El.x e_e) (El.y e_e + El.height e_e / int 2))%Qc ep
    ∧ El.width e_a = Qcabs dx ∧ El.height e_a = Qcabs dy
    ∧ (0 ≤ El.width e_a)%Qc ∧ (0 ≤ El.height e_a)%Qc
    ∧ El.strokeStyle e_a = st ∧ El.strokeWidth e_a = w
    ∧ Arrow.startArrowhead k = None ∧ Arrow.endArrowhead k = Some "arrow".
Proof.
  intros (a_s & a_e & e_s & e_e & Hs & He & Hls & Hle & Hne & -> & ->)%create_arrow_ok.
  destruct (start_entry_Some _ _ _ Hs) as [Hin_s Hid_s].
  destruct (end_entry_Some _ _ _ _ He) as (Hin_e & Hid_e & _).
  unfold id_at in *. rewrite Hls in Hid_s. rewrite Hle in Hid_e.
  injection Hid_s as Hid_s. injection Hid_e as Hid_e.
  assert (a_s < length (objects s)) as Hlt_s by eauto using lookup_lt_Some.
  assert (a_e < length (objects s)) as Hlt_e by eauto using lookup_lt_Some.
  eexists a_s, a_e, e_s, e_e, _, _, _, _.
  split_and!; [done..| | | | | | | | | | | | |].
  - simpl. rewrite !list_lookup_insert_ne by lia. apply lookup_last.
  - reflexivity.
  - reflexivity.
  - simpl. unfold start_anchor. by destruct sp as [[]|].
  - simpl. rewrite !Qc_add_sub. unfold end_anchor. by destruct ep as [[]|].
  - reflexivity.
  - reflexivity.
  - apply Qcabs_nonneg.
  - apply Qcabs_nonneg.
  - reflexivity.
  - reflexivity.
  - reflexivity.
  - reflexivity.
Qed.

Lemma arrow_spans_its_endpoints_witness :
  ∃ arrow s',
    create_arrow "rect-1" "rect-3" None None "solid" 2 two_rects = (Ok arrow, s')
    ∧ ∃ e_a k,
        objects s' !! arrow = Some e_a ∧ El.keys e_a = ArrowKeys k
        ∧ (0 ≤ El.width e_a)%Qc.
Proof.
  destruct (proj2 (create_arrow_returns_iff "rect-1" "rect-3" None None "solid" 2
                     two_rects ltac:(by apply (bool_decide_unpack _); vm_compute)))
    as (arrow & s' & Heq).
  { split_and!; [by apply (bool_decide_unpack _); vm_compute..|discriminate]. }
  exists arrow, s'. split; [done|].
  destruct (arrow_spans_its_endpoints _ _ _ _ _ _ _ _ _ Heq)
    as (a_s & a_e & e_s & e_e & e_a & k & dx & dy & _ & _ & _ & _ & _ & _ & Ha & Hk
        & _ & _ & _ & _ & _ & Hw & _).
  exists e_a, k. exact (conj Ha (conj Hk Hw)).
Defined.

Lemma filter_none {A} (P : A → Prop) `{∀ x, Decision (P x)} (l : list A) :
  Forall (λ x, ¬ P x) l → filter P l = [].
Proof.
  induction 1 as [|x l Hx _ IH]; [done|]. by rewrite filter_cons_False.
Qed.

Lemma start_entry_last sid s l1 a l2 :
  elements s = l1 ++ Some a :: l2 → id_at s a = Some sid →
  Forall (λ r, El.id <$> dict_at s r ≠ Some sid) l2 →
  start_entry sid s = Some a.
Proof.
  intros Hels Hid Hl2. unfold start_entry. rewrite Hels, filter_app.
  rewrite filter_cons_True by done.
  rewrite (filter_none _ l2) by done. by rewrite last_snoc.
Qed.

(** X10.  When several dicts of [self.elements] carry the start id, which
    happens once [clear] has restarted the counter, [create_arrow] binds the
    arrow to the last of them in list order and leaves the others as they
    were. *)
Theorem create_arrow_binds_last_match sid eid sp ep st w s l1 a l2 arrow s' :
  elements s = l1 ++ Some a :: l2 →
  id_at s a = Some sid →
  Forall (λ r, El.id <$> dict_at s r ≠ Some sid) l2 →
  create_arrow sid eid sp ep st w s = (Ok arrow, s') →
  (∃ e e',
     objects s !! a = Some e ∧ objects s' !! a = Some e'
     ∧ El.boundElements e'
       = El.boundElements e ++ [Ref.mk (fmt "arrow" (element_counter s + 1)) "arrow"])
  ∧ ∀ b, b ≠ a → id_at s b = Some sid → objects s' !! b = objects s !! b.
Proof.
  intros Hels Hid Hl2
    (a_s & a_e & e_s & e_e & Hs & He & Hls & Hle & Hne & -> & ->)%create_arrow_ok.
  rewrite (start_entry_last _ _ _ _ _ Hels Hid Hl2) in Hs. injection Hs as <-.
  destruct (end_entry_Some _ _ _ _ He) as (_ & Hid_e & Hneq).
  assert (a < length (objects s)) as Hlt_s by eauto using lookup_lt_Some.
  assert (a_e < length (objects s)) as Hlt_e by eauto using lookup_lt_Some.
  split.
  - exists e_s. eexists. split; [done|]. simpl.
    rewrite list_lookup_insert_ne by done.
    rewrite list_lookup_insert_eq by (rewrite length_app; lia). done.
  - intros b Hb Hidb. simpl.
    assert (b ≠ a_e) by (intros ->; congruence).
    rewrite !list_lookup_insert_ne by done. apply lookup_app_l.
    by eapply id_at_valid.
Qed.

Lemma create_arrow_binds_last_match_witness :
  ∃ arrow s' e e',
    create_arrow "rect-1" "rect-3" None None "solid" 2 reused_ids = (Ok arrow, s')
    ∧ objects reused_ids !! 2 = Some e ∧ objects s' !! 2 = Some e'
    ∧ El.boundElements e' = El.boundElements e ++ [Ref.mk "arrow-5" "arrow"]
    ∧ objects s' !! 0 = objects reused_ids !! 0.
Proof.
  destruct (proj2 (create_arrow_returns_iff "rect-1" "rect-3" None None "solid" 2
                     reused_ids ltac:(by apply (bool_decide_unpack _); vm_compute)))
    as (arrow & s' & Heq).
  { split_and!; [by apply (bool_decide_unpack _); vm_compute..|discriminate]. }
  destruct (create_arrow_binds_last_match "rect-1" "rect-3" None None "solid" 2
              reused_ids [Some 0] 2 [Some 4] arrow s')
    as [(e & e' & He & He' & Hb) Hother];
    [vm_compute; reflexivity|vm_compute; reflexivity
    |by apply (bool_decide_unpack _); vm_compute|exact Heq|].
  exists arrow, s', e, e'. split_and!; [exact Heq|exact He|exact He'|exact Hb|].
  apply Hother; [discriminate|vm_compute; reflexivity].
Defined.

(** ** Shapes and the element list *)

Lemma issued_not_present s i p :
  wf s → ids_issued s → p ∈ prefixes → i = fmt p (element_counter s + 1) →
  ¬ present i s.
Proof.
  intros Hwf Hiss Hp -> (a & Hin & e & He & Hid)%present_entry.
  unfold ids_issued in Hiss. rewrite Forall_forall in Hiss.
  eapply issued_fresh; [done|apply Hiss; by eapply list_elem_of_lookup_2|done].
Qed.

Lemma present_grow s new k i :
  wf s → (present i (grow new k s) ↔ present i s).
Proof.
  intros Hwf. unfold present. rewrite !Exists_exists. simpl.
  split; intros (r & Hr & Hid); exists r; (split; [done|]).
  - destruct r as [a|]; [|done]. simpl in *.
    by rewrite lookup_app_l in Hid by by eapply wf_valid.
  - destruct r as [a|]; [|done]. simpl in *.
    by rewrite lookup_app_l by by eapply wf_valid.
Qed.

Lemma wf_grow s new k : wf s → wf (grow new k s).
Proof.
  intros Hwf. apply (wf_elements s); [simpl; rewrite length_app; lia|by left|done].
Qed.

(** X11.  A shape is not in the document until it is added.  On an agent
    whose [self.elements] is a list of its own dicts, the id of the shape
    that [create_rectangle] or [create_ellipse] returns is the id of no dict
    of [self.elements]; so [create_arrow] from or to that id raises the
    [ValueError] of a missing endpoint and changes nothing.  Once the shape
    was passed to [add_element], an arrow to it from any dict that was in
    [self.elements] is made. *)
Theorem new_shape_is_not_in_document x y width height text background_color s :
  wf s → all_dicts s → ids_issued s →
  Forall (λ create : num → num → option num → option num → option string
                     → option string → M (addr * ref),
    ∃ sh tx s1 i,
      create x y width height text background_color s = (Ok (sh, tx), s1)
      ∧ id_at s1 sh = Some i
      ∧ ¬ present i s1
      ∧ (∀ j sp ep st w,
           create_arrow i j sp ep st w s1 = (Raise not_found, s1)
           ∧ create_arrow j i sp ep st w s1 = (Raise not_found, s1))
      ∧ (∀ j sp ep st w, present j s →
           ∃ arrow s3,
             create_arrow j i sp ep st w (add_element (Some sh) s1).2
             = (Ok arrow, s3)))
    [create_rectangle; create_ellipse].
Proof.
  intros Hwf Hall Hiss.
  assert (∀ prefix ty round,
    prefix ∈ prefixes →
    ∃ sh tx s1 i,
      create_shape prefix ty round x y width height text background_color s
      = (Ok (sh, tx), s1)
      ∧ id_at s1 sh = Some i
      ∧ ¬ present i s1
      ∧ (∀ j sp ep st w,
           create_arrow i j sp ep st w s1 = (Raise not_found, s1)
           ∧ create_arrow j i sp ep st w s1 = (Raise not_found, s1))
      ∧ (∀ j sp ep st w, present j s →
           ∃ arrow s3,
             create_arrow j i sp ep st w (add_element (Some sh) s1).2
             = (Ok arrow, s3))) as Hshape.
  2:{ repeat apply Forall_cons_2; [..|apply Forall_nil_2].
      - apply (Hshape "rect" RECTANGLE 3%Z), prefix_rect.
      - apply (Hshape "ellipse" ELLIPSE 2%Z), prefix_ellipse. }
  intros prefix ty round Hp.
  pose proof (create_shape_eq prefix ty round x y width height text
                background_color s) as Heq. cbv zeta in Heq.
  assert (∃ new k tx sh0,
            create_shape prefix ty round x y width height text background_color s
            = (Ok (length (objects s), tx), grow (sh0 :: new) k s)
            ∧ El.id sh0 = fmt prefix (element_counter s + 1))
    as (new & k & tx & sh0 & Heq' & Hid0).
  { destruct text as [[|ch text]|]; by eexists _, _, _, _. }
  clear Heq. set (s1 := grow (sh0 :: new) k s) in *.
  set (i := fmt prefix (element_counter s + 1)).
  assert (id_at s1 (length (objects s)) = Some i) as Hidat.
  { unfold id_at, s1. simpl. rewrite lookup_middle. simpl. by rewrite Hid0. }
  assert (¬ present i s1) as Hnp.
  { unfold s1. rewrite present_grow by done. by eapply issued_not_present. }
  assert (wf s1) as Hwf1 by by apply wf_grow.
  exists (length (objects s)), tx, s1, i. split_and!; [done..| |].
  - intros j sp ep st w.
    split; apply create_arrow_not_found; auto.
  - intros j sp ep st w Hj.
    set (s2 := (add_element (Some (length (objects s))) s1).2).
    assert (wf s2) as Hwf2.
    { apply (wf_elements s1); [done| |done]. simpl.
      intros r [?|Hr]%elem_of_app; [by left|right].
      apply list_elem_of_singleton in Hr as ->. eexists. split; [done|]. rewrite length_app. simpl. lia. }
    apply (create_arrow_returns_iff j i sp ep st w s2 Hwf2). split_and!.
    + unfold all_dicts, s2. simpl. rewrite elem_of_app, list_elem_of_singleton.
      intros [?|?]; done.
    + assert (present j s1) as Hj1 by (unfold s1; by rewrite present_grow).
      unfold present, s2 in *. simpl. rewrite Exists_app. by left.
    + apply (present_intro _ _ (length (objects s))); [|done].
      unfold s2. simpl. rewrite elem_of_app, list_elem_of_singleton. by right.
    + intros ->. apply Hnp. unfold s1. by rewrite present_grow.
Qed.

Lemma new_shape_is_not_in_document_witness :
  ∃ sh tx s1 i,
    create_rectangle (int 0) (int 0) None None (Some "C") None two_rects
    = (Ok (sh, tx), s1)
    ∧ id_at s1 sh = Some i
    ∧ create_arrow "rect-1" i None None "solid" 2 s1 = (Raise not_found, s1)
    ∧ ∃ arrow s3,
        create_arrow "rect-1" i None None "solid" 2 (add_element (Some sh) s1).2
        = (Ok arrow, s3).
Proof.
  pose proof (new_shape_is_not_in_document (int 0) (int 0) None None (Some "C") None
                two_rects
                ltac:(by apply (bool_decide_unpack _); vm_compute)
                ltac:(by apply (bool_decide_unpack _); vm_compute)
                (proj2 (unique_ids_after_all _))) as H.
  apply Forall_cons in H as [(sh & tx & s1 & i & Heq & Hid & _ & Hnf & Hok) _].
  exists sh, tx, s1, i. split_and!; [exact Heq|exact Hid|apply Hnf|].
  apply Hok. by apply (bool_decide_unpack _); vm_compute.
Defined.

(** ** Clearing the agent *)

(** X12.  [clear] empties [self.elements], closes the group and resets both
    counters, but the dicts that were handed out stay as they are.  After it
    every [create_arrow] finds no endpoint, and ids start again at 1: the
    next rectangle is [rect-1] whatever was made before, so once a [rect-1]
    had been made there are two dicts with that id. *)
Theorem clear_restarts_ids s :
  ∃ s0,
    clear s = (Ok tt, s0)
    ∧ objects s0 = objects s
    ∧ elements s0 = []
    ∧ element_counter s0 = 0%N ∧ group_counter s0 = 0%N
    ∧ current_group_id s0 = None
    ∧ (∀ sid eid sp ep st w,
         create_arrow sid eid sp ep st w s0 = (Raise not_found, s0))
    ∧ (∀ x y w h text bg,
         ∃ tx s1,
           create_rectangle x y w h text bg s0 = (Ok (length (objects s), tx), s1)
           ∧ id_at s1 (length (objects s)) = Some "rect-1"
           ∧ ((∃ e, e ∈ objects s ∧ El.id e = "rect-1") →
              ¬ NoDup (El.id <$> objects s1))).
Proof.
  eexists. split; [reflexivity|]. simpl. split_and!; [done..| |].
  - intros sid eid sp ep st w. apply create_arrow_not_found.
    + by apply Forall_nil.
    + unfold all_dicts. simpl. by intros ?%elem_of_nil.
    + left. unfold present. simpl. by intros ?%Exists_nil.
  - intros x y w h text bg. unfold create_rectangle. rewrite create_shape_eq.
    cbv zeta. simpl.
    assert (fmt "rect" (0 + 1) = "rect-1") as Hfmt by (vm_compute; reflexivity).
    destruct text as [[|ch text]|]; eexists _, _; (split; [reflexivity|]).
    all: split; [unfold id_at; simpl; rewrite lookup_middle; simpl; by rewrite Hfmt|].
    all: intros (e & He & Hid); simpl; rewrite fmap_app, fmap_cons; simpl;
      rewrite Hfmt.
    all: intros [_ [Hnd _]]%NoDup_app; apply (Hnd "rect-1");
      [apply list_elem_of_fmap; by exists e|left].
Qed.

Lemma clear_restarts_ids_witness :
  ∃ e s0 tx s1,
    e ∈ objects two_rects ∧ El.id e = "rect-1"
    ∧ clear two_rects = (Ok tt, s0)
    ∧ create_rectangle (int 0) (int 0) None None None None s0 = (Ok (4, tx), s1)
    ∧ ¬ NoDup (El.id <$> objects s1).
Proof.
  destruct (clear_restarts_ids two_rects) as (s0 & Hclear & _ & _ & _ & _ & _ & _ & Hr).
  destruct (Hr (int 0) (int 0) None None None None) as (tx & s1 & Heq & _ & Hdup).
  assert (∃ e, e ∈ objects two_rects ∧ El.id e = "rect-1") as (e & He & Hid).
  { eexists. split; [apply (list_elem_of_lookup_2 _ 0); vm_compute; reflexivity|].
    vm_compute. reflexivity. }
  exists e, s0, tx, s1. split_and!; [exact He|exact Hid|exact Hclear|exact Heq|].
  apply Hdup. by exists e.
Defined.

(** ** The arrows the layouts draw *)

(** X13.  The arrows of the layouts.  Every arrow a layout call makes,
    whether the call returns or raises, runs between two dicts that carry the
    ids of its two bindings: it starts at the middle of the right edge of the
    first, its polyline ends at the middle of the left edge of the second,
    its width and height are the absolute values of the polyline's extent,
    and it is solid and 2 wide. *)
Theorem layout_arrows_anchored `{MathLib} o s :
  (∀ c, o ≠ Method c) →
  Forall (λ e, El.type e = "arrow" → anchored (objects (after_op o s)) e)
    (drop (length (objects s)) (objects (after_op o s))).
Proof.
  intros Ho.
  assert (evolves layout_arrow s (after_op o s)) as Hev.
  { destruct o as [c| | |]; [by destruct (Ho c)|simpl..].
    - by apply evolves_sequential_layout, evolves_refl.
    - by apply evolves_routing_layout, evolves_refl.
    - by apply evolves_parallel_layout, evolves_refl. }
  apply evolves_anchored in Hev as (new & Hview & Hnew).
  eapply (Forall_drop_view (λ e, El.type e = "arrow" → anchored (objects (after_op o s)) e));
    [done|done|].
  eapply Forall_impl; [done|]. intros e He Hty. eapply anchored_mono; [|by apply He].
  intros x (x' & -> & Hx')%list_elem_of_fmap. by exists x'.
Qed.

Lemma layout_arrows_anchored_witness :
  (∀ c, SequentialLayout ["A"; "B"] (int 50) (int 50) "rectangle" None ≠ Method c)
  ∧ Forall (λ e, El.type e = "arrow"
                 → anchored
                     (objects (after_op (H:=rational_math)
                                 (SequentialLayout ["A"; "B"] (int 50) (int 50)
                                    "rectangle" None) init)) e)
      (drop (length (objects init))
         (objects (after_op (H:=rational_math)
                     (SequentialLayout ["A"; "B"] (int 50) (int 50) "rectangle" None)
                     init))).
Proof.
  assert (∀ c, SequentialLayout ["A"; "B"] (int 50) (int 50) "rectangle" None
               ≠ Method c) as Ho by done.
  split; [exact Ho|]. exact (layout_arrows_anchored _ init Ho).
Defined.

(** ** The sequential layout, dict by dict *)

Lemma bind_inv {A B} (m : M A) (k : A → M B) s b s' :
  bind m k s = (Ok b, s') → ∃ a s1, m s = (Ok a, s1) ∧ k a s1 = (Ok b, s').
Proof. unfold bind. destruct (m s) as [[a| |] s1]; [by eauto|done..]. Qed.

Lemma pick_eq colors i s :
  colors ≠ [] →
  ∃ c, colors !! (i mod length colors) = Some c ∧ pick colors i s = (Ok c, s).
Proof.
  intros Hne. unfold pick. destruct (length colors) as [|n] eqn:Hlen.
  { by destruct colors. }
  destruct (lookup_lt_is_Some_2 colors (i mod S n)) as [c Hc].
  { rewrite Hlen. apply Nat.mod_upper_bound. lia. }
  exists c. by rewrite Hc.
Qed.

Lemma create_labelled_eq prefix ty round x y text bg t :
  create_shape prefix ty round x y None None (Some text) (Some bg) t
  = (Ok (length (objects t),
         if decide (text = "") then None else Some (S (length (objects t)))),
     grow (shape_group prefix ty round x y text bg t)
       (if decide (text = "") then 1 else 2) t).
Proof. rewrite create_shape_eq. by destruct text. Qed.

Lemma shape_group_made prefix ty round x y text bg t :
  ∃ sh tx,
    frozen <$> shape_group prefix ty round x y text bg t = group_dicts (sh, tx)
    ∧ (is_Some tx ↔ text ≠ "")
    ∧ El.id sh = fmt prefix (element_counter t + 1)
    ∧ placed t (ElementType_value ty) x y [bg] 0 sh
    ∧ label_made text sh tx.
Proof.
  destruct text as [|ch text].
  - eexists _, None. split; [reflexivity|]. by split_and!.
  - eexists _, (Some _). split; [reflexivity|]. split_and!; try done.
    simpl. split_and!; [done..|]. by eexists.
Qed.

Lemma sequential_shape_eq colors item_type y els shapes cx i item t :
  colors ≠ [] →
  ∃ c, colors !! (i mod length colors) = Some c
       ∧ sequential_shape colors item_type y (els, shapes, cx) (i, item) t
         = (Ok ((els ++ [Some (length (objects t))])
                ++ (if decide (item = "") then []
                    else [Some (S (length (objects t)))]),
                shapes ++ [length (objects t)],
                (cx + (default_element_width t + default_spacing_x t))%Qc),
            grow (if decide (item_type = "rectangle")
                  then shape_group "rect" RECTANGLE 3 cx y item c t
                  else shape_group "ellipse" ELLIPSE 2 cx y item c t)
              (if decide (item = "") then 1 else 2) t).
Proof.
  intros Hne. destruct (pick_eq colors i t Hne) as (c & Hc & Hpick).
  exists c. split; [done|]. unfold sequential_shape.
  rewrite (bind_ok _ _ _ _ _ Hpick).
  destruct (decide (item_type = "rectangle")).
  - unfold create_rectangle. rewrite (bind_ok _ _ _ _ _ (create_labelled_eq _ _ _ _ _ _ _ _)).
    destruct (decide (item = "")); simpl; by rewrite ?app_nil_r.
  - unfold create_ellipse. rewrite (bind_ok _ _ _ _ _ (create_labelled_eq _ _ _ _ _ _ _ _)).
    destruct (decide (item = "")); simpl; by rewrite ?app_nil_r.
Qed.

Lemma int_S n : int (Z.of_nat (S n)) = (int (Z.of_nat n) + 1)%Qc.
Proof.
  unfold int. apply Qc_is_canon. rewrite Nat2Z.inj_succ. unfold Z.succ.
  simpl. rewrite !Qred_correct. rewrite inject_Z_plus. reflexivity.
Qed.

Lemma start_x_0 (x d : Qc) : x = (x + int (Z.of_nat 0) * d)%Qc.
Proof.
  assert (int (Z.of_nat 0) = 0%Qc) as -> by (apply Qc_is_canon; reflexivity).
  ring.
Qed.

Lemma next_x (x i d : num) : (x + i * d + d = x + (i + 1) * d)%Qc.
Proof. ring. Qed.

Lemma placed_at s t ty ety x y c colors i sh :
  ety = ty →
  default_element_width t = default_element_width s →
  default_element_height t = default_element_height s →
  colors !! (i mod length colors) = Some c →
  placed t ety x y [c] 0 sh → placed s ty x y colors i sh.
Proof.
  intros -> Hw Hh Hc (Hty & Hx & Hy & Hwd & Hht & Hbg). simpl in Hbg.
  injection Hbg as Hbg. unfold placed. rewrite <-Hw, <-Hh, <-Hbg. by split_and!.
Qed.

Lemma sequential_first_pass_placed items x y item_type colors s :
  colors ≠ [] →
  returns (for_each (enumerate items) (sequential_shape colors item_type y)
             ([], [], x)) s
    (λ _ t,
       ∃ groups,
         view t = view s ++ concat (group_dicts <$> groups)
         ∧ Forall2 (λ '(i, item) '(sh, tx),
                      placed s (shape_type item_type)
                        (x + int (Z.of_nat i)
                             * (default_element_width s + default_spacing_x s))%Qc
                        y colors i sh
                      ∧ label_made item sh tx)
             (enumerate items) groups).
Proof.
  intros Hcolors.
  eapply returns_mono.
  { apply (returns_for_each
      (λ i '(els, shapes, cx) t,
         cx = (x + int (Z.of_nat i)
                   * (default_element_width s + default_spacing_x s))%Qc
         ∧ default_element_width t = default_element_width s
         ∧ default_element_height t = default_element_height s
         ∧ default_spacing_x t = default_spacing_x s
         ∧ ∃ groups,
             view t = view s ++ concat (group_dicts <$> groups)
             ∧ Forall2 (λ '(i, item) '(sh, tx),
                          placed s (shape_type item_type)
                            (x + int (Z.of_nat i)
                                 * (default_element_width s + default_spacing_x s))%Qc
                            y colors i sh
                          ∧ label_made item sh tx)
                 (take i (enumerate items)) groups)).
    { split_and!; [|done..|].
      - apply start_x_0.
      - exists []. rewrite app_nil_r. split; [done|]. rewrite take_0. constructor. }
    intros i [j item'] [[els shapes] cx] t Hlook.
    pose proof Hlook as [item [[= -> ->] Hitem]]%lookup_enumerate_inv.
    intros (-> & Hw & Hh & Hsx & groups & Hview & Hgroups).
    destruct (sequential_shape_eq colors item_type y els shapes
                (x + int (Z.of_nat i)
                     * (default_element_width s + default_spacing_x s))%Qc
                i item t Hcolors) as (c & Hc & Heq).
    eexists _, _. split; [exact Heq|]. simpl. split_and!; [|done..|].
    - rewrite Hw, Hsx, int_S. apply next_x.
    - assert (∃ sh tx,
                frozen <$> (if decide (item_type = "rectangle")
                            then shape_group "rect" RECTANGLE 3
                                   (x + int (Z.of_nat i)
                                        * (default_element_width s
                                           + default_spacing_x s))%Qc y item c t
                            else shape_group "ellipse" ELLIPSE 2
                                   (x + int (Z.of_nat i)
                                        * (default_element_width s
                                           + default_spacing_x s))%Qc y item c t)
                = group_dicts (sh, tx)
                ∧ placed s (shape_type item_type)
                    (x + int (Z.of_nat i)
                         * (default_element_width s + default_spacing_x s))%Qc
                    y colors i sh
                ∧ label_made item sh tx) as (sh & tx & Hfr & Hpl & Hlb).
      { unfold shape_type. destruct (decide (item_type = "rectangle")).
        - destruct (shape_group_made "rect" RECTANGLE 3
                      (x + int (Z.of_nat i)
                           * (default_element_width s + default_spacing_x s))%Qc
                      y item c t) as (sh & tx & Hfr & _ & _ & Hpl & Hlb).
          exists sh, tx. split_and!; [done| |done].
          by apply (placed_at s t _ (ElementType_value RECTANGLE) _ _ c).
        - destruct (shape_group_made "ellipse" ELLIPSE 2
                      (x + int (Z.of_nat i)
                           * (default_element_width s + default_spacing_x s))%Qc
                      y item c t) as (sh & tx & Hfr & _ & _ & Hpl & Hlb).
          exists sh, tx. split_and!; [done| |done].
          by apply (placed_at s t _ (ElementType_value ELLIPSE) _ _ c). }
      exists (groups ++ [(sh, tx)]). split.
      + unfold view in *. simpl. rewrite fmap_app, Hview, Hfr, <-app_assoc.
        by rewrite fmap_app, concat_app, fmap_cons, concat_cons, app_nil_r.
      + rewrite (take_S_r _ _ _ Hlook). apply Forall2_app; [done|].
        by constructor. }
  intros [[els shapes] cx] t (_ & _ & _ & _ & groups & Hview & Hgroups).
  exists groups. split; [done|]. by rewrite length_enumerate, take_ge in Hgroups
    by (rewrite length_enumerate; lia).
Qed.

Lemma snd_enumerate {A} (xs : list A) : (enumerate xs).*2 = xs.
Proof.
  unfold enumerate. apply list_eq. intros i.
  rewrite list_lookup_fmap, list_lookup_imap. by destruct (xs !! i).
Qed.

Lemma Forall2_enumerate {A B} (Q : A → B → Prop) (xs : list A) (ys : list B) :
  Forall2 (λ '(_, x) y, Q x y) (enumerate xs) ys → Forall2 Q xs ys.
Proof.
  intros H. rewrite <-(snd_enumerate xs). apply Forall2_fmap_l.
  eapply Forall2_impl; [done|]. by intros [i x] y.
Qed.

Lemma NoDup_fmap_eq {A B} (f : A → B) (l : list A) x y :
  NoDup (f <$> l) → x ∈ l → y ∈ l → f x = f y → x = y.
Proof.
  intros Hnd [i Hi]%list_elem_of_lookup [j Hj]%list_elem_of_lookup Heq.
  assert (i = j) as ->; [|congruence].
  eapply NoDup_lookup; [done|..]; rewrite list_lookup_fmap.
  - by rewrite Hi.
  - by rewrite Hj, Heq.
Qed.

(** The dicts of the groups, by type. *)
Lemma groups_types ty items (groups : list (El.t * option El.t)) :
  Forall2 (λ item '(sh, tx), El.type sh = ty ∧ label_made item sh tx) items groups →
  El.type <$> concat (group_dicts <$> groups) = concat (item_kinds ty <$> items).
Proof.
  induction 1 as [|item [sh tx] items groups [Hty Hlb] _ IH]; [done|].
  rewrite !fmap_cons, !concat_cons, fmap_app, IH. f_equal.
  unfold group_dicts, item_kinds. simpl. rewrite Hty. f_equal.
  destruct tx as [t|]; simpl in *.
  - destruct Hlb as (Hne & -> & _). by destruct item.
  - by rewrite Hlb.
Qed.

Lemma groups_shapes ty items (groups : list (El.t * option El.t)) :
  ty ≠ "text" →
  Forall2 (λ item '(sh, tx), El.type sh = ty ∧ label_made item sh tx) items groups →
  filter (λ e, El.type e = ty) (concat (group_dicts <$> groups)) = groups.*1.
Proof.
  intros Hty. induction 1 as [|item [sh tx] items groups [Hsh Hlb] _ IH]; [done|].
  rewrite !fmap_cons, concat_cons, filter_app, IH. unfold group_dicts. simpl.
  rewrite filter_cons_True by done. f_equal.
  destruct tx as [t|]; simpl in *; [|done].
  destruct Hlb as (_ & Ht & _). rewrite filter_cons_False; [done|]. congruence.
Qed.

Lemma groups_no_arrows ty items (groups : list (El.t * option El.t)) :
  ty ≠ "arrow" →
  Forall2 (λ item '(sh, tx), El.type sh = ty ∧ label_made item sh tx) items groups →
  Forall (λ e, El.type e ≠ "arrow") (concat (group_dicts <$> groups)).
Proof.
  intros Hty. induction 1 as [|item [sh tx] items groups [Hsh Hlb] _ IH];
    [constructor|].
  rewrite fmap_cons, concat_cons. apply Forall_app. split; [|done].
  unfold group_dicts. simpl. constructor; [congruence|].
  destruct tx as [t|]; simpl in *; [|constructor].
  destruct Hlb as (_ & Ht & _). apply Forall_singleton. by rewrite Ht.
Qed.

Lemma arrow_links_anchored h (arrows : list El.t) :
  Forall (λ e, El.type e = "arrow") arrows →
  Forall (λ e, El.type e = "arrow" → anchored h e) arrows →
  Forall2 (λ a l, ∃ k, El.keys a = ArrowKeys k
                       ∧ l = (Binding.elementId (Arrow.startBinding k),
                              Binding.elementId (Arrow.endBinding k)))
    arrows (arrow_links arrows).
Proof.
  unfold arrow_links. induction 1 as [|a arrows Hty _ IH]; intros Hanch; [constructor|].
  apply Forall_cons in Hanch as [Ha Hanch].
  destruct (Ha Hty) as (k & _ & _ & Hk & _).
  rewrite filter_cons_True by done. simpl. rewrite Hk. constructor; [by exists k|].
  by apply IH.
Qed.

Lemma span_x (x i w sx : Qc) :
  (x + (i + 1) * (w + sx) - (x + i * (w + sx) + w) = sx)%Qc.
Proof. ring. Qed.

Lemma span_y (c : Qc) : (c - c)%Qc = int 0.
Proof.
  assert (int 0 = 0%Qc) as -> by (apply Qc_is_canon; reflexivity). ring.
Qed.

Lemma Qcabs_int_0 : Qcabs (int 0) = int 0.
Proof. apply Qc_is_canon. reflexivity. Qed.

(** X14.  The geometry of the sequential layout.  On an agent whose
    [self.elements] is a list of dicts and whose ids are unique, the layout
    returns, having made for the [i]-th label a shape of the chosen type and
    of the default size at [x = start_x + i * (default_element_width +
    default_spacing_x)], [y = start_y], with the background
    [colors[i % len(colors)]], followed by a text with the label whose
    container is the shape (no text for an empty label), and then the
    arrows: the [j]-th arrow joins the [j]-th shape to the next one, from the
    middle of the right edge to the middle of the left edge, so its polyline
    is [[0, 0], [default_spacing_x, 0]]. *)
Theorem sequential_layout_geometry items x y item_type colors s :
  wf s → all_dicts s → unique_ids s → colors ≠ Some [] →
  ∃ ret s' groups arrows,
    create_sequential_layout items x y item_type colors s = (Ok ret, s')
    ∧ created s s' = concat (group_dicts <$> groups) ++ arrows
    ∧ Forall2 (λ '(i, item) '(sh, tx),
                 placed s (shape_type item_type)
                   (x + int (Z.of_nat i)
                        * (default_element_width s + default_spacing_x s))%Qc
                   y (default [ColorScheme.LLM] colors) i sh
                 ∧ label_made item sh tx)
        (enumerate items) groups
    ∧ length arrows = length items - 1
    ∧ ∀ j a, arrows !! j = Some a →
        ∃ sh sh' k,
          groups.*1 !! j = Some sh ∧ groups.*1 !! S j = Some sh'
          ∧ joins sh sh' a
          ∧ El.keys a = ArrowKeys k
          ∧ Arrow.points k = [[int 0; int 0]; [default_spacing_x s; int 0]]
          ∧ El.width a = Qcabs (default_spacing_x s)
          ∧ El.height a = int 0.
Proof.
  intros Hwf Hall Huniq Hcolors.
  destruct (returns_final _ _ _ (sequential_layout_spec items x y item_type colors s
                                   Hwf Hall Hcolors))
    as (ret & Hret & ks & _ & Htypes & Hids & Hlenks & Hndks & Hlinks & _).
  destruct (create_sequential_layout items x y item_type colors s) as [r s'] eqn:Heq.
  simpl in *. subst r.
  pose proof Heq as Heq'. unfold create_sequential_layout in Heq'.
  apply bind_inv in Heq' as ([[els1 shapes] cx] & s1 & Hfirst & Hsecond).
  pose proof (sequential_first_pass_placed items x y item_type
                (default [ColorScheme.LLM] colors) s
                ltac:(by destruct colors as [[|]|])) as Hplaced.
  apply (returns_inv _ _ _ _ _ Hfirst) in Hplaced as (groups & Hview1 & Hgroups).
  pose proof (evolves_sequential_arrows layout_arrow s1 ltac:(done) shapes els1
                (length shapes - 1) s1 (evolves_refl _ _)) as Hev.
  rewrite Hsecond in Hev. simpl in Hev.
  apply evolves_anchored in Hev as (arrows & Hview' & Hanch).
  assert (created s s' = concat (group_dicts <$> groups) ++ arrows) as Hcreated.
  { apply created_grow. by rewrite Hview', Hview1, <-app_assoc. }
  assert (Forall2 (λ item '(sh, tx),
                     El.type sh = shape_type item_type ∧ label_made item sh tx)
            items groups) as Hgroups'.
  { apply Forall2_enumerate. eapply Forall2_impl; [done|].
    intros [i item] [sh tx] [(? & _) ?]. done. }
  rewrite Hcreated in Htypes, Hids, Hlinks.
  rewrite fmap_app, (groups_types _ _ _ Hgroups') in Htypes.
  apply app_inv_head in Htypes.
  assert (Forall (λ e, El.type e = "arrow") arrows) as Harrows.
  { assert (Forall (λ t, t = "arrow") (El.type <$> arrows)) as Hf.
    { rewrite Htypes. by apply Forall_replicate. }
    by rewrite Forall_fmap in Hf. }
  assert (length arrows = length items - 1) as Hlen.
  { by rewrite <-(length_fmap El.type), Htypes, length_replicate. }
  unfold shape_ids in Hids.
  rewrite filter_app, (groups_shapes _ _ _ (shape_type_not_text _) Hgroups') in Hids.
  rewrite (filter_type_none (shape_type item_type) arrows), app_nil_r in Hids.
  2:{ eapply Forall_impl; [done|]. simpl. intros e -> Hc.
      by eapply shape_type_not_arrow. }
  rewrite <-Hids in Hlinks.
  assert (arrow_links (concat (group_dicts <$> groups) ++ arrows) = arrow_links arrows)
    as Hlinks'.
  { unfold arrow_links. rewrite filter_app, omap_app.
    rewrite (filter_type_none "arrow" (concat _)); [done|].
    eapply groups_no_arrows; [apply shape_type_not_arrow|done]. }
  rewrite Hlinks' in Hlinks.
  pose proof (arrow_links_anchored _ _ Harrows Hanch) as Hkeys.
  rewrite Hlinks in Hkeys.
  assert (NoDup (El.id <$> view s')) as Hnd.
  { assert (unique_ids s') as [Hnd _].
    { pose proof (evolves_sequential_layout layout_arrow s ltac:(done) items x y
                    item_type colors s (evolves_refl _ _)) as Hev.
      rewrite Heq in Hev. by eapply evolves_unique_ids. }
    unfold view. rewrite <-list_fmap_compose.
    erewrite list_fmap_ext; [exact Hnd|done]. }
  assert (∀ sh, sh ∈ groups.*1 → sh ∈ view s') as Hmem.
  { intros sh Hsh. rewrite Hview', Hview1, !elem_of_app. left. right.
    rewrite <-(groups_shapes _ _ _ (shape_type_not_text _) Hgroups') in Hsh.
    by apply list_elem_of_filter in Hsh as [_ ?]. }
  exists ret, s', groups, arrows. split_and!; [done..|].
  intros j a Ha.
  destruct (Forall2_lookup_l _ _ _ _ _ Hkeys Ha) as (l & Hl & k & Hk & ->).
  apply lookup_zip_Some in Hl as [Hl1 Hl2]. rewrite lookup_drop in Hl2.
  apply list_lookup_fmap_Some in Hl1 as (sh & Hids1 & Hsh).
  apply list_lookup_fmap_Some in Hl2 as (sh' & Hids2 & Hsh').
  simpl in Hsh'.
  rewrite Forall_lookup in Hanch, Harrows.
  destruct (Hanch _ _ Ha (Harrows _ _ Ha))
    as (k' & e_s & e_e & Hk' & Hins & Hidsa & Hine & Hidea & Hx & Hy & Hpts & Hw & Hh
        & _ & _).
  rewrite Hk in Hk'. injection Hk' as <-.
  assert (e_s = sh) as ->.
  { apply (NoDup_fmap_eq El.id (view s')); [done..| |congruence].
    apply Hmem. by eapply list_elem_of_lookup_2. }
  assert (e_e = sh') as ->.
  { apply (NoDup_fmap_eq El.id (view s')); [done..| |congruence].
    apply Hmem. by eapply list_elem_of_lookup_2. }
  apply list_lookup_fmap_Some in Hsh as ([sh0 tx] & Heq1 & Hg). simpl in Heq1. subst sh0.
  apply list_lookup_fmap_Some in Hsh' as ([sh0 tx'] & Heq1 & Hg'). simpl in Heq1.
  subst sh0.
  destruct (Forall2_lookup_r _ _ _ _ _ Hgroups Hg) as ([i item] & Hi & Hpl & _).
  destruct (Forall2_lookup_r _ _ _ _ _ Hgroups Hg') as ([i' item'] & Hi' & Hpl' & _).
  apply lookup_enumerate_inv in Hi as (? & [= -> ->] & _).
  apply lookup_enumerate_inv in Hi' as (? & [= -> ->] & _).
  destruct Hpl as (_ & Hxs & Hys & Hws & Hhs & _).
  destruct Hpl' as (_ & Hxs' & Hys' & Hws' & Hhs' & _).
  exists sh, sh', k. split_and!.
  - by rewrite list_lookup_fmap, Hg.
  - by rewrite list_lookup_fmap, Hg'.
  - exists k. split_and!; [by apply Harrows in Ha|done|congruence..|done|done|done|done|done].
  - done.
  - rewrite Hpts, Hx, Hy, Hxs, Hxs', Hys, Hys', Hws, Hhs, Hhs', int_S.
    do 3 f_equal; [apply span_x|f_equal; apply span_y].
  - rewrite Hw, Hx, Hxs, Hxs', Hws, int_S. f_equal. apply span_x.
  - rewrite Hh, Hy, Hys, Hys', Hhs, Hhs'. rewrite span_y. apply Qcabs_int_0.
Qed.

Lemma sequential_layout_geometry_witness :
  ∃ ret s' groups arrows,
    create_sequential_layout ["A"; ""; "C"] (int 50) (int 50) "ellipse" None two_rects
    = (Ok ret, s')
    ∧ created two_rects s' = concat (group_dicts <$> groups) ++ arrows
    ∧ Forall2 (λ '(i, item) '(sh, tx),
                 placed two_rects (shape_type "ellipse")
                   (int 50 + int (Z.of_nat i)
                        * (default_element_width two_rects
                           + default_spacing_x two_rects))%Qc
                   (int 50) (default [ColorScheme.LLM] None) i sh
                 ∧ label_made item sh tx)
        (enumerate ["A"; ""; "C"]) groups
    ∧ length arrows = length ["A"; ""; "C"] - 1
    ∧ ∀ j a, arrows !! j = Some a →
        ∃ sh sh' k,
          groups.*1 !! j = Some sh ∧ groups.*1 !! S j = Some sh'
          ∧ joins sh sh' a
          ∧ El.keys a = ArrowKeys k
          ∧ Arrow.points k = [[int 0; int 0]; [default_spacing_x two_rects; int 0]]
          ∧ El.width a = Qcabs (default_spacing_x two_rects)
          ∧ El.height a = int 0.
Proof.
  apply (sequential_layout_geometry ["A"; ""; "C"] (int 50) (int 50) "ellipse" None
           two_rects).
  - by apply (bool_decide_unpack _); vm_compute.
  - by apply (bool_decide_unpack _); vm_compute.
  - apply unique_ids_after_all.
  - done.
Defined.

Lemma post_for_each_cons {A B} x xs (body : B → A → M B) acc s
    (Q : result B → ExcalidrawAgent → Prop) :
  post (bind (body acc x) (for_each xs body)) s Q →
  post (for_each (x :: xs) body acc) s Q.
Proof. done. Qed.

(** X15.  The sequential layout does not undo what it added when it fails.
    On an agent whose [self.elements] holds a [None] (as a layout with an
    empty hub label leaves it) and whose ids were all issued by its counter
    (no [clear] since they were made), with a palette that is not the empty
    list, a sequential layout of two labels or more makes all its shapes and
    texts, puts the first two shapes into [self.elements] for the first
    arrow, and ends with the [TypeError] of [create_arrow]: the two shapes
    stay in [self.elements]. *)
Theorem sequential_layout_leaves_shapes_behind items x y item_type colors s :
  wf s → ids_issued s → None ∈ elements s → 2 ≤ length items →
  colors ≠ Some [] →
  ∃ s' a0 a1 k0 k1,
    create_sequential_layout items x y item_type colors s = (Raise TypeError, s')
    ∧ elements s' = elements s ++ [Some a0; Some a1]
    ∧ id_at s' a0 = Some (fmt (shape_prefix item_type) k0)
    ∧ id_at s' a1 = Some (fmt (shape_prefix item_type) k1)
    ∧ (element_counter s < k0)%N ∧ (element_counter s < k1)%N ∧ k0 ≠ k1
    ∧ El.type <$> created s s'
      = concat (item_kinds (shape_type item_type) <$> items).
Proof.
  intros Hwf Hiss Hnone Hlen Hcolors.
  cut (post (create_sequential_layout items x y item_type colors) s
         (λ r s', r = Raise TypeError
                  ∧ ∃ a0 a1 k0 k1,
                      elements s' = elements s ++ [Some a0; Some a1]
                      ∧ id_at s' a0 = Some (fmt (shape_prefix item_type) k0)
                      ∧ id_at s' a1 = Some (fmt (shape_prefix item_type) k1)
                      ∧ (element_counter s < k0)%N ∧ (element_counter s < k1)%N
                      ∧ k0 ≠ k1
                      ∧ El.type <$> created s s'
                        = concat (item_kinds (shape_type item_type) <$> items))).
  { unfold post. destruct (create_sequential_layout _ _ _ _ _ _) as [r s'].
    simpl. intros (-> & a0 & a1 & k0 & k1 & H). by exists s', a0, a1, k0, k1. }
  unfold create_sequential_layout.
  pstep. eapply returns_mono.
  { apply sequential_first_pass. by destruct colors as [[|]|]. }
  intros [[els1 shapes] cx] s1.
  intros (new & ks & Hview1 & Hels1 & Hcnt1 & -> & Hty & Hna & Hids & Hlenks & Hks & Hnd
          & Hsh).
  rewrite take_ge in Hty by lia.
  assert (length shapes = length items) as Hlsh by by rewrite (Forall2_length _ _ _ Hsh).
  destruct (lookup_lt_is_Some_2 shapes 0) as [a0 Ha0]; [lia|].
  destruct (lookup_lt_is_Some_2 shapes 1) as [a1 Ha1]; [lia|].
  destruct (Forall2_lookup_l _ _ _ _ _ Hsh Ha0) as (k0 & Hk0 & Hid0).
  destruct (Forall2_lookup_l _ _ _ _ _ Hsh Ha1) as (k1 & Hk1 & Hid1).
  assert (k0 ≠ k1) as Hne.
  { intros ->. pose proof (NoDup_lookup _ _ _ _ Hnd Hk0 Hk1). lia. }
  rewrite Forall_lookup in Hks.
  pose proof (Hks _ _ Hk0) as Hc0. pose proof (Hks _ _ Hk1) as Hc1. simpl in Hc0, Hc1.
  assert (wf s1) as Hwf1.
  { apply (wf_elements s); [|rewrite Hels1; auto|done].
    rewrite <-!length_view, Hview1, length_app. lia. }
  assert (∀ b p k, Some b ∈ elements s → p ∈ prefixes → (element_counter s < k)%N →
                   id_at s1 b ≠ Some (fmt p k)) as Hold.
  { intros b p k Hb Hp Hk. pose proof (wf_valid _ _ Hwf Hb) as Hvb.
    rewrite (id_at_grow s s1 _ b Hview1) by done.
    destruct (objects s !! b) as [e|] eqn:He; [|by apply lookup_ge_None in He; lia].
    unfold id_at. rewrite He. simpl. intros [= Heq].
    unfold ids_issued in Hiss. rewrite Forall_lookup in Hiss.
    by apply (issued_not_later _ _ p k Hp (Hiss _ _ He)). }
  replace (length shapes - 1) with (S (length shapes - 2)) by lia.
  rewrite <-cons_seq. apply post_for_each_cons.
  apply post_bind_raise with TypeError. unfold sequential_arrow.
  pose proof (id_at_valid _ _ _ Hid0) as Hv0.
  pose proof (id_at_valid _ _ _ Hid1) as Hv1.
  destruct (objects s1 !! a0) as [e0|] eqn:He0;
    [|by unfold id_at in Hid0; rewrite He0 in Hid0].
  destruct (objects s1 !! a1) as [e1|] eqn:He1;
    [|by unfold id_at in Hid1; rewrite He1 in Hid1].
  pstep. eapply returns_item; [done|].
  pstep. eapply returns_item; [done|].
  pstep. apply returns_contains.
  rewrite existsb_false.
  2:{ intros r Hr. apply (same_dict_fresh s1 a0 r _ Hid0). intros b ->.
      rewrite Hels1 in Hr. apply Hold; [done|apply shape_prefix_prefixes|lia]. }
  pstep. apply returns_add_element.
  pstep. apply returns_contains. simpl.
  rewrite existsb_false.
  2:{ intros r Hr. apply (same_dict_fresh s1 a1 r _ Hid1). intros b ->.
      rewrite Hels1 in Hr. apply elem_of_app in Hr as [Hr|Hr].
      - apply Hold; [done|apply shape_prefix_prefixes|lia].
      - apply list_elem_of_singleton in Hr as [= ->]. rewrite Hid0.
        intros [= Heq]. apply fmt_inj in Heq; [done|apply shape_prefix_prefixes..]. }
  pstep. apply returns_add_element.
  pstep. eapply returns_id_of; [done|].
  pstep. eapply returns_id_of; [done|].
  eapply post_bind_raise, post_eq.
  { apply create_arrow_type_error.
    - apply (wf_elements s1); [done| |done]. simpl. rewrite Hels1.
      intros r [[?|Hr]%elem_of_app|Hr]%elem_of_app; [by left|right..];
        apply list_elem_of_singleton in Hr as ->; eauto.
    - simpl. rewrite Hels1, !elem_of_app. auto. }
  split; [done|]. split; [done|]. split; [done|].
  exists a0, a1, k0, k1. simpl.
  split_and!; [by rewrite Hels1, <-app_assoc|done|done|lia|lia|done|].
  by rewrite (created_grow s _ new).
Qed.

Lemma sequential_layout_leaves_shapes_behind_witness :
  ∃ s' a0 a1 k0 k1,
    create_sequential_layout ["A"; "B"] (int 50) (int 50) "rectangle" None
      (after_all [AddElement None] init) = (Raise TypeError, s')
    ∧ elements s' = elements (after_all [AddElement None] init) ++ [Some a0; Some a1]
    ∧ id_at s' a0 = Some (fmt (shape_prefix "rectangle") k0)
    ∧ id_at s' a1 = Some (fmt (shape_prefix "rectangle") k1)
    ∧ (element_counter (after_all [AddElement None] init) < k0)%N
    ∧ (element_counter (after_all [AddElement None] init) < k1)%N
    ∧ k0 ≠ k1
    ∧ El.type <$> created (after_all [AddElement None] init) s'
      = concat (item_kinds (shape_type "rectangle") <$> ["A"; "B"]).
Proof.
  apply (sequential_layout_leaves_shapes_behind ["A"; "B"] (int 50) (int 50)
           "rectangle" None (after_all [AddElement None] init)).
  - by apply (bool_decide_unpack _); vm_compute.
  - apply Forall_nil_2.
  - apply list_elem_of_here.
  - simpl. lia.
  - done.
Defined.

(** ** One arrow, one spoke *)

Lemma same_settings_trans s t u :
  same_settings s t → same_settings t u → same_settings s u.
Proof.
  intros (? & ? & ? & ? & ? & ?) (? & ? & ? & ? & ? & ?).
  repeat split; congruence.
Qed.

Lemma unique_ids_lookup s a b e e' :
  unique_ids s → objects s !! a = Some e → objects s !! b = Some e' →
  El.id e = El.id e' → a = b.
Proof.
  intros [Hnd _] Ha Hb Hid.
  eapply NoDup_lookup; [done|..]; rewrite list_lookup_fmap.
  - by rewrite Ha.
  - by rewrite Hb, Hid.
Qed.

(** The arrow the layouts draw between two dicts of [self.elements]. *)
Lemma arrow_eq a_s a_e e_s e_e t :
  wf t → all_dicts t → unique_ids t →
  Some a_s ∈ elements t → Some a_e ∈ elements t →
  objects t !! a_s = Some e_s → objects t !! a_e = Some e_e → a_s ≠ a_e →
  ∃ a t',
    create_arrow (El.id e_s) (El.id e_e) None None "solid" 2 t
    = (Ok (length (objects t)), t')
    ∧ view t' = view t ++ [a]
    ∧ elements t' = elements t
    ∧ same_settings t t'
    ∧ joins (frozen e_s) (frozen e_e) a
    ∧ wf t' ∧ all_dicts t' ∧ unique_ids t'.
Proof.
  intros Hwf Hall Huniq Hins Hine Hes Hee Hne.
  assert (El.id e_s ≠ El.id e_e) as Hids.
  { intros Heq. by apply Hne, (unique_ids_lookup t a_s a_e e_s e_e). }
  destruct (proj2 (create_arrow_returns_iff (El.id e_s) (El.id e_e) None None "solid" 2
                     t Hwf)) as (a & t' & Heq).
  { split_and!; [done| | |done].
    - apply (present_intro _ _ a_s); [done|]. unfold id_at. by rewrite Hes.
    - apply (present_intro _ _ a_e); [done|]. unfold id_at. by rewrite Hee. }
  pose proof (unique_ids_after (CreateArrow (El.id e_s) (El.id e_e) None None "solid" 2)
                t Huniq) as [Huniq' _].
  simpl in Huniq'. rewrite Heq in Huniq'. simpl in Huniq'.
  destruct (create_arrow_ok _ _ _ _ _ _ _ _ _ Heq)
    as (b_s & b_e & f_s & f_e & Hse & Hen & Hfs & Hfe & _ & -> & Ht').
  apply start_entry_Some in Hse as [_ Hse]. apply end_entry_Some in Hen as (_ & Hen & _).
  unfold id_at in Hse, Hen. rewrite Hfs in Hse. rewrite Hfe in Hen.
  injection Hse as Hse. injection Hen as Hen.
  assert (b_s = a_s) as -> by by apply (unique_ids_lookup t _ _ f_s e_s).
  assert (b_e = a_e) as -> by by apply (unique_ids_lookup t _ _ f_e e_e).
  rewrite Hes in Hfs. rewrite Hee in Hfe. injection Hfs as <-. injection Hfe as <-.
  assert (view t' = view t ++ [arrow_dict (current_group_id t) (element_counter t + 1)
                                 (El.id e_s) (El.id e_e) (start_anchor None e_s)
                                 (end_anchor None e_e) "solid" 2]) as Hview.
  { subst t'. unfold view. simpl.
    rewrite view_insert_bind.
    2:{ rewrite list_lookup_insert_ne by done. by apply lookup_app_l_Some. }
    rewrite view_insert_bind by by apply lookup_app_l_Some.
    by rewrite fmap_app. }
  eexists _, t'. split; [done|]. split; [exact Hview|].
  assert (elements t' = elements t) as Hels by by subst t'.
  split_and!; [done|by subst t'| | |by unfold all_dicts; rewrite Hels|done].
  - eexists. split_and!; reflexivity.
  - apply (wf_elements t); [|rewrite Hels; auto|done].
    rewrite <-!length_view, Hview, length_app. lia.
Qed.

Lemma id_of_ok a e s : objects s !! a = Some e → id_of a s = (Ok (El.id e), s).
Proof. intros Ha. unfold id_of. by rewrite (bind_ok _ _ _ _ _ (load_ok _ _ _ Ha)). Qed.

Lemma bind_add_element {B} r (k : unit → M B) s :
  bind (add_element r) k s = k tt (set_elements (elements s ++ [r]) s).
Proof. done. Qed.

(** A labelled shape is made and appended with its text. *)
Lemma labelled_shape_eq {B} prefix ty round name x y color
    (K : addr → ref → M B) t :
  (prefix, ty, round) ∈ [("rect", RECTANGLE, 3%Z); ("ellipse", ELLIPSE, 2%Z)] →
  wf t → all_dicts t → unique_ids t → name ≠ "" →
  ∃ e_d sh tx t',
    (let* (dest, dest_text) :=
       create_shape prefix ty round x y None None (Some name) (Some color) in
     let* _ := add_element (Some dest) in
     let* _ := add_element dest_text in
     K dest dest_text) t
    = K (length (objects t)) (Some (S (length (objects t)))) t'
    ∧ objects t' !! length (objects t) = Some e_d ∧ frozen e_d = sh
    ∧ (∀ a e, objects t !! a = Some e → objects t' !! a = Some e)
    ∧ length (objects t') = S (S (length (objects t)))
    ∧ view t' = view t ++ [sh; tx]
    ∧ elements t'
      = elements t ++ [Some (length (objects t)); Some (S (length (objects t)))]
    ∧ same_settings t t'
    ∧ placed t (ElementType_value ty) x y [color] 0 sh
    ∧ label_made name sh (Some tx)
    ∧ wf t' ∧ all_dicts t' ∧ unique_ids t'.
Proof.
  intros Hin Hwf Hall Huniq Hname.
  rewrite (bind_ok _ _ _ _ _ (create_labelled_eq prefix ty round x y name color t)).
  rewrite !decide_False by done. rewrite !bind_add_element.
  destruct (shape_group_made prefix ty round x y name color t)
    as (sh & tx & Hfr & _ & _ & Hpl & Hlb).
  set (t1 := grow (shape_group prefix ty round x y name color t) 2 t) in *.
  set (t2 := set_elements _ _).
  destruct name as [|ch name]; [done|].
  destruct tx as [tx|]; [|done]. simpl in Hfr. injection Hfr as Hsh Htx.
  assert (unique_ids t2) as Huniq2.
  { assert (t1 = (create_shape prefix ty round x y None None (Some (String ch name))
                    (Some color) t).2) as Ht1
      by by rewrite create_labelled_eq.
    in_cases Hin; simplify_eq.
    - pose proof (unique_ids_after
                    (CreateRectangle x y None None (Some (String ch name)) (Some color))
                    t Huniq) as [H1 _].
      simpl in H1. unfold create_rectangle in H1. by rewrite <-Ht1 in H1.
    - pose proof (unique_ids_after
                    (CreateEllipse x y None None (Some (String ch name)) (Some color))
                    t Huniq) as [H1 _].
      simpl in H1. unfold create_ellipse in H1. by rewrite <-Ht1 in H1. }
  eexists _, sh, tx, t2. split; [reflexivity|].
  split_and!.
  - subst t2 t1. simpl. apply lookup_middle.
  - done.
  - intros a e Ha. subst t2 t1. simpl. by apply lookup_app_l_Some.
  - subst t2 t1. simpl. rewrite length_app. simpl. lia.
  - subst t2 t1. unfold view. simpl. rewrite fmap_app. simpl. by rewrite Hsh, Htx.
  - subst t2 t1. simpl. by rewrite <-app_assoc.
  - by repeat split.
  - done.
  - done.
  - apply (wf_elements t); [subst t2 t1; simpl; rewrite length_app; lia| |done].
    subst t2 t1. simpl. rewrite length_app. simpl.
    intros r [[?|Hr]%elem_of_app|Hr]%elem_of_app; [by left|right..];
      apply list_elem_of_singleton in Hr as ->; eexists; (split; [done|lia]).
  - unfold all_dicts in *. subst t2 t1. simpl. rewrite !elem_of_app.
    intros [[?|Hr]|Hr]; [done|..]; by apply list_elem_of_singleton in Hr.
  - done.
Qed.

(** A labelled rectangle is made and appended with its text, and an arrow is
    drawn to it from [hub], a dict of [self.elements]. *)
Lemma spoke_eq {B} hub e_h name x y color (K : addr → ref → addr → M B) t :
  wf t → all_dicts t → unique_ids t → name ≠ "" →
  Some hub ∈ elements t → objects t !! hub = Some e_h →
  ∃ e_d g t',
    (let* (dest, dest_text) :=
       create_rectangle x y None None (Some name) (Some color) in
     let* _ := add_element (Some dest) in
     let* _ := add_element dest_text in
     let* hub_id := id_of hub in
     let* dest_id := id_of dest in
     let* arrow := create_arrow hub_id dest_id None None "solid" 2 in
     K dest dest_text arrow) t
    = K (length (objects t)) (Some (S (length (objects t))))
        (S (S (length (objects t)))) t'
    ∧ objects t' !! length (objects t) = Some e_d ∧ frozen e_d = g.1.1
    ∧ (∀ a e, objects t !! a = Some e →
              ∃ e', objects t' !! a = Some e' ∧ frozen e' = frozen e)
    ∧ view t' = view t ++ spoke_dicts g
    ∧ elements t'
      = elements t ++ [Some (length (objects t)); Some (S (length (objects t)))]
    ∧ same_settings t t'
    ∧ placed t "rectangle" x y [color] 0 g.1.1
    ∧ label_made name g.1.1 (Some g.1.2)
    ∧ joins (frozen e_h) g.1.1 g.2
    ∧ wf t' ∧ all_dicts t' ∧ unique_ids t'.
Proof.
  intros Hwf Hall Huniq Hname Hhub Hh. unfold create_rectangle.
  destruct (labelled_shape_eq "rect" RECTANGLE 3 name x y color
              (λ dest dest_text,
                 let* hub_id := id_of hub in
                 let* dest_id := id_of dest in
                 let* arrow := create_arrow hub_id dest_id None None "solid" 2 in
                 K dest dest_text arrow) t)
    as (e_d & sh & tx & t2 & Heq & Hd & Hsh & Hold & Hlen2 & Hview2 & Hels2 & Hset2
        & Hpl & Hlb & Hwf2 & Hall2 & Huniq2); [by left|done..|].
  rewrite Heq. clear Heq.
  rewrite (bind_ok _ _ _ _ _ (id_of_ok hub e_h t2 (Hold _ _ Hh))).
  rewrite (bind_ok _ _ _ _ _ (id_of_ok _ e_d t2 Hd)).
  pose proof (wf_valid _ _ Hwf Hhub) as Hlt.
  destruct (arrow_eq hub (length (objects t)) e_h e_d t2)
    as (a & t' & Heq & Hview' & Hels' & Hset' & Hj & Hwf' & Hall' & Huniq');
    [done|done|done| | |by apply Hold|done|lia|].
  { rewrite Hels2, !elem_of_app. auto. }
  { rewrite Hels2, !elem_of_app. right. apply list_elem_of_here. }
  rewrite (bind_ok _ _ _ _ _ Heq), Hlen2.
  assert (∀ b e, objects t2 !! b = Some e →
                 ∃ e', objects t' !! b = Some e' ∧ frozen e' = frozen e) as Hkeep.
  { intros b e Hb.
    assert (view t' !! b = Some (frozen e)) as Hv.
    { rewrite Hview'. apply lookup_app_l_Some. unfold view.
      by rewrite list_lookup_fmap, Hb. }
    unfold view in Hv. rewrite list_lookup_fmap in Hv.
    destruct (objects t' !! b) as [e'|]; [|done]. exists e'. split; [done|]. simpl in Hv. congruence. }
  destruct (Hkeep _ _ Hd) as (e_d' & Hd' & Hfr').
  exists e_d', (sh, tx, a), t'. split; [done|]. simpl.
  split_and!; try done.
  - congruence.
  - intros b e Hb. apply Hkeep, Hold, Hb.
  - by rewrite Hview', Hview2, <-app_assoc.
  - by rewrite Hels', Hels2.
  - by eapply same_settings_trans.
  - by destruct Hlb as (_ & ? & _).
  - by destruct Hlb as (_ & _ & ?).
  - by rewrite <-Hsh.
Qed.

(** ** The routing layout, dict by dict *)

Lemma truediv_ok a b s : b ≠ 0%Qc → truediv a b s = (Ok (a / b)%Qc, s).
Proof. intros Hb. unfold truediv. by destruct (decide _). Qed.

Lemma placed_in s t ty x y c colors i sh :
  same_settings s t → colors !! (i mod length colors) = Some c →
  placed t ty x y [c] 0 sh → placed s ty x y colors i sh.
Proof.
  intros (_ & _ & _ & Hw & Hh & _) Hc. by apply placed_at.
Qed.

Lemma routing_loop `{MathLib} dc x y radius step hub hb s0 destinations :
  dc ≠ [] → Forall (λ d, d ≠ "") destinations →
  ∀ i0 els t,
    same_settings s0 t → wf t → all_dicts t → unique_ids t →
    Some hub ∈ elements t →
    (∃ e_h, objects t !! hub = Some e_h ∧ frozen e_h = hb) →
    ∃ els' t' spokes,
      for_each (imap (λ j, pair (i0 + j)) destinations)
        (routing_destination dc x y radius step hub) els t = (Ok els', t')
      ∧ view t' = view t ++ concat (spoke_dicts <$> spokes)
      ∧ Forall2 (λ '(i, name) '(sh, tx, a),
                   placed s0 "rectangle"
                     (x + radius * math_cos (int (Z.of_nat i) * step))%Qc
                     (y + radius * math_sin (int (Z.of_nat i) * step))%Qc
                     dc i sh
                   ∧ label_made name sh (Some tx)
                   ∧ joins hb sh a)
          (imap (λ j, pair (i0 + j)) destinations) spokes.
Proof.
  intros Hdc Hdests. induction Hdests as [|name dests Hname _ IH];
    intros i0 els t Hset Hwf Hall Huniq Hhub (e_h & Hh & Hfr).
  { exists els, t, []. simpl. rewrite app_nil_r. by split_and!. }
  destruct (pick_eq dc (i0 + 0) t Hdc) as (color & Hcolor & Hpick).
  destruct (spoke_eq hub e_h name
              (x + radius * math_cos (int (Z.of_nat (i0 + 0)) * step))%Qc
              (y + radius * math_sin (int (Z.of_nat (i0 + 0)) * step))%Qc color
              (λ dest dest_text arrow,
                 ret ((els ++ [Some dest; dest_text]) ++ [Some arrow])) t)
    as (e_d & g & t1 & Heq & _ & _ & Hold & Hview1 & Hels1 & Hset1 & Hpl & Hlb & Hj
        & Hwf1 & Hall1 & Huniq1); [done..|].
  assert (routing_destination dc x y radius step hub els (i0 + 0, name) t
          = (Ok ((els ++ [Some (length (objects t)); Some (S (length (objects t)))])
                 ++ [Some (S (S (length (objects t))))]), t1)) as Hbody.
  { unfold routing_destination. rewrite (bind_ok _ _ _ _ _ Hpick). exact Heq. }
  destruct (IH (S i0)
              ((els ++ [Some (length (objects t)); Some (S (length (objects t)))])
               ++ [Some (S (S (length (objects t))))]) t1)
    as (els' & t' & spokes & Hloop & Hview' & Hspokes);
    [by eapply same_settings_trans|done|done|done| | |].
  { rewrite Hels1, elem_of_app. by left. }
  { destruct (Hold _ _ Hh) as (e' & He' & Hfr'). exists e'. split; [done|congruence]. }
  assert (imap ((λ j, pair (i0 + j)) ∘ S) dests
          = imap (λ j, pair (S i0 + j)) dests) as Himap.
  { apply imap_ext. intros j d _. simpl. f_equal. lia. }
  exists els', t', (g :: spokes). simpl. rewrite Himap.
  split_and!.
  - by rewrite (bind_ok _ _ _ _ _ Hbody).
  - rewrite Hview', Hview1. by rewrite <-app_assoc.
  - constructor; [|done]. destruct g as [[sh tx] a]. simpl in *.
    split; [by apply (placed_in s0 t _ _ _ color)|].
    split; [done|by rewrite <-Hfr].
Qed.

(** X16.  The geometry of the routing layout.  On an agent whose
    [self.elements] is a list of dicts and whose ids are unique, a routing
    layout with non-empty labels and at least one destination returns,
    having made the router rectangle at [(start_x, start_y)] with its text
    and, for the [i]-th destination in turn, a rectangle of the default size
    at [start_x + radius * cos(i * angle_step)],
    [start_y + radius * sin(i * angle_step)] with the background
    [dest_colors[i % len(dest_colors)]], its text, and an arrow that joins
    the router to it; [radius] is [default_spacing_x * 1.5] and [angle_step]
    is [2 * pi / len(destinations)] (all in exact arithmetic). *)
Theorem routing_layout_geometry `{MathLib} router_name destinations x y rc dc s :
  wf s → all_dicts s → unique_ids s →
  router_name ≠ "" → Forall (λ d, d ≠ "") destinations → destinations ≠ [] →
  dc ≠ Some [] →
  ∃ ret s' hub hub_text spokes,
    create_routing_layout router_name destinations x y rc dc s = (Ok ret, s')
    ∧ created s s' = [hub; hub_text] ++ concat (spoke_dicts <$> spokes)
    ∧ placed s "rectangle" x y [default ColorScheme.CODE rc] 0 hub
    ∧ label_made router_name hub (Some hub_text)
    ∧ Forall2 (λ '(i, name) '(sh, tx, a),
                 placed s "rectangle"
                   (x + default_spacing_x s * float_1_5
                        * math_cos (int (Z.of_nat i)
                                    * (int 2 * math_pi
                                       / int (Z.of_nat (length destinations)))))%Qc
                   (y + default_spacing_x s * float_1_5
                        * math_sin (int (Z.of_nat i)
                                    * (int 2 * math_pi
                                       / int (Z.of_nat (length destinations)))))%Qc
                   (default [ColorScheme.LLM] dc) i sh
                 ∧ label_made name sh (Some tx)
                 ∧ joins hub sh a)
        (enumerate destinations) spokes.
Proof.
  intros Hwf Hall Huniq Hrouter Hdests Hne Hdc.
  destruct (labelled_shape_eq "rect" RECTANGLE 3 router_name x y
              (default ColorScheme.CODE rc)
              (λ router router_text,
                 let* angle_step :=
                   truediv (int 2 * math_pi)%Qc
                     (int (Z.of_nat (length destinations))) in
                 let* sx := gets default_spacing_x in
                 for_each (enumerate destinations)
                   (routing_destination (default [ColorScheme.LLM] dc) x y
                      (sx * float_1_5)%Qc angle_step router)
                   [Some router; router_text]) s)
    as (e_h & hub & hub_text & t2 & Heq & Hh & Hfr & _ & _ & Hview2 & Hels2 & Hset2
        & Hpl & Hlb & Hwf2 & Hall2 & Huniq2); [by left|done..|].
  destruct (routing_loop (default [ColorScheme.LLM] dc) x y
              (default_spacing_x t2 * float_1_5)%Qc
              (int 2 * math_pi / int (Z.of_nat (length destinations)))%Qc
              (length (objects s)) hub s destinations
              ltac:(by destruct dc as [[|]|]) Hdests 0
              [Some (length (objects s)); Some (S (length (objects s)))] t2)
    as (ret & s' & spokes & Hloop & Hview' & Hspokes); [done..| | |].
  { rewrite Hels2, !elem_of_app. right. apply list_elem_of_here. }
  { by exists e_h. }
  exists ret, s', hub, hub_text, spokes. split_and!.
  - etrans; [exact Heq|]. cbv beta.
    rewrite (bind_ok _ _ _ _ _ (truediv_ok _ _ _ (length_ne_0 _ Hne))).
    exact Hloop.
  - apply created_grow. by rewrite Hview', Hview2, <-app_assoc.
  - done.
  - done.
  - destruct Hset2 as (<- & _). exact Hspokes.
Qed.

Lemma routing_layout_geometry_witness :
  ∃ ret s' hub hub_text spokes,
    create_routing_layout (H:=rational_math) "Router" ["LLM1"; "LLM2"] (int 50)
      (int 150) None None two_rects = (Ok ret, s')
    ∧ created two_rects s' = [hub; hub_text] ++ concat (spoke_dicts <$> spokes)
    ∧ placed two_rects "rectangle" (int 50) (int 150)
        [default ColorScheme.CODE None] 0 hub
    ∧ label_made "Router" hub (Some hub_text)
    ∧ Forall2 (λ '(i, name) '(sh, tx, a),
                 placed two_rects "rectangle"
                   (int 50 + default_spacing_x two_rects * float_1_5
                        * math_cos (MathLib:=rational_math)
                            (int (Z.of_nat i)
                             * (int 2 * math_pi (MathLib:=rational_math)
                                / int (Z.of_nat (length ["LLM1"; "LLM2"])))))%Qc
                   (int 150 + default_spacing_x two_rects * float_1_5
                        * math_sin (MathLib:=rational_math)
                            (int (Z.of_nat i)
                             * (int 2 * math_pi (MathLib:=rational_math)
                                / int (Z.of_nat (length ["LLM1"; "LLM2"])))))%Qc
                   (default [ColorScheme.LLM] None) i sh
                 ∧ label_made name sh (Some tx)
                 ∧ joins hub sh a)
        (enumerate ["LLM1"; "LLM2"]) spokes.
Proof.
  apply (routing_layout_geometry (H:=rational_math) "Router" ["LLM1"; "LLM2"]
           (int 50) (int 150) None None two_rects).
  - by apply (bool_decide_unpack _); vm_compute.
  - by apply (bool_decide_unpack _); vm_compute.
  - apply unique_ids_after_all.
  - done.
  - by repeat constructor.
  - done.
  - done.
Defined.

(** ** The parallel layout, dict by dict *)

Lemma view_keep t t' new a e :
  view t' = view t ++ new → objects t !! a = Some e →
  ∃ e', objects t' !! a = Some e' ∧ frozen e' = frozen e.
Proof.
  intros Hview Ha.
  assert (view t' !! a = Some (frozen e)) as Hv.
  { rewrite Hview. apply lookup_app_l_Some. unfold view.
    by rewrite list_lookup_fmap, Ha. }
  unfold view in Hv. rewrite list_lookup_fmap in Hv.
  destruct (objects t' !! a) as [e'|]; [|done].
  exists e'. split; [done|]. simpl in Hv. congruence.
Qed.

(** The entry [a] of [self.elements] is the dict [sh], up to what was bound
    to it. *)
Lemma entry_keep t t' new a sh :
  view t' = view t ++ new → (∀ r, r ∈ elements t → r ∈ elements t') →
  (Some a ∈ elements t ∧ ∃ e, objects t !! a = Some e ∧ frozen e = sh) →
  Some a ∈ elements t' ∧ ∃ e, objects t' !! a = Some e ∧ frozen e = sh.
Proof.
  intros Hview Hels (Hin & e & He & Hfr). split; [by apply Hels|].
  destruct (view_keep t t' new a e Hview He) as (e' & He' & Hfr').
  exists e'. split; [done|congruence].
Qed.

Lemma parallel_first_loop colors count parallel_x y inp ib s0 parallel_items :
  colors ≠ [] → Forall (λ d, d ≠ "") parallel_items →
  ∀ i0 els pes t,
    same_settings s0 t → wf t → all_dicts t → unique_ids t →
    Some inp ∈ elements t →
    (∃ e_i, objects t !! inp = Some e_i ∧ frozen e_i = ib) →
    ∃ els' addrs t' spokes,
      for_each (imap (λ j, pair (i0 + j)) parallel_items)
        (parallel_item colors count parallel_x y inp) (els, pes) t
      = (Ok (els', pes ++ addrs), t')
      ∧ view t' = view t ++ concat (spoke_dicts <$> spokes)
      ∧ (∀ r, r ∈ elements t → r ∈ elements t')
      ∧ same_settings s0 t' ∧ wf t' ∧ all_dicts t' ∧ unique_ids t'
      ∧ Forall2 (λ a g, Some a ∈ elements t'
                        ∧ ∃ e, objects t' !! a = Some e ∧ frozen e = g.1.1)
          addrs spokes
      ∧ Forall2 (λ '(i, name) '(sh, tx, a),
                   placed s0 "rectangle" parallel_x
                     (y + (int (Z.of_nat i) - int (Z.of_nat count) / int 2)
                          * default_spacing_y s0)%Qc
                     colors i sh
                   ∧ label_made name sh (Some tx)
                   ∧ joins ib sh a)
          (imap (λ j, pair (i0 + j)) parallel_items) spokes.
Proof.
  intros Hcolors Hitems. induction Hitems as [|name items Hname _ IH];
    intros i0 els pes t Hset Hwf Hall Huniq Hinp (e_i & Hi & Hfr).
  { exists els, [], t, []. simpl. rewrite !app_nil_r. split_and!; try done.
    all: constructor. }
  destruct (pick_eq colors (i0 + 0) t Hcolors) as (color & Hcolor & Hpick).
  destruct (spoke_eq inp e_i name parallel_x
              (y + (int (Z.of_nat (i0 + 0)) - int (Z.of_nat count) / int 2)
                   * default_spacing_y t)%Qc color
              (λ dest dest_text arrow,
                 ret ((els ++ [Some dest; dest_text]) ++ [Some arrow],
                      pes ++ [dest])) t)
    as (e_d & g & t1 & Heq & Hd & Hfrd & Hold & Hview1 & Hels1 & Hset1 & Hpl & Hlb & Hj
        & Hwf1 & Hall1 & Huniq1); [done..|].
  assert (parallel_item colors count parallel_x y inp (els, pes) (i0 + 0, name) t
          = (Ok ((els ++ [Some (length (objects t)); Some (S (length (objects t)))])
                 ++ [Some (S (S (length (objects t))))],
                 pes ++ [length (objects t)]), t1)) as Hbody.
  { unfold parallel_item. unfold bind at 1, gets at 1.
    rewrite (bind_ok _ _ _ _ _ Hpick). exact Heq. }
  destruct (IH (S i0)
              ((els ++ [Some (length (objects t)); Some (S (length (objects t)))])
               ++ [Some (S (S (length (objects t))))])
              (pes ++ [length (objects t)]) t1)
    as (els' & addrs & t' & spokes & Hloop & Hview' & Hels' & Hset' & Hwf' & Hall'
        & Huniq' & Haddrs & Hspokes);
    [by eapply same_settings_trans|done|done|done| | |].
  { rewrite Hels1, elem_of_app. by left. }
  { destruct (Hold _ _ Hi) as (e' & He' & Hfr'). exists e'. split; [done|congruence]. }
  assert (imap ((λ j, pair (i0 + j)) ∘ S) items
          = imap (λ j, pair (S i0 + j)) items) as Himap.
  { apply imap_ext. intros j d _. simpl. f_equal. lia. }
  exists els', (length (objects t) :: addrs), t', (g :: spokes). simpl. rewrite Himap.
  split_and!.
  - rewrite (bind_ok _ _ _ _ _ Hbody), Hloop. by rewrite <-app_assoc.
  - rewrite Hview', Hview1. by rewrite <-app_assoc.
  - intros r Hr. apply Hels'. rewrite Hels1, elem_of_app. by left.
  - done.
  - done.
  - done.
  - done.
  - constructor; [|done].
    apply (entry_keep t1 t' _ _ _ Hview' Hels'). split.
    + rewrite Hels1, !elem_of_app. right. apply list_elem_of_here.
    + by exists e_d.
  - constructor; [|done]. destruct g as [[sh tx] a]. simpl in *.
    pose proof Hset as (_ & Hsy & _).
    split; [rewrite <-Hsy; by apply (placed_in s0 t _ _ _ color)|].
    split; [done|by rewrite <-Hfr].
Qed.

Lemma parallel_second_loop out ob :
  ∀ pes shapes els t,
    wf t → all_dicts t → unique_ids t →
    Some out ∈ elements t →
    (∃ e_o, objects t !! out = Some e_o ∧ frozen e_o = ob) →
    Forall2 (λ a sh, a ≠ out ∧ Some a ∈ elements t
                     ∧ ∃ e, objects t !! a = Some e ∧ frozen e = sh) pes shapes →
    ∃ els' t' arrows,
      for_each pes (parallel_output_arrow out) els t = (Ok els', t')
      ∧ view t' = view t ++ arrows
      ∧ Forall2 (λ sh a, joins sh ob a) shapes arrows.
Proof.
  induction pes as [|pe pes IH]; intros shapes els t Hwf Hall Huniq Hout (e_o & Ho & Hfr)
    Hpes.
  { apply Forall2_nil_inv_l in Hpes as ->. exists els, t, []. rewrite app_nil_r.
    split_and!; [done..|constructor]. }
  apply Forall2_cons_inv_l in Hpes as (sh & shapes' & (Hne & Hin & e & He & Hfre) & Hpes
                                        & ->).
  destruct (arrow_eq pe out e e_o t)
    as (a & t1 & Heq & Hview1 & Hels1 & _ & Hj & Hwf1 & Hall1 & Huniq1); [done..|].
  assert (parallel_output_arrow out els pe t
          = (Ok (els ++ [Some (length (objects t))]), t1)) as Hbody.
  { unfold parallel_output_arrow.
    rewrite (bind_ok _ _ _ _ _ (id_of_ok _ _ _ He)).
    rewrite (bind_ok _ _ _ _ _ (id_of_ok _ _ _ Ho)).
    by rewrite (bind_ok _ _ _ _ _ Heq). }
  assert (∀ r, r ∈ elements t → r ∈ elements t1) as Hsub by by rewrite Hels1.
  destruct (IH shapes' (els ++ [Some (length (objects t))]) t1)
    as (els' & t' & arrows & Hloop & Hview' & Harrows); [done|done|done|by apply Hsub| |
                                                          |].
  { destruct (view_keep t t1 _ _ _ Hview1 Ho) as (e' & He' & Hfr').
    exists e'. split; [done|congruence]. }
  { eapply Forall2_impl; [done|]. simpl. intros b sh' (? & Hb). split; [done|].
    by apply (entry_keep t t1 [a]). }
  exists els', t', (a :: arrows). split_and!.
  - rewrite for_each_cons. by rewrite (bind_ok _ _ _ _ _ Hbody).
  - rewrite Hview', Hview1. by rewrite <-app_assoc.
  - constructor; [|done]. by rewrite <-Hfre, <-Hfr.
Qed.

Lemma bind_gets {A B} (f : ExcalidrawAgent → A) (k : A → M B) s :
  bind (gets f) k s = k (f s) s.
Proof. done. Qed.

(** X17.  The geometry of the parallel layout.  On an agent whose
    [self.elements] is a list of dicts and whose ids are unique, a parallel
    layout with non-empty labels returns, having made in this order: the
    input ellipse at [(start_x, start_y)] with its text; for the [i]-th
    parallel item a rectangle at [x = start_x + 2 * default_spacing_x],
    [y = start_y + (i - len(parallel_items) / 2) * default_spacing_y] with
    the background [colors[i % len(colors)]], its text and an arrow that
    joins the input to it; the output ellipse at
    [x = start_x + 4 * default_spacing_x], [y = start_y] with its text; and
    for every parallel item in turn an arrow that joins it to the output
    (all in exact arithmetic). *)
Theorem parallel_layout_geometry input_name parallel_items output_name x y colors s :
  wf s → all_dicts s → unique_ids s →
  input_name ≠ "" → output_name ≠ "" → Forall (λ i, i ≠ "") parallel_items →
  colors ≠ Some [] →
  ∃ ret s' inp inp_text spokes out out_text arrows,
    create_parallel_layout input_name parallel_items output_name x y colors s
    = (Ok ret, s')
    ∧ created s s'
      = [inp; inp_text] ++ concat (spoke_dicts <$> spokes) ++ [out; out_text]
        ++ arrows
    ∧ placed s "ellipse" x y [ColorScheme.TRANSPARENT] 0 inp
    ∧ label_made input_name inp (Some inp_text)
    ∧ Forall2 (λ '(i, name) '(sh, tx, a),
                 placed s "rectangle" (x + default_spacing_x s * int 2)%Qc
                   (y + (int (Z.of_nat i)
                         - int (Z.of_nat (length parallel_items)) / int 2)
                        * default_spacing_y s)%Qc
                   (default [ColorScheme.LLM; ColorScheme.CODE] colors) i sh
                 ∧ label_made name sh (Some tx)
                 ∧ joins inp sh a)
        (enumerate parallel_items) spokes
    ∧ placed s "ellipse"
        (x + default_spacing_x s * int 2 + default_spacing_x s * int 2)%Qc y
        [ColorScheme.TRANSPARENT] 0 out
    ∧ label_made output_name out (Some out_text)
    ∧ Forall2 (λ '(sh, tx, a) a', joins sh out a') spokes arrows.
Proof.
  intros Hwf Hall Huniq Hinput Houtput Hitems Hcolors.
  destruct (labelled_shape_eq "ellipse" ELLIPSE 2 input_name x y
              ColorScheme.TRANSPARENT
              (λ input_elem input_text,
                 let* sx := gets default_spacing_x in
                 let* (elements, parallel_elements) :=
                   for_each (enumerate parallel_items)
                     (parallel_item (default [ColorScheme.LLM; ColorScheme.CODE] colors)
                        (length parallel_items) (x + sx * int 2)%Qc y input_elem)
                     ([Some input_elem; input_text], []) in
                 let* sx' := gets default_spacing_x in
                 let* (output_elem, output_text) :=
                   create_ellipse (x + sx * int 2 + sx' * int 2)%Qc y None None
                     (Some output_name) (Some ColorScheme.TRANSPARENT) in
                 let* _ := add_element (Some output_elem) in
                 let* _ := add_element output_text in
                 for_each parallel_elements (parallel_output_arrow output_elem)
                   (elements ++ [Some output_elem; output_text])) s)
    as (e_i & inp & inp_text & t2 & Heq1 & Hi & Hfri & _ & _ & Hview2 & Hels2 & Hset2
        & Hpli & Hlbi & Hwf2 & Hall2 & Huniq2); [by right; left|done..|].
  destruct (parallel_first_loop (default [ColorScheme.LLM; ColorScheme.CODE] colors)
              (length parallel_items) (x + default_spacing_x t2 * int 2)%Qc y
              (length (objects s)) inp s parallel_items
              ltac:(by destruct colors as [[|]|]) Hitems 0
              [Some (length (objects s)); Some (S (length (objects s)))] [] t2)
    as (els3 & addrs & t3 & spokes & Hloop1 & Hview3 & Hels3 & Hset3 & Hwf3 & Hall3
        & Huniq3 & Haddrs & Hspokes); [done..| | |].
  { rewrite Hels2, !elem_of_app. right. apply list_elem_of_here. }
  { by exists e_i. }
  destruct (labelled_shape_eq "ellipse" ELLIPSE 2 output_name
              (x + default_spacing_x t2 * int 2 + default_spacing_x t3 * int 2)%Qc y
              ColorScheme.TRANSPARENT
              (λ output_elem output_text,
                 for_each addrs (parallel_output_arrow output_elem)
                   (els3 ++ [Some output_elem; output_text])) t3)
    as (e_o & out & out_text & t4 & Heq2 & Ho & Hfro & _ & _ & Hview4 & Hels4 & Hset4
        & Hplo & Hlbo & Hwf4 & Hall4 & Huniq4); [by right; left|done..|].
  destruct (parallel_second_loop (length (objects t3)) out addrs (spokes.*1.*1)
              (els3 ++ [Some (length (objects t3)); Some (S (length (objects t3)))])
              t4)
    as (ret & s' & arrows & Hloop2 & Hview' & Harrows); [done..| | | |].
  { rewrite Hels4, !elem_of_app. right. apply list_elem_of_here. }
  { by exists e_o. }
  { rewrite <-list_fmap_compose. apply Forall2_fmap_r.
    eapply Forall2_impl; [done|]. simpl. intros a g (Hin & e & He & Hfre).
    split; [apply lookup_lt_Some in He; lia|].
    apply (entry_keep t3 t4 [out; out_text]); [done| |by eauto].
    intros r Hr. rewrite Hels4, elem_of_app. by left. }
  pose proof Hset2 as (Hsx2 & _). pose proof Hset3 as (Hsx3 & _).
  rewrite Hsx2 in *. rewrite Hsx3 in *.
  exists ret, s', inp, inp_text, spokes, out, out_text, arrows. split_and!.
  - etrans; [exact Heq1|]. cbv beta. rewrite bind_gets, Hsx2.
    rewrite (bind_ok _ _ _ _ _ Hloop1). simpl. rewrite bind_gets, Hsx3.
    etrans; [exact Heq2|]. exact Hloop2.
  - apply created_grow. rewrite Hview', Hview4, Hview3, Hview2.
    by rewrite <-!app_assoc.
  - done.
  - done.
  - exact Hspokes.
  - apply (placed_in s t3 _ _ _ ColorScheme.TRANSPARENT); done.
  - done.
  - rewrite <-list_fmap_compose in Harrows. apply Forall2_fmap_l in Harrows.
    eapply Forall2_impl; [done|]. by intros [[sh tx] a] a'.
Qed.

Lemma parallel_layout_geometry_witness :
  ∃ ret s' inp inp_text spokes out out_text arrows,
    create_parallel_layout "Input" ["Process A"; "Process B"] "Output" (int 50)
      (int 300) None two_rects = (Ok ret, s')
    ∧ created two_rects s'
      = [inp; inp_text] ++ concat (spoke_dicts <$> spokes) ++ [out; out_text]
        ++ arrows
    ∧ placed two_rects "ellipse" (int 50) (int 300) [ColorScheme.TRANSPARENT] 0 inp
    ∧ label_made "Input" inp (Some inp_text)
    ∧ Forall2 (λ '(i, name) '(sh, tx, a),
                 placed two_rects "rectangle"
                   (int 50 + default_spacing_x two_rects * int 2)%Qc
                   (int 300
                    + (int (Z.of_nat i)
                       - int (Z.of_nat (length ["Process A"; "Process B"])) / int 2)
                      * default_spacing_y two_rects)%Qc
                   (default [ColorScheme.LLM; ColorScheme.CODE] None) i sh
                 ∧ label_made name sh (Some tx)
                 ∧ joins inp sh a)
        (enumerate ["Process A"; "Process B"]) spokes
    ∧ placed two_rects "ellipse"
        (int 50 + default_spacing_x two_rects * int 2
         + default_spacing_x two_rects * int 2)%Qc (int 300)
        [ColorScheme.TRANSPARENT] 0 out
    ∧ label_made "Output" out (Some out_text)
    ∧ Forall2 (λ '(sh, tx, a) a', joins sh out a') spokes arrows.
Proof.
  apply (parallel_layout_geometry "Input" ["Process A"; "Process B"] "Output" (int 50)
           (int 300) None two_rects).
  - by apply (bool_decide_unpack _); vm_compute.
  - by apply (bool_decide_unpack _); vm_compute.
  - apply unique_ids_after_all.
  - done.
  - done.
  - by repeat constructor.
  - done.
Defined.

(** ** Adding what a layout returned *)

Lemma add_elements_eq l s :
  add_elements l s = (Ok tt, set_elements (elements s ++ l) s).
Proof.
  unfold add_elements. revert s. induction l as [|r l IH]; intros s.
  - simpl. rewrite app_nil_r. by destruct s.
  - rewrite for_each_cons. unfold bind at 1, add_element at 1, modify. simpl.
    rewrite IH. simpl. by rewrite <-app_assoc.
Qed.

Lemma add_after_layout (layout : M (list ref)) s kinds :
  returns layout s (layout_made s kinds) →
  ∃ s',
    (let* ret := layout in add_elements ret) s = (Ok tt, s')
    ∧ El.type <$> created s s' = kinds
    ∧ elements s'
      = elements s
        ++ filter (λ r, type_at s' r ≠ Some "arrow")
             (Some <$> seq (length (objects s)) (length (created s s')))
        ++ (Some <$> seq (length (objects s)) (length (created s s')))
    ∧ (∀ k ks, kinds = k :: ks → k ≠ "arrow" → ¬ NoDup (elements s')).
Proof.
  intros (ret & s1 & Heq & new & Hview & -> & Hty & Hels & _).
  exists (set_elements (elements s1 ++ (Some <$> seq (length (objects s)) (length new)))
            s1).
  rewrite (bind_ok _ _ _ _ _ Heq), add_elements_eq.
  assert (created s (set_elements (elements s1 ++ (Some <$>
            seq (length (objects s)) (length new))) s1) = new) as Hcr.
  { by apply created_grow. }
  rewrite Hcr. split_and!; [done|done|by simpl; rewrite Hels, <-app_assoc|].
  intros k ks -> Hk. simpl. rewrite Hels.
  destruct new as [|e new]; [done|]. injection Hty as Hte Hty.
  assert (Some (length (objects s))
          ∈ (Some <$> seq (length (objects s)) (length (e :: new)) : list ref))
    as Hin.
  { apply list_elem_of_fmap. exists (length (objects s)). split; [done|].
    apply elem_of_seq. simpl. lia. }
  rewrite <-app_assoc. intros (_ & _ & (_ & Hdis & _)%NoDup_app)%NoDup_app.
  apply (Hdis (Some (length (objects s)))); [|done].
  apply list_elem_of_filter. split; [|done].
  rewrite <-(Nat.add_0_r (length (objects s))).
  rewrite (type_at_new s s1 (e :: new) 0 e Hview eq_refl). congruence.
Qed.

(** X18.  Adding what a layout returned, as the example diagram of the module
    does with [for elem in elements: agent.add_element(elem)], on an agent
    whose [self.elements] is a list of dicts and with a palette that is not
    the empty list.  After a sequential layout on an agent whose ids were all
    issued by its counter (no [clear] since they were made) this puts each of
    its dicts into [self.elements] once.  After a routing or a parallel
    layout with non-empty labels (and at least one destination) it puts the
    arrows there once and every shape and text a second time, so the list of
    the document then holds the same dict twice. *)
Theorem adding_layout_result_repeats_shapes `{MathLib} s :
  wf s → all_dicts s →
  (∀ items x y item_type colors,
     ids_issued s → colors ≠ Some [] →
     ∃ s',
       (let* ret := create_sequential_layout items x y item_type colors in
        add_elements ret) s = (Ok tt, s')
       ∧ elements s'
         = elements s ++ (Some <$> seq (length (objects s)) (length (created s s')))
       ∧ (NoDup (elements s) → NoDup (elements s')))
  ∧ (∀ router_name destinations x y rc dc,
       router_name ≠ "" → Forall (λ d, d ≠ "") destinations →
       destinations ≠ [] → dc ≠ Some [] →
       ∃ s',
         (let* ret := create_routing_layout router_name destinations x y rc dc in
          add_elements ret) s = (Ok tt, s')
         ∧ elements s'
           = elements s
             ++ filter (λ r, type_at s' r ≠ Some "arrow")
                  (Some <$> seq (length (objects s)) (length (created s s')))
             ++ (Some <$> seq (length (objects s)) (length (created s s')))
         ∧ ¬ NoDup (elements s'))
  ∧ (∀ input_name parallel_items output_name x y colors,
       input_name ≠ "" → output_name ≠ "" → Forall (λ i, i ≠ "") parallel_items →
       colors ≠ Some [] →
       ∃ s',
         (let* ret :=
            create_parallel_layout input_name parallel_items output_name x y colors in
          add_elements ret) s = (Ok tt, s')
         ∧ elements s'
           = elements s
             ++ filter (λ r, type_at s' r ≠ Some "arrow")
                  (Some <$> seq (length (objects s)) (length (created s s')))
             ++ (Some <$> seq (length (objects s)) (length (created s s')))
         ∧ ¬ NoDup (elements s')).
Proof.
  intros Hwf Hall. split_and!.
  - intros items x y item_type colors Hiss Hcolors.
    destruct (sequential_layout_spec items x y item_type colors s Hwf Hall Hcolors)
      as (ret & s1 & Heq & ks & -> & _ & _ & _ & _ & _ & _ & _ & Hels).
    specialize (Hels Hiss).
    exists (set_elements (elements s1 ++ (Some <$>
              seq (length (objects s)) (length (created s s1)))) s1).
    rewrite (bind_ok _ _ _ _ _ Heq), add_elements_eq.
    split_and!; [done|by simpl; rewrite Hels|].
    simpl. rewrite Hels. intros Hnd. apply NoDup_app. split_and!; [done| |].
    + intros r Hr (a & -> & Ha%elem_of_seq)%list_elem_of_fmap.
      pose proof (wf_valid _ _ Hwf Hr). lia.
    + apply NoDup_fmap; [apply _|apply NoDup_seq].
  - intros router_name destinations x y rc dc Hrouter Hdests Hne Hdc.
    destruct (add_after_layout
                (create_routing_layout router_name destinations x y rc dc) s
                (["rectangle"; "text"]
                 ++ concat (replicate (length destinations)
                              ["rectangle"; "text"; "arrow"])))
      as (s' & Heq & _ & Hels & Hdup).
    { eapply returns_mono; [by apply routing_layout_spec|].
      intros ret s1. apply spokes_made_layout. }
    exists s'. split_and!; [done|done|by eapply Hdup].
  - intros input_name parallel_items output_name x y colors Hin Hout Hitems Hcolors.
    destruct (add_after_layout
                (create_parallel_layout input_name parallel_items output_name x y
                   colors) s
                (["ellipse"; "text"]
                 ++ concat (replicate (length parallel_items)
                              ["rectangle"; "text"; "arrow"])
                 ++ ["ellipse"; "text"]
                 ++ replicate (length parallel_items) "arrow"))
      as (s' & Heq & _ & Hels & Hdup).
    { by apply parallel_layout_spec. }
    exists s'. split_and!; [done|done|by eapply Hdup].
Qed.

Lemma adding_layout_result_repeats_shapes_witness :
  (∃ s',
     (let* ret := create_sequential_layout ["Input"; "Process"; "Output"] (int 50)
                    (int 50) "rectangle" None in
      add_elements ret) two_rects = (Ok tt, s')
     ∧ elements s'
       = elements two_rects
         ++ (Some <$> seq (length (objects two_rects))
                        (length (created two_rects s')))
     ∧ (NoDup (elements two_rects) → NoDup (elements s')))
  ∧ (∃ s',
       (let* ret := create_routing_layout (H:=rational_math) "Router"
                      ["LLM1"; "LLM2"] (int 50) (int 150) None None in
        add_elements ret) two_rects = (Ok tt, s')
       ∧ elements s'
         = elements two_rects
           ++ filter (λ r, type_at s' r ≠ Some "arrow")
                (Some <$> seq (length (objects two_rects))
                               (length (created two_rects s')))
           ++ (Some <$> seq (length (objects two_rects))
                          (length (created two_rects s')))
       ∧ ¬ NoDup (elements s'))
  ∧ (∃ s',
       (let* ret := create_parallel_layout "Input" ["Process A"] "Output" (int 50)
                      (int 300) None in
        add_elements ret) two_rects = (Ok tt, s')
       ∧ elements s'
         = elements two_rects
           ++ filter (λ r, type_at s' r ≠ Some "arrow")
                (Some <$> seq (length (objects two_rects))
                               (length (created two_rects s')))
           ++ (Some <$> seq (length (objects two_rects))
                          (length (created two_rects s')))
       ∧ ¬ NoDup (elements s')).
Proof.
  destruct (adding_layout_result_repeats_shapes (H:=rational_math) two_rects)
    as (Hseq & Hrouting & Hparallel).
  { by apply (bool_decide_unpack _); vm_compute. }
  { by apply (bool_decide_unpack _); vm_compute. }
  split_and!.
  - apply (Hseq ["Input"; "Process"; "Output"] (int 50) (int 50) "rectangle" None);
      [|done].
    apply unique_ids_after_all.
  - apply (Hrouting "Router" ["LLM1"; "LLM2"] (int 50) (int 150) None None);
      [done| |done..].
    by repeat constructor.
  - apply (Hparallel "Input" ["Process A"] "Output" (int 50) (int 300) None);
      [done..| |done].
    by repeat constructor.
Defined.

Lemma run_eq {A} (m : M A) s r : (m s).1 = r → m s = (r, (m s).2).
Proof. intros <-. by destruct (m s). Qed.

Lemma save_diagram_eq filename title s :
  wf s →
  save_diagram filename title s
  = (Ok (filename,
         Doc.mk "excalidraw" 2 "https://github.com/your-username/excalidraw-agent"
           (map (dict_at s) (elements s))
           (mkAppState 20 "#ffffff" 5 16 "#1e1e1e" "transparent" "solid" 2
              "solid" 1 100 "left" None (Some "arrow")) []), s).
Proof.
  intros Hwf. unfold save_diagram.
  erewrite bind_ok; [reflexivity|]. unfold generate_excalidraw_json.
  rewrite (bind_ok _ _ s (elements s) s) by done.
  by rewrite (bind_ok _ _ _ _ _ (resolve_returns _ _ Hwf)).
Qed.

(** X19.  The example diagram.  Whatever the math library computes,
    [create_agent_framework_diagram] returns an agent that has made 45 dicts
    in the three groups it opened (the title in none), and whose
    [self.elements] has 63 entries: the 18 shapes and texts of its routing
    and of its parallel layout are listed twice, everything else once.  The
    document the module then saves has 63 elements with 45 distinct ids. *)
Theorem example_diagram_lists_shapes_twice `{MathLib} :
  ∃ s' d,
    create_agent_framework_diagram init = (Ok tt, s')
    ∧ length (objects s') = 45
    ∧ elements s'
      = Some <$> (seq 0 17 ++ [17; 18; 19; 20; 22; 23; 25; 26] ++ seq 17 12
                  ++ [29; 30; 31; 32; 34; 35; 37; 38; 40; 41] ++ seq 29 16)
    ∧ El.groupIds <$> objects s'
      = [[]] ++ replicate 15 ["sequential-group-1"]
        ++ replicate 12 ["routing-group-2"] ++ replicate 17 ["parallel-group-3"]
    ∧ current_group_id s' = None
    ∧ save_diagram "agent_framework_example.excalidraw" "Generated Diagram" s'
      = (Ok ("agent_framework_example.excalidraw", d), s')
    ∧ length (Doc.elements d) = 63
    ∧ length (remove_dups (omap (fmap El.id) (Doc.elements d))) = 45.
Proof.
  assert ((create_agent_framework_diagram init).1 = Ok tt) as Hret
    by (vm_compute; reflexivity).
  assert (wf (create_agent_framework_diagram init).2) as Hwf
    by (apply (bool_decide_unpack _); vm_compute; exact I).
  eexists (create_agent_framework_diagram init).2, _.
  split; [exact (run_eq create_agent_framework_diagram init (Ok tt) Hret)|].
  clear Hret.
  do 4 (split; [vm_compute; reflexivity|]).
  split; [exact (save_diagram_eq _ _ _ Hwf)|].
  clear Hwf. split; vm_compute; reflexivity.
Qed.

(** ** The flowchart of a description *)

Lemma string_prefix_spec word s :
  String.prefix word s = true ↔ ∃ after, s = word +:+ after.
Proof.
  revert s. induction word as [|c word IH]; intros s.
  - split; [by exists s|by destruct s].
  - destruct s as [|c' s]; simpl.
    + split; [done|by intros [? [=]]].
    + destruct (Ascii.ascii_dec c c') as [->|Hne].
      * rewrite IH. split.
        -- intros [after ->]. by exists after.
        -- intros [after [= ->]]. by exists after.
      * split; [done|]. intros [after [= -> _]]. done.
Qed.

Lemma str_contains_spec word s :
  str_contains word s = true ↔ ∃ before after, s = before +:+ word +:+ after.
Proof.
  induction s as [|c s IH].
  - change (str_contains word "") with (String.prefix word "" || false).
    rewrite orb_true_iff, string_prefix_spec. split.
    + intros [[after ->]|[=]]. by exists "", after.
    + intros (before & after & Heq). left. exists after.
      destruct before; [done|discriminate].
  - change (str_contains word (String c s))
      with (String.prefix word (String c s) || str_contains word s).
    rewrite orb_true_iff, string_prefix_spec, IH. split.
    + intros [[after ->]|(before & after & ->)].
      * by exists "", after.
      * by exists (String c before), after.
    + intros ([|c' before] & after & Heq).
      * left. by exists after.
      * right. injection Heq as -> ->. by exists before, after.
Qed.

Lemma mentions_spec word description :
  str_contains word (lower description) = true ↔ mentions word description.
Proof. apply str_contains_spec. Qed.

(** X20.  The flowchart of a description.  On an agent whose [self.elements]
    is a list of dicts and whose ids were issued by its counter, the call
    never raises, and the first of these that holds for the lower-cased
    description decides the layout: it has "sequential" or "chain" in it (a
    chain of four rectangles, 11 dicts, nothing appended to
    [self.elements]); "routing" or "router" (a hub and three destinations,
    11 dicts); "parallel" (an input, three processes and an output, 16
    dicts); none of them (a chain of three rectangles, 8 dicts). *)
Theorem flowchart_layout_by_keyword `{MathLib} description s :
  isascii description = true →
  wf s → all_dicts s → ids_issued s →
  ∃ ret s',
    create_flowchart_from_description description s = (Ok ret, s')
    ∧ ret = Some <$> seq (length (objects s)) (length (created s s'))
    ∧ (mentions "sequential" description ∨ mentions "chain" description →
       El.type <$> created s s'
       = concat (replicate 4 ["rectangle"; "text"]) ++ replicate 3 "arrow"
       ∧ elements s' = elements s)
    ∧ (¬ (mentions "sequential" description ∨ mentions "chain" description) →
       mentions "routing" description ∨ mentions "router" description →
       El.type <$> created s s'
       = ["rectangle"; "text"] ++ concat (replicate 3 ["rectangle"; "text"; "arrow"]))
    ∧ (¬ (mentions "sequential" description ∨ mentions "chain" description) →
       ¬ (mentions "routing" description ∨ mentions "router" description) →
       mentions "parallel" description →
       El.type <$> created s s'
       = ["ellipse"; "text"] ++ concat (replicate 3 ["rectangle"; "text"; "arrow"])
         ++ ["ellipse"; "text"] ++ replicate 3 "arrow")
    ∧ (¬ (mentions "sequential" description ∨ mentions "chain" description) →
       ¬ (mentions "routing" description ∨ mentions "router" description) →
       ¬ mentions "parallel" description →
       El.type <$> created s s'
       = concat (replicate 3 ["rectangle"; "text"]) ++ replicate 2 "arrow"
       ∧ elements s' = elements s).
Proof.
  intros _ Hwf Hall Hiss. unfold create_flowchart_from_description. cbv zeta.
  destruct (_ || _) eqn:Hseq.
  { rewrite orb_true_iff, !mentions_spec in Hseq.
    destruct (sequential_layout_spec ["Step 1"; "Step 2"; "Step 3"; "Step 4"]
                (int 50) (int 50) "rectangle" None s Hwf Hall)
      as (ret & s' & Heq & ks & Hret & Hty & _ & _ & _ & _ & _ & _ & Hels); [done|].
    exists ret, s'. split_and!; [done|done|auto|by intros []..]. }
  apply not_true_iff_false in Hseq. rewrite orb_true_iff, !mentions_spec in Hseq.
  destruct (_ || _) eqn:Hrouting.
  { rewrite orb_true_iff, !mentions_spec in Hrouting.
    destruct (routing_layout_spec "Router" ["LLM1"; "LLM2"; "LLM3"] (int 50)
                (int 150) None None s Hwf Hall) as (ret & s' & Heq & Hmade);
      [done|by repeat constructor|done|done|].
    apply spokes_made_layout, layout_made_created in Hmade as (? & ? & ?).
    exists ret, s'. split_and!; [done|done|by intros ?|done|by intros _ []..]. }
  apply not_true_iff_false in Hrouting.
  rewrite orb_true_iff, !mentions_spec in Hrouting.
  destruct (str_contains "parallel" _) eqn:Hparallel.
  { rewrite mentions_spec in Hparallel.
    destruct (parallel_layout_spec "Input" ["Process A"; "Process B"; "Process C"]
                "Output" (int 50) (int 300) None s Hwf Hall)
      as (ret & s' & Heq & Hmade); [done|done|by repeat constructor|done|].
    apply layout_made_created in Hmade as (? & ? & ?).
    exists ret, s'.
    split_and!; [done|done|by intros ?|by intros _ ?|done|by intros _ _ []]. }
  apply not_true_iff_false in Hparallel. rewrite mentions_spec in Hparallel.
  destruct (sequential_layout_spec ["Input"; "Process"; "Output"]
              (int 50) (int 50) "rectangle" None s Hwf Hall)
    as (ret & s' & Heq & ks & Hret & Hty & _ & _ & _ & _ & _ & _ & Hels); [done|].
  exists ret, s'.
  split_and!; [done|done|by intros ?|by intros _ ?|by intros _ _ ?|auto].
Qed.

Lemma flowchart_layout_by_keyword_witness :
  ∃ ret s',
    create_flowchart_from_description (H:=rational_math)
      "A PARALLEL run" two_rects = (Ok ret, s')
    ∧ ret = Some <$> seq (length (objects two_rects)) (length (created two_rects s'))
    ∧ (mentions "sequential" "A PARALLEL run" ∨ mentions "chain" "A PARALLEL run" →
       El.type <$> created two_rects s'
       = concat (replicate 4 ["rectangle"; "text"]) ++ replicate 3 "arrow"
       ∧ elements s' = elements two_rects)
    ∧ (¬ (mentions "sequential" "A PARALLEL run" ∨ mentions "chain" "A PARALLEL run") →
       mentions "routing" "A PARALLEL run" ∨ mentions "router" "A PARALLEL run" →
       El.type <$> created two_rects s'
       = ["rectangle"; "text"] ++ concat (replicate 3 ["rectangle"; "text"; "arrow"]))
    ∧ (¬ (mentions "sequential" "A PARALLEL run" ∨ mentions "chain" "A PARALLEL run") →
       ¬ (mentions "routing" "A PARALLEL run" ∨ mentions "router" "A PARALLEL run") →
       mentions "parallel" "A PARALLEL run" →
       El.type <$> created two_rects s'
       = ["ellipse"; "text"] ++ concat (replicate 3 ["rectangle"; "text"; "arrow"])
         ++ ["ellipse"; "text"] ++ replicate 3 "arrow")
    ∧ (¬ (mentions "sequential" "A PARALLEL run" ∨ mentions "chain" "A PARALLEL run") →
       ¬ (mentions "routing" "A PARALLEL run" ∨ mentions "router" "A PARALLEL run") →
       ¬ mentions "parallel" "A PARALLEL run" →
       El.type <$> created two_rects s'
       = concat (replicate 3 ["rectangle"; "text"]) ++ replicate 2 "arrow"
       ∧ elements s' = elements two_rects).
Proof.
  apply (flowchart_layout_by_keyword (H:=rational_math) "A PARALLEL run"
           two_rects).
  - reflexivity.
  - by apply (bool_decide_unpack _); vm_compute.
  - by apply (bool_decide_unpack _); vm_compute.
  - apply unique_ids_after_all.
Defined.
